(* ===== verification/_CoqProject ===== *)
-Q . S2P
Prelude.v
StdMap.v
CType.v
Tokenizer.v
Dictionary.v
World.v
Text.v
Report.v
ProgramOptions.v
CmdLine.v
Matrix.v
Storage.v
Codec.v
Files.v
Main.v
