(* ===== verification/Prelude.v ===== *)
(** * Verification of n-gram-text-gen (src/main.cpp)

    The program is one translation unit.  [main] parses the command line
    ([parse_command_line]), reads a text file ([read_file]), splits the text
    into sentences and each sentence into words with two Boost tokenizers,
    counts the words in a [std::map<string,int>] while [fill_dictionary]
    accumulates the global [stats], and prints the statistics
    ([print_stats]).  It then exercises a Boost sparse matrix: four element
    writes with the array [value_data()] shown after each ([show_array]),
    the matrix printed, a binary save ([save_matrix]) and a load ([load_matrix]) of
    "matrix.bin", and the loaded matrix printed.  [print_dictionary] and
    [clean_text] are defined and not called.

    ** Files, in dependency order, and the code each models

    - [Prelude] (this file): the notation scope [cxx_scope], the tactics and
      hint databases of the development, and what every component shares:
      the C++ [int] as a [Z] with its 32-bit wrap-around written out
      ([wrap], [int_add], [int_succ]), C++ characters and strings ([ascii],
      [list ascii]) with the byte-wise lexicographic order of
      [std::string], sums and occurrence counts.
    - [StdMap]: the ordered associative container behind [Dictionary] and
      [Stats::sentence_len].  State: the list of (key, value) pairs in
      iteration order.  Operations: [smap_insert] (the [insert] call, which
      returns the iterator as a position and the "was inserted" flag),
      [smap_update_at] (the write through the iterator) and [smap_size].
      The keys are ordered through stdpp's [Lexico], [StrictOrder] and
      [TrichotomyT] classes, with instances for [int] and [std::string]
      keys.  Theorems: the ordering invariant [smap_wf] is preserved, and
      the container refines a finite map ([gmap]) through [smap_abs].
    - [CType]: [isalpha], [isblank], [isspace] and [ispunct] in the "C"
      locale, as predicates on the byte value.
    - [Tokenizer]: the two Boost tokenizers as the source builds them:
      [char_separator] with the dropped delimiters ".?!;" ([sentences],
      main, lines 203-206) and the default [char_delimiters_separator]
      ([words], fill_dictionary, lines 121-124).  [next_token] is the
      functor's call operator, [tokenize] the iteration over it on fuel,
      [token_loop] the same iteration as a relation without fuel.
      Theorems: the loop terminates with the tokens [tokenize] computes,
      tokens are non-empty and free of delimiters, their concatenation is
      the input without its delimiters, [tokenize] equals the one-pass
      reference [split_ref], and a delimiter cuts the token list.
    - [Dictionary]: [fill_dictionary] (lines 118-144) and the statistics
      part of [main] (lines 203-215) over the records [Stats] and [state].
      [count_key] is the insert-or-increment idiom of lines 127-132,
      [fill_words] the token loop, [record_sentence] the guarded update of
      [stats], [analyse] the sentence loop followed by
      [unique_words_number] and the [max_number] loop.  Theorems:
      [count_key] refines the counter update of a finite map; the invariant
      [state_inv] holds of every state reached from [state_init]
      ([reachable], by rule induction); for a text of at most [int_max]
      words the dictionary and the four statistics are the exact ones of
      the text ([text_stats]).  Without that bound, what is proved is the
      invariant (as long as no single sentence has 2^31 words or more),
      and for the token loop of one call that the word counter
      and the counts advance by the right numbers modulo 2^32
      ([fill_words_modular]); nothing is claimed of [words_number] for a
      sentence of 2^31 words or more, where the guard sees a negative
      counter.
    - [World]: what the program touches outside its memory.  [world] holds
      the files that can be read, the names that cannot be opened for
      writing, and the characters written to [std::cout] and [std::cerr].
      [prog A] maps a world to an [outcome] ([Ret], [Exit] with a status,
      [Abort] for an exception nothing catches) and the world it leaves;
      it is a monad.  [prints], [runs] and [keeps_files_but] are the three
      forms of specification the later files use, with their rules for
      sequencing and loops.
    - [Text]: [remove_predicate] and [clean_text] (lines 94-106), the
      erase-remove idiom with the in-place loop of [std::remove_if].
      Theorems: the idiom is a filter for every predicate, and with the
      predicate of the source it erases every string.
    - [Report]: [print_dictionary] (lines 108-116) and [print_stats]
      (lines 146-163).  Theorems: each prints a pure rendering of its
      argument; after [analyse] the numbers printed are those of the text,
      and the total of [print_dictionary] is the [words_number] of
      [print_stats] in every state that satisfies [state_inv].
    - [ProgramOptions]: the part of Boost.Program_options the program
      calls, as the class [ProgramOptions]: [po_parse] (parse [av] against
      an option table into a [variables_map], or throw), [po_show] (print
      the table), and two laws (only declared options are stored, each with
      a value of its kind; no argument stores nothing).  [long_options] is
      an instance, a parser for [--name], [--name value] and
      [--name=value].
    - [CmdLine]: [Options] (lines 17-22) and [parse_command_line] (lines
      37-82): the option table [desc], the [try] block [parse_body], the
      two handlers.  The theorems hold for every instance of
      [ProgramOptions]: what is copied into [Options] on success, the help
      text and [exit(0)], the message and [exit(1)] on a parse error, and
      that the function never touches a file or the field [matrix].
    - [Matrix]: the compressed sparse row matrix of spec.md, sections 3 and
      4.1 ([Construct], [SetAt], [GetAt], [ValueArray] on the arrays
      [values], [col_index], [row_start]).  The type is
      [ublas::compressed_matrix<int>], Boost code outside src/, so these
      definitions follow the specification.  Theorems: [SetAt] acts on one
      row ([SetAt_rows]), keeps the invariant [matrix_inv], and [GetAt]
      reads back what was written and nothing else changes.
    - [Storage]: the matrix object as [main] uses it (the typedef [Matrix],
      line 32): [compressed_matrix] pairs the entries with the unused slots
      of the value array, [value_data] is the array in its whole capacity,
      which is what [main] prints (lines 238-244), [restrict_capacity] and
      [allocate] what the constructor allocates, [unused_after] what an
      insertion does to the free slots.  Theorems: the array lists the
      entries in row-major order, whatever the order of the writes, and then
      the unused slots; the stored coordinates are exactly those at which an
      entry is stored.
    - [Codec]: the binary form of spec.md, section 4.2 ([Encode],
      [Decode]), with 32-bit little-endian integers.  Theorems:
      [Decode (Encode m) = inr m] for every matrix whose fields fit
      ([encodable], which [matrix_inv] with 32-bit values implies), every
      proper prefix of an encoding is [TruncatedInput], and a decoded
      matrix has arrays of consistent lengths.
    - [Files]: [read_file] (lines 84-92), [save_matrix] (165-170),
      [load_matrix] (172-176) and [show_array] (178-184) over [World] and
      [Codec].  Theorems: the save/load round trip, the three ways the
      archive ends the program, what [read_file] does on a file that does
      not open, and which files each function can change.
    - [Main]: [main] (lines 187-259) as the sequence of [main_statistics]
      (191-221), [matrix_demo] (234-246) and [main_persist] (248-256);
      [matrix_assign] is [m(row, col) = value] on the object.  Theorems:
      what an assignment does to the entries and to the array; the
      complete behaviour of a run (status, [cout], [cerr],
      files) on a command line that parses, without [--input], without
      arguments, on a parse error, and with "matrix.bin" not writable;
      that no other file is changed; that the options other than [--input]
      change only the dimension line.

    ** Integers

    [int] is 32 bits wide.  Signed overflow, undefined in C++, is modelled
    as two's complement wrap-around ([wrap]); every theorem that needs
    exact arithmetic states the bound under which no wrap occurs (a text of
    at most [int_max] words), and the theorems without a bound speak of
    values reduced by [wrap].  [size_t] values are natural numbers.  The
    codec writes every field in 32 bits; [encodable] is the range check.

    ** Fuel

    [tokenize_fuel n s] makes at most [n] calls of the token function.
    Each call that returns a token consumes at least one character, so
    [S (length s)] calls suffice; [tokenize] supplies exactly that,
    [tokenize_unfold] and [tokenize_fuel_ref] show that more fuel changes
    nothing, and [token_loop] is the iteration with no bound at all.
    [parse_long] of the instance [long_options] consumes at least one
    argument per step; its fuel is the number of arguments
    ([parse_long_fuel]).  Nothing else in the development uses fuel: the
    loops of the program are folds over finite containers.

    ** Uninitialised storage

    The uBLAS constructor allocates the value array and writes nothing to
    it.  What the unused slots hold is the parameter [uninit] of
    [construct], [matrix_demo] and [main] (slot number to value), and the
    theorems about [main] are stated for every [uninit]; the witnesses use
    zeros, which is what the comments in the source show.  The array of the
    demonstration has 10 slots ([restrict_capacity 10 10 0]) and receives 3
    entries, so [reserve] never runs in [main]; [unused_after] models it
    for arrays that are full.

    ** The world

    [cout] and [cerr] are two separate traces, so the order between a write
    to one and a write to the other is not recorded.  A file opens for
    reading exactly when its name is in [files]; it opens for writing
    unless its name is empty or in [denied], and opening it for writing
    truncates it.  File contents are byte strings; nothing else of the
    file system is modelled.

    ** Modelled from the specification, and not modelled

    The Boost libraries are outside src/.  The tokenizers, [std::map] and
    the stream operations are modelled at the behaviour their
    documentation gives for the calls the source makes.  The entries of
    the matrix and the codec follow spec.md: an assignment changes the
    entries as the specification's [Set] does, and "matrix.bin" holds the
    specification's encoding of the entries.  The bytes a Boost binary
    archive really writes (its header, native widths, the capacity and the
    unused slots it also stores) and the full command-line syntax of
    Boost.Program_options (abbreviations, short options, positional
    arguments) are not modelled; the theorems about a whole run of [main]
    therefore say of "matrix.bin" only that [load_matrix] reads the matrix
    back from it.  [parse_command_line] is declared [int]
    and has no [return] statement; the model returns the options and no
    status.  Locales other than "C" and stream failures after a successful
    open are not modelled. *)

From Stdlib Require Import ZArith Lia Ascii String.
From stdpp Require Import base tactics option list numbers strings lexico sorting.

Declare Scope cxx_scope.
Delimit Scope cxx_scope with cxx.
Local Open Scope Z_scope.

(** ** The C++ [int]: a [Z] kept at 32 bits *)

Definition int_min : Z := -2147483648.
Definition int_max : Z := 2147483647.

(** The value an [int] holds after an arithmetic result [z]: two's
    complement reduction into [int_min .. int_max]. *)
Definition wrap (z : Z) : Z := (z + 2147483648) `mod` 4294967296 - 2147483648.

Definition int_range (z : Z) : Prop := int_min ≤ z ≤ int_max.

Definition int_add (a b : Z) : Z := wrap (a + b).
Definition int_succ (a : Z) : Z := wrap (a + 1).

Infix "+i" := int_add (at level 50, left associativity) : cxx_scope.

#[export] Instance int_range_dec z : Decision (int_range z).
Proof. unfold int_range. apply _. Defined.

(** ** Characters and strings *)

(** A [std::string] is its sequence of bytes. *)
Abbreviation cstring := (list ascii).

Definition txt (s : string) : cstring := String.list_ascii_of_string s.

Definition char_code (c : ascii) : N := N_of_ascii c.

(** [operator<] of [char_traits<char>]: comparison of the bytes as unsigned
    values.  With stdpp's [list_lexico] this gives [std::string]'s order. *)
#[export] Instance ascii_lexico : Lexico ascii :=
  λ a b, (char_code a < char_code b)%N.

#[export] Instance ascii_lexico_po : StrictOrder (@lexico ascii _).
Proof.
  unfold lexico, ascii_lexico. split.
  - intros a. apply (irreflexivity (<)%N).
  - intros a b c. apply (transitivity (R:=(<)%N)).
Qed.

#[export] Instance ascii_lexico_trichotomy : TrichotomyT (@lexico ascii _).
Proof.
  red; refine (λ a b,
    match N.compare (char_code a) (char_code b) as c
          return N.compare (char_code a) (char_code b) = c → _ with
    | Lt => λ H, inleft (left _)
    | Eq => λ H, inleft (right _)
    | Gt => λ H, inright _
    end eq_refl); unfold lexico, ascii_lexico, char_code in *.
  - apply N.compare_eq_iff in H.
    rewrite <- (ascii_N_embedding a), <- (ascii_N_embedding b). by f_equal.
  - by apply N.compare_lt_iff.
  - by apply N.compare_gt_iff.
Defined.

(** ** Sums and occurrence counts *)

Definition sumZ (l : list Z) : Z := foldr Z.add 0 l.

Definition occurrences {A} `{EqDecision A} (x : A) (l : list A) : nat :=
  length (filter (x =.) l).

(** ** Tactics *)

(** Arithmetic with [mod] and [div]: expose the Euclidean equations. *)
Ltac zmod := Z.div_mod_to_equations; lia.

Ltac unfold_int :=
  unfold int_succ, int_add, int_range, int_min, int_max, wrap in *.

Ltac int_solve := unfold_int; zmod.

(** Close a goal whose hypotheses contradict a strict order. *)
Ltac order_absurd :=
  match goal with
  | H : lexico ?a ?a |- _ => destruct (irreflexivity lexico a H)
  | H1 : lexico ?a ?b, H2 : lexico ?b ?a |- _ =>
      destruct (irreflexivity lexico a (transitivity H1 H2))
  end.

(** Case analysis on a three-way key comparison. *)
Ltac case_tri k k' :=
  destruct (trichotomyT lexico k k') as [[?|?]|?]; simplify_eq/=;
  try order_absurd.

Create HintDb cxx discriminated.
Create Rewrite HintDb cxx_rw.

(** ** Lemmas on [int] *)

Lemma wrap_range z : int_range (wrap z).
Proof. int_solve. Qed.

Lemma wrap_small z : int_range z → wrap z = z.
Proof. int_solve. Qed.

Lemma wrap_idemp z : wrap (wrap z) = wrap z.
Proof. int_solve. Qed.

Lemma wrap_add_l a b : wrap (wrap a + b) = wrap (a + b).
Proof. int_solve. Qed.

Lemma wrap_add_r a b : wrap (a + wrap b) = wrap (a + b).
Proof. int_solve. Qed.

Lemma wrap_eq_iff a b : wrap a = wrap b ↔ (a - b) `mod` 4294967296 = 0.
Proof. int_solve. Qed.

Lemma wrap_congr a b q : a - b = 4294967296 * q → wrap a = wrap b.
Proof. int_solve. Qed.

Lemma wrap_quot z : ∃ q, wrap z = z + 4294967296 * q.
Proof. exists (- ((z + 2147483648) `div` 4294967296)). int_solve. Qed.

Lemma wrap_add a b : wrap (wrap a + wrap b) = wrap (a + b).
Proof. int_solve. Qed.

Lemma wrap_nat_small (n : nat) : Z.of_nat n ≤ int_max → wrap (Z.of_nat n) = Z.of_nat n.
Proof. int_solve. Qed.

Lemma int_succ_range a : int_range (int_succ a).
Proof. apply wrap_range. Qed.

Lemma int_succ_small a : int_min ≤ a < int_max → int_succ a = a + 1.
Proof. int_solve. Qed.

Lemma int_succ_max : int_succ int_max = int_min.
Proof. reflexivity. Qed.

Lemma int_add_range a b : int_range (int_add a b).
Proof. apply wrap_range. Qed.

Lemma int_add_small a b : int_range (a + b) → int_add a b = a + b.
Proof. apply wrap_small. Qed.

#[export] Hint Resolve wrap_range int_succ_range int_add_range : cxx.
#[export] Hint Rewrite wrap_idemp wrap_add_l wrap_add_r : cxx_rw.

(** ** Lemmas on sums and counts *)

Lemma sumZ_cons x l : sumZ (x :: l) = x + sumZ l.
Proof. reflexivity. Qed.

Lemma sumZ_app l1 l2 : sumZ (l1 ++ l2) = sumZ l1 + sumZ l2.
Proof. induction l1 as [|x l1 IH]; [done|]. rewrite <- app_comm_cons, !sumZ_cons. lia. Qed.

Lemma sumZ_nonneg l : Forall (λ x, 0 ≤ x) l → 0 ≤ sumZ l.
Proof. induction 1; rewrite ?sumZ_cons; [done|lia]. Qed.

Lemma sumZ_elem_le x l : Forall (λ y, 0 ≤ y) l → x ∈ l → x ≤ sumZ l.
Proof.
  induction 1 as [|y l Hy Hl IH]; [by intros ?%elem_of_nil|].
  pose proof (sumZ_nonneg l Hl).
  rewrite sumZ_cons. intros [->|Hin]%elem_of_cons; [lia|]. specialize (IH Hin). lia.
Qed.

Section occurrences.
Context {A : Type} `{EqDecision A}.
Implicit Types (x y : A) (l : list A).

Lemma occurrences_nil x : occurrences x [] = 0%nat.
Proof. reflexivity. Qed.

Lemma occurrences_cons x y l :
  occurrences x (y :: l) = ((if decide (x = y) then 1 else 0) + occurrences x l)%nat.
Proof. unfold occurrences. rewrite filter_cons. by case_decide. Qed.

Lemma occurrences_app x l1 l2 :
  occurrences x (l1 ++ l2) = (occurrences x l1 + occurrences x l2)%nat.
Proof. unfold occurrences. by rewrite filter_app, length_app. Qed.

Lemma occurrences_le_length x l : (occurrences x l ≤ length l)%nat.
Proof. apply length_filter. Qed.

Lemma occurrences_pos x l : (0 < occurrences x l)%nat ↔ x ∈ l.
Proof.
  induction l as [|y l IH]; [rewrite elem_of_nil, occurrences_nil; lia|].
  rewrite occurrences_cons, elem_of_cons. case_decide; [|rewrite <- IH]; intuition lia.
Qed.

End occurrences.

#[export] Hint Rewrite sumZ_cons sumZ_app : cxx_rw.
#[export] Hint Rewrite @occurrences_nil @occurrences_cons @occurrences_app : cxx_rw.
