(* ===== verification/StdMap.v ===== *)
(** * StdMap: the ordered map behind [Dictionary] and [Stats::sentence_len]

    [std::map<K,V>] as the source uses it: default construction, [insert] of
    a pair (which reports the position of the key and whether it was new),
    modification of the mapped value through the returned iterator, [size]
    and in-order iteration.  The container's state is the list of its
    elements in iteration order; an iterator is a position in that list.

    The key order is any strict total order given by stdpp's [Lexico] class
    with [StrictOrder] and [TrichotomyT] instances, so the same definitions
    serve [std::map<string,int>] and [std::map<int,int>].

    The contract is stated against stdpp's [gmap]: [smap_abs] maps the
    container to the finite map it represents, and each operation is shown to
    implement the corresponding [gmap] operation while it preserves the
    ordering invariant [smap_wf]. *)

From stdpp Require Import base tactics option list numbers lexico sorting gmap.
From S2P Require Import Prelude.

Local Open Scope Z_scope.

Section smap.
Context {K : Type} `{Lexico K, !StrictOrder (@lexico K _), !TrichotomyT (@lexico K _)}.
Context {V : Type}.
Implicit Types (k : K) (v : V) (m : list (K * V)) (f : V → V).

(** ** Operations *)

Definition smap_empty : list (K * V) := [].

(** What [insert] returns, [pair<iterator,bool>], beside the updated map. *)
Record insert_result := InsertResult {
  ins_map : list (K * V);
  ins_pos : nat;
  ins_new : bool
}.

(** [m.insert({k, v})]: the element is placed before the first greater key;
    an equal key leaves the map unchanged and is reported with [false]. *)
Fixpoint smap_insert k v m : insert_result :=
  match m with
  | [] => InsertResult [(k, v)] 0 true
  | (k', v') :: m' =>
      match trichotomyT lexico k k' with
      | inleft (left _) => InsertResult ((k, v) :: (k', v') :: m') 0 true
      | inleft (right _) => InsertResult ((k', v') :: m') 0 false
      | inright _ =>
          let r := smap_insert k v m' in
          InsertResult ((k', v') :: ins_map r) (S (ins_pos r)) (ins_new r)
      end
  end.

(** [it->second = f (it->second)] for the iterator at position [it]. *)
Definition smap_update_at f (it : nat) m : list (K * V) :=
  alter (λ kv, (kv.1, f kv.2)) it m.

(** [m.size()]. *)
Definition smap_size m : nat := length m.

(** ** Invariant and abstraction *)

(** Iteration visits the keys in strictly ascending order. *)
Definition smap_wf m : Prop := StronglySorted lexico (m.*1).

#[export] Instance smap_wf_dec m : Decision (smap_wf m).
Proof.
  unfold smap_wf.
  assert (∀ x y : K, Decision (lexico x y)) by
    (intros x y; destruct (trichotomyT lexico x y) as [[?|?]|?];
     [left|right|right]; [done|intros ?; simplify_eq; order_absurd|intros ?; order_absurd]).
  apply _.
Defined.

Context `{Countable K}.

(** The finite map a container represents. *)
Definition smap_abs m : gmap K V := list_to_map m.
#[local] Arguments smap_abs : simpl never.

(** ** Lemmas *)

Lemma smap_wf_nil : smap_wf smap_empty.
Proof. constructor. Qed.

Lemma smap_wf_cons k v m :
  smap_wf ((k, v) :: m) ↔ Forall (lexico k) (m.*1) ∧ smap_wf m.
Proof.
  unfold smap_wf. rewrite fmap_cons. split.
  - intros Hs. by inversion_clear Hs.
  - intros [??]. by constructor.
Qed.

Lemma smap_wf_NoDup m : smap_wf m → NoDup (m.*1).
Proof.
  unfold smap_wf. induction 1 as [|k ks _ IH Hk]; constructor; [|done].
  intros Hin. rewrite Forall_forall in Hk. specialize (Hk _ Hin). order_absurd.
Qed.

Lemma smap_wf_head_fresh k v m : smap_wf ((k, v) :: m) → smap_abs m !! k = None.
Proof.
  intros Hwf%smap_wf_NoDup. rewrite fmap_cons in Hwf. apply NoDup_cons in Hwf as [Hk _].
  by apply not_elem_of_list_to_map.
Qed.

Lemma smap_wf_below k k' v' m :
  lexico k k' → smap_wf ((k', v') :: m) → smap_abs ((k', v') :: m) !! k = None.
Proof.
  intros Hlt [Hall Hwf]%smap_wf_cons. apply not_elem_of_list_to_map.
  rewrite fmap_cons, not_elem_of_cons; simpl. split; [intros ->; order_absurd|].
  intros Hin. rewrite Forall_forall in Hall. specialize (Hall _ Hin). order_absurd.
Qed.

Lemma smap_abs_cons k v m : smap_abs ((k, v) :: m) = <[k:=v]> (smap_abs m).
Proof. reflexivity. Qed.

Lemma smap_abs_empty : smap_abs smap_empty = ∅.
Proof. reflexivity. Qed.

Lemma smap_abs_lookup k v m :
  smap_wf m → smap_abs m !! k = Some v ↔ (k, v) ∈ m.
Proof. intros Hwf%smap_wf_NoDup. symmetry. by apply elem_of_list_to_map. Qed.

Lemma smap_size_abs m : smap_wf m → size (smap_abs m) = smap_size m.
Proof. intros Hwf%smap_wf_NoDup. by apply map_size_list_to_map. Qed.

(** *** [insert] *)

Lemma smap_insert_keys k v m x :
  x ∈ (ins_map (smap_insert k v m)).*1 → x = k ∨ x ∈ m.*1.
Proof.
  induction m as [|[k' v'] m IH]; simpl.
  - rewrite list_elem_of_singleton. auto.
  - destruct (trichotomyT lexico k k') as [[?|?]|?]; simpl;
      rewrite ?elem_of_cons; intuition auto.
Qed.

Lemma smap_insert_wf k v m : smap_wf m → smap_wf (ins_map (smap_insert k v m)).
Proof.
  induction m as [|[k' v'] m IH]; simpl.
  - intros _. apply smap_wf_cons. by split; constructor.
  - intros Hwf. pose proof Hwf as [Hall Hm]%smap_wf_cons.
    destruct (trichotomyT lexico k k') as [[Hlt|?]|Hgt]; simpl; [|done|].
    + apply smap_wf_cons. split; [|done]. rewrite fmap_cons. constructor; [done|].
      eapply Forall_impl; [done|]. intros ??. by etrans.
    + apply smap_wf_cons. split; [|auto]. apply Forall_forall.
      intros x [->|Hx]%smap_insert_keys; [done|]. by eapply Forall_forall.
Qed.

Lemma smap_insert_abs k v m :
  smap_abs (ins_map (smap_insert k v m)) =
  if ins_new (smap_insert k v m) then <[k:=v]> (smap_abs m) else smap_abs m.
Proof.
  induction m as [|[k' v'] m IH]; [done|]. simpl.
  destruct (trichotomyT lexico k k') as [[?|?]|Hgt]; simpl; [done..|].
  rewrite !smap_abs_cons, IH. destruct (ins_new _); [|done].
  apply insert_insert_ne. intros ->. order_absurd.
Qed.

Lemma smap_insert_new k v m :
  smap_wf m → ins_new (smap_insert k v m) = bool_decide (smap_abs m !! k = None).
Proof.
  induction m as [|[k' v'] m IH]; [done|]. simpl. intros Hwf.
  destruct (trichotomyT lexico k k') as [[Hlt| ->]|Hgt]; simpl.
  - by rewrite bool_decide_eq_true_2 by by apply smap_wf_below.
  - rewrite smap_abs_cons, lookup_insert_eq. done.
  - rewrite smap_abs_cons, lookup_insert_ne by (intros ->; order_absurd).
    apply IH. by apply smap_wf_cons in Hwf as [_ ?].
Qed.

(** The returned iterator points at the key, with the value the map now
    holds for it: the old one if there was one, [v] otherwise. *)
Lemma smap_insert_pos k v m :
  smap_wf m →
  ins_map (smap_insert k v m) !! ins_pos (smap_insert k v m)
  = Some (k, default v (smap_abs m !! k)).
Proof.
  induction m as [|[k' v'] m IH]; [done|]. simpl. intros Hwf.
  destruct (trichotomyT lexico k k') as [[Hlt| ->]|Hgt]; simpl.
  - by rewrite smap_wf_below.
  - by rewrite smap_abs_cons, lookup_insert_eq.
  - rewrite smap_abs_cons, lookup_insert_ne by (intros ->; order_absurd).
    apply IH. by apply smap_wf_cons in Hwf as [_ ?].
Qed.

Lemma smap_insert_length k v m :
  smap_size (ins_map (smap_insert k v m))
  = (smap_size m + if ins_new (smap_insert k v m) then 1 else 0)%nat.
Proof.
  unfold smap_size. induction m as [|[k' v'] m IH]; [done|]. simpl.
  destruct (trichotomyT lexico k k') as [[?|?]|?]; simpl; [lia..|].
  rewrite IH. lia.
Qed.

Lemma smap_insert_Forall (P : K * V → Prop) k v m :
  P (k, v) → Forall P m → Forall P (ins_map (smap_insert k v m)).
Proof.
  intros Hkv. induction 1 as [|[k' v'] m Hx Hm IH]; simpl; [by repeat constructor|].
  destruct (trichotomyT lexico k k') as [[?|?]|?]; simpl; by repeat constructor.
Qed.

Lemma smap_insert_old k v m :
  ins_new (smap_insert k v m) = false → ins_map (smap_insert k v m) = m.
Proof.
  induction m as [|[k' v'] m IH]; simpl; [done|].
  destruct (trichotomyT lexico k k') as [[?|?]|?]; simpl; [done..|].
  intros Hnew. by rewrite IH.
Qed.

(** *** Update through an iterator *)

Lemma smap_update_at_Forall (P : K * V → Prop) f it m :
  (∀ k v, P (k, v) → P (k, f v)) → Forall P m → Forall P (smap_update_at f it m).
Proof.
  intros Hf Hm. unfold smap_update_at. apply Forall_alter; [done|].
  intros [k v] _ ?. by apply Hf.
Qed.

Lemma smap_update_at_keys f it m : (smap_update_at f it m).*1 = m.*1.
Proof.
  unfold smap_update_at. revert it.
  induction m as [|[k v] m IH]; intros [|it]; csimpl; by rewrite ?IH.
Qed.

Lemma smap_update_at_wf f it m : smap_wf m → smap_wf (smap_update_at f it m).
Proof. unfold smap_wf. by rewrite smap_update_at_keys. Qed.

Lemma smap_update_at_length f it m : smap_size (smap_update_at f it m) = smap_size m.
Proof. apply length_alter. Qed.

Lemma smap_update_at_abs f it m k v :
  smap_wf m → m !! it = Some (k, v) →
  smap_abs (smap_update_at f it m) = <[k := f v]> (smap_abs m).
Proof.
  unfold smap_update_at. revert it.
  induction m as [|[k' v'] m IH]; intros [|it] Hwf Hit; simplify_eq/=.
  - by rewrite !smap_abs_cons, insert_insert_eq.
  - pose proof Hwf as [Hall Hm]%smap_wf_cons.
    assert (k ∈ m.*1) as Hk.
    { apply list_elem_of_fmap. exists (k, v). split; [done|by eapply list_elem_of_lookup_2]. }
    rewrite Forall_forall in Hall. specialize (Hall _ Hk).
    rewrite !smap_abs_cons. erewrite IH by done. apply insert_insert_ne.
    intros ->. order_absurd.
Qed.

End smap.

Arguments insert_result : clear implicits.

(** The two key types of the program. *)
Abbreviation Dictionary := (list (cstring * Z)).
Abbreviation LengthTable := (list (Z * Z)).

(** ** Containers of counters *)

Section totals.
Context {K : Type} `{Lexico K, !StrictOrder (@lexico K _), !TrichotomyT (@lexico K _)}.
Implicit Types (k : K) (m : list (K * Z)) (w : K → Z).

(** The sum of the mapped values, each weighted by its key. *)
Definition smap_weighted w m : Z := sumZ ((λ kv, w kv.1 * kv.2) <$> m).

(** The plain sum of the mapped values. *)
Definition smap_total m : Z := smap_weighted (λ _, 1) m.

Lemma smap_weighted_cons w k v m :
  smap_weighted w ((k, v) :: m) = w k * v + smap_weighted w m.
Proof. reflexivity. Qed.

Lemma smap_total_values m : smap_total m = sumZ (m.*2).
Proof.
  unfold smap_total. induction m as [|[k v] m IH]; [done|].
  rewrite smap_weighted_cons, IH, fmap_cons, sumZ_cons. simpl. lia.
Qed.

Lemma smap_insert_weighted w k v m :
  smap_weighted w (ins_map (smap_insert k v m))
  = smap_weighted w m + if ins_new (smap_insert k v m) then w k * v else 0.
Proof.
  induction m as [|[k' v'] m IH]; simpl; [rewrite !smap_weighted_cons; lia|].
  destruct (trichotomyT lexico k k') as [[?|?]|?]; simpl;
    rewrite ?smap_weighted_cons; [lia..|].
  rewrite IH. lia.
Qed.

Lemma smap_update_at_weighted w f it m k v :
  m !! it = Some (k, v) →
  smap_weighted w (smap_update_at f it m) = smap_weighted w m + w k * (f v - v).
Proof.
  unfold smap_update_at. revert it.
  induction m as [|[k' v'] m IH]; intros [|it] Hit; cbn in Hit; simplify_eq;
    cbn [alter list_alter]; rewrite ?smap_weighted_cons; simpl; [lia|].
  erewrite IH by done. lia.
Qed.

Lemma smap_weighted_nonneg w m :
  Forall (λ kv, 0 ≤ w kv.1 * kv.2) m → 0 ≤ smap_weighted w m.
Proof.
  induction 1 as [|[k v] m Hkv _ IH]; [done|]. rewrite smap_weighted_cons. simpl in *. lia.
Qed.

End totals.
