(* ===== verification/CType.v ===== *)
(** * CType: character classification in the "C" locale

    [main] never calls [setlocale] (the call is commented out), so the
    classification functions of <cctype> that the program reaches, directly
    in [remove_predicate] and through the Boost tokenizer, are those of the
    "C" locale.  Each is a predicate on the byte value. *)

From Stdlib Require Import NArith Ascii.
From stdpp Require Import base tactics numbers list strings.
From S2P Require Import Prelude.

Local Open Scope N_scope.

(** [lo <= code c <= hi] *)
Definition char_between (lo hi : N) (c : ascii) : bool :=
  (lo <=? char_code c) && (char_code c <=? hi).

(** Upper and lower case letters. *)
Definition isalpha (c : ascii) : bool :=
  char_between 65 90 c || char_between 97 122 c.

(** Space and horizontal tab. *)
Definition isblank (c : ascii) : bool :=
  (char_code c =? 32) || (char_code c =? 9).

(** Space, and the control characters from horizontal tab to carriage return. *)
Definition isspace (c : ascii) : bool :=
  (char_code c =? 32) || char_between 9 13 c.

(** The printable characters that are neither alphanumeric nor the space. *)
Definition ispunct (c : ascii) : bool :=
  char_between 33 47 c || char_between 58 64 c
  || char_between 91 96 c || char_between 123 126 c.

(** Decide a statement about every byte by running through the 256 values. *)
Ltac all_chars c := destruct c as [[] [] [] [] [] [] [] []]; vm_compute; try done.

Lemma isblank_isspace c : isblank c = true → isspace c = true.
Proof. all_chars c. Qed.

Lemma isalpha_not_isblank c : isalpha c = true → isblank c = false.
Proof. all_chars c. Qed.

Lemma isalpha_not_ispunct c : isalpha c = true → ispunct c = false.
Proof. all_chars c. Qed.

Lemma isalpha_not_isspace c : isalpha c = true → isspace c = false.
Proof. all_chars c. Qed.

Lemma ispunct_not_isspace c : ispunct c = true → isspace c = false.
Proof. all_chars c. Qed.

Lemma ispunct_ascii c : ispunct c = true → (char_code c < 128)%N.
Proof. all_chars c. Qed.

#[export] Hint Resolve isblank_isspace isalpha_not_isblank isalpha_not_ispunct
  isalpha_not_isspace ispunct_not_isspace : cxx.
