(* ===== verification/Tokenizer.v ===== *)
(** * Tokenizer: the Boost tokenizers as [main] and [fill_dictionary] use them

    A Boost tokenizer is a token function (the functor's call operator, which
    advances an iterator and produces one token) and the iteration over it.
    Both functors of the program are built without kept or returned
    delimiters and with the default policy of dropping empty tokens, so the
    token function has one parameter: which characters are delimiters.

    - [sentences]: [char_separator<char> sep(".?!;")] (main, line 204).
    - [words]: the default [char_delimiters_separator<char>] of
      [boost::tokenizer<>] (fill_dictionary, line 121), for which white space
      and punctuation are delimiters.

    [next_token] is the call operator: skip the delimiters, stop at the end
    of the input, otherwise collect up to the next delimiter.  [tokenize] is
    the iteration, on fuel; [split_ref] is a one-pass reference definition,
    and [tokenize_fuel_ref] shows that any fuel above the input's length
    yields it. *)

From Stdlib Require Import Ascii.
From stdpp Require Import base tactics option list numbers strings.
From S2P Require Import Prelude CType.

(** ** The token function and the iteration *)

Section tokenizer.
Variable delim : ascii → bool.
Implicit Types (c : ascii) (s t r cur : cstring).

(** The loop that advances [next] while it is not at the end and [p]
    holds of the character it points at. *)
Fixpoint skip (p : ascii → bool) s : cstring :=
  match s with
  | c :: s' => if p c then skip p s' else s
  | [] => []
  end.

(** The same loop with each character passed appended to [tok]: the token
    and the rest of the input. *)
Fixpoint collect (p : ascii → bool) s : cstring * cstring :=
  match s with
  | c :: s' => if p c then let '(t, r) := collect p s' in (c :: t, r) else ([], s)
  | [] => ([], [])
  end.

(** The call operator: [None] is the [false] it returns at the end of the
    input, [Some (tok, next)] the token and the advanced iterator. *)
Definition next_token s : option (cstring * cstring) :=
  match skip delim s with
  | [] => None
  | s1 => Some (collect (λ c, negb (delim c)) s1)
  end.

(** The iteration of [for (const auto &t : tok)], at most [n] tokens. *)
Fixpoint tokenize_fuel (n : nat) s : list cstring :=
  match n with
  | O => []
  | S n' =>
      match next_token s with
      | None => []
      | Some (t, r) => t :: tokenize_fuel n' r
      end
  end.

Definition tokenize s : list cstring := tokenize_fuel (S (length s)) s.

(** The iteration as the loop runs it, without fuel: it ends when the token
    function returns [false], and yields a token each time it returns one. *)
Inductive token_loop : cstring → list cstring → Prop :=
  | loop_end s : next_token s = None → token_loop s []
  | loop_token s t r ts :
      next_token s = Some (t, r) → token_loop r ts → token_loop s (t :: ts).

(** ** Reference definition: one pass with the current token accumulated *)

Definition flush cur : list cstring :=
  match cur with [] => [] | _ => [rev cur] end.

Fixpoint split_go cur s : list cstring :=
  match s with
  | [] => flush cur
  | c :: s' => if delim c then flush cur ++ split_go [] s' else split_go (c :: cur) s'
  end.

Definition split_ref s : list cstring := split_go [] s.

End tokenizer.

(** ** The two tokenizers of the program *)

(** [boost::char_separator<char> sep(".?!;")]: the dropped delimiters. *)
Definition sentence_delims : cstring := txt ".?!;".

Definition is_dropped (dropped : cstring) (c : ascii) : bool :=
  bool_decide (c ∈ dropped).

(** [tokenizer tok{the_text, sep}] and the iteration over it in [main]. *)
Definition sentences (the_text : cstring) : list cstring :=
  tokenize (is_dropped sentence_delims) the_text.

(** The delimiters of the default [char_delimiters_separator<char>]. *)
Definition word_delim (c : ascii) : bool := isspace c || ispunct c.

(** [boost::tokenizer<> tok{str}] and the iteration over it in
    [fill_dictionary]. *)
Definition words (str : cstring) : list cstring := tokenize word_delim str.

(** ** Lemmas on the two loops *)

Section tokenizer_lemmas.
Variable delim : ascii → bool.
Implicit Types (c : ascii) (s t r cur : cstring).

Local Abbreviation next_token := (next_token delim).
Local Abbreviation tokenize_fuel := (tokenize_fuel delim).
Local Abbreviation tokenize := (tokenize delim).
Local Abbreviation token_loop := (token_loop delim).
Local Abbreviation split_go := (split_go delim).
Local Abbreviation split_ref := (split_ref delim).

Lemma skip_length p s : length (skip p s) ≤ length s.
Proof. induction s as [|c s IH]; simpl; [done|]. destruct (p c); simpl; lia. Qed.

Lemma skip_head p c s r : skip p s = c :: r → p c = false.
Proof.
  induction s as [|c' s IH]; simpl; [done|].
  destruct (p c') eqn:Hc; [done|]. by intros [= -> _].
Qed.

Lemma skip_all p s : Forall (λ c, p c = true) s → skip p s = [].
Proof. induction 1 as [|c s Hc _ IH]; simpl; [done|]. by rewrite Hc. Qed.

Lemma skip_nil_all p s : skip p s = [] → Forall (λ c, p c = true) s.
Proof.
  induction s as [|c s IH]; simpl; [by constructor|].
  destruct (p c) eqn:Hc; [|done]. by constructor; auto.
Qed.

Lemma skip_app_all p d s : Forall (λ c, p c = true) d → skip p (d ++ s) = skip p s.
Proof. induction 1 as [|c d Hc _ IH]; simpl; [done|]. by rewrite Hc. Qed.

Lemma collect_app p s : (collect p s).1 ++ (collect p s).2 = s.
Proof.
  induction s as [|c s IH]; simpl; [done|]. destruct (p c); [|done].
  destruct (collect p s) as [t r]; simpl in *. by f_equal.
Qed.

Lemma collect_all p s : Forall (λ c, p c = true) (collect p s).1.
Proof.
  induction s as [|c s IH]; simpl; [by constructor|]. destruct (p c) eqn:Hc; [|by constructor].
  destruct (collect p s) as [t r]; simpl in *. by constructor.
Qed.

Lemma collect_rest p s c r : (collect p s).2 = c :: r → p c = false.
Proof.
  induction s as [|c' s IH]; simpl; [done|]. destruct (p c') eqn:Hc.
  - destruct (collect p s) as [t r']; simpl in *. done.
  - by intros [= -> _].
Qed.

Lemma collect_head p c s : p c = true → (collect p (c :: s)).1 ≠ [].
Proof. simpl. intros ->. by destruct (collect p s). Qed.

(** ** The token function *)

Lemma next_token_None s : next_token s = None ↔ Forall (λ c, delim c = true) s.
Proof.
  unfold next_token. split.
  - destruct (skip delim s) eqn:Hs; [|done]. intros _. by apply skip_nil_all.
  - intros Hall. by rewrite skip_all.
Qed.

(** A token is not empty, holds no delimiter, and is followed by a
    delimiter or by the end of the input; token and rest are shorter
    than the input. *)
Lemma next_token_Some s t r :
  next_token s = Some (t, r) →
  t ≠ [] ∧ Forall (λ c, delim c = false) t
  ∧ (∀ c r', r = c :: r' → delim c = true)
  ∧ length t + length r ≤ length s.
Proof.
  unfold next_token. destruct (skip delim s) as [|c s1] eqn:Hs; [done|].
  intros Hc%(inj Some). pose proof (skip_head _ _ _ _ Hs) as Hd.
  pose proof (collect_head (λ c, negb (delim c)) c s1) as Hne.
  pose proof (collect_all (λ c, negb (delim c)) (c :: s1)) as Hall.
  pose proof (collect_rest (λ c, negb (delim c)) (c :: s1)) as Hrest.
  pose proof (collect_app (λ c, negb (delim c)) (c :: s1)) as Happ.
  pose proof (skip_length delim s) as Hlen.
  rewrite Hc in Hne, Hall, Hrest, Happ. cbn [fst snd] in *. split_and!.
  - apply Hne. by rewrite Hd.
  - eapply Forall_impl; [exact Hall|]. intros c' Hc'. by apply negb_true_iff.
  - intros c' r' ->. apply negb_false_iff. by eapply Hrest.
  - rewrite Hs, <- Happ, length_app in Hlen. done.
Qed.

Lemma next_token_shorter s t r : next_token s = Some (t, r) → length r < length s.
Proof.
  intros (Hne & _ & _ & Hlen)%next_token_Some. destruct t; [done|]. simpl in *. lia.
Qed.

(** ** Lemmas on the reference definition *)

Lemma split_go_skip s : split_go [] (skip delim s) = split_go [] s.
Proof.
  induction s as [|c s IH]; simpl; [done|].
  destruct (delim c) eqn:Hc; simpl; [done|by rewrite Hc].
Qed.

Lemma split_go_collect cur s :
  split_go cur s =
  flush (rev (collect (λ c, negb (delim c)) s).1 ++ cur)
  ++ split_go [] (collect (λ c, negb (delim c)) s).2.
Proof.
  revert cur. induction s as [|c s IH]; intros cur; simpl.
  - by rewrite app_nil_r.
  - destruct (delim c) eqn:Hc; simpl; [by rewrite Hc|].
    rewrite IH. destruct (collect _ s) as [t r]; simpl. by rewrite <- app_assoc.
Qed.

Lemma split_go_app_delim cur a c b :
  delim c = true → split_go cur (a ++ c :: b) = split_go cur a ++ split_go [] b.
Proof.
  intros Hc. revert cur. induction a as [|x a IH]; intros cur; simpl.
  - by rewrite Hc.
  - destruct (delim x); [|done]. by rewrite IH, app_assoc.
Qed.

Lemma split_go_all_delims cur s :
  Forall (λ c, delim c = true) s → split_go cur s = flush cur.
Proof.
  intros Hall. revert cur. induction Hall as [|c s Hc _ IH]; intros cur; simpl; [done|].
  by rewrite Hc, IH, app_nil_r.
Qed.

Lemma split_go_no_delims cur s :
  Forall (λ c, delim c = false) s → split_go cur s = flush (rev s ++ cur).
Proof.
  intros Hall. revert cur. induction Hall as [|c s Hc _ IH]; intros cur; simpl; [done|].
  by rewrite Hc, IH, <- app_assoc.
Qed.

(** ** Fuel is enough: the iteration computes the reference *)

Lemma flush_rev t : t ≠ [] → flush (rev t) = [t].
Proof.
  intros Hne. unfold flush. rewrite rev_involutive. destruct (rev t) eqn:Hrev; [|done].
  apply (f_equal (@rev ascii)) in Hrev. by rewrite rev_involutive in Hrev.
Qed.

Lemma split_go_next_token s t r :
  next_token s = Some (t, r) → split_go [] s = t :: split_go [] r.
Proof.
  intros Hnext. pose proof (next_token_Some _ _ _ Hnext) as (Hne & _).
  unfold next_token in Hnext. rewrite <- split_go_skip.
  destruct (skip delim s) as [|c s1]; [done|]. apply (inj Some) in Hnext.
  rewrite split_go_collect, Hnext. cbn [fst snd]. by rewrite app_nil_r, flush_rev.
Qed.

Lemma tokenize_fuel_ref n s : length s < n → tokenize_fuel n s = split_ref s.
Proof.
  unfold split_ref. revert s. induction n as [|n IH]; intros s Hn; [lia|].
  cbn [tokenize_fuel]. destruct (next_token s) as [[t r]|] eqn:Hnext.
  - rewrite IH by (apply next_token_shorter in Hnext; lia).
    symmetry. by apply split_go_next_token.
  - apply next_token_None in Hnext. by rewrite split_go_all_delims.
Qed.

Lemma tokenize_ref s : tokenize s = split_ref s.
Proof. apply tokenize_fuel_ref. lia. Qed.

Lemma tokenize_fuel_enough n s : length s < n → tokenize_fuel n s = tokenize s.
Proof. intros. by rewrite tokenize_ref, tokenize_fuel_ref. Qed.

Lemma tokenize_unfold s :
  tokenize s =
  match next_token s with
  | None => []
  | Some (t, r) => t :: tokenize r
  end.
Proof.
  unfold tokenize at 1. simpl. destruct (next_token s) as [[t r]|] eqn:Hnext; [|done].
  apply next_token_shorter in Hnext. by rewrite tokenize_fuel_enough.
Qed.

(** ** What the tokens are *)

Lemma tokenize_nil : tokenize [] = [].
Proof. reflexivity. Qed.

Lemma tokenize_delim c s : delim c = true → tokenize (c :: s) = tokenize s.
Proof. intros Hc. rewrite !tokenize_ref. unfold split_ref. simpl. by rewrite Hc. Qed.

Lemma tokenize_all_delims s : Forall (λ c, delim c = true) s → tokenize s = [].
Proof. intros. rewrite tokenize_ref. by apply split_go_all_delims. Qed.

Lemma tokenize_app_delim a c b :
  delim c = true → tokenize (a ++ c :: b) = tokenize a ++ tokenize b.
Proof. intros. rewrite !tokenize_ref. by apply split_go_app_delim. Qed.

Lemma tokenize_token t :
  t ≠ [] → Forall (λ c, delim c = false) t → tokenize t = [t].
Proof.
  intros Hne Hall. rewrite tokenize_ref. unfold split_ref.
  by rewrite split_go_no_delims, app_nil_r, flush_rev.
Qed.

Lemma tokenize_tokens s :
  Forall (λ t, t ≠ [] ∧ Forall (λ c, delim c = false) t) (tokenize s).
Proof.
  induction s as [s IH] using (induction_ltof1 _ length). unfold ltof in IH.
  rewrite tokenize_unfold. destruct (next_token s) as [[t r]|] eqn:Hnext; [|by constructor].
  pose proof (next_token_shorter _ _ _ Hnext).
  apply next_token_Some in Hnext as (? & ? & _). constructor; auto.
Qed.

Lemma tokenize_concat s : concat (tokenize s) = filter (λ c, delim c = false) s.
Proof.
  rewrite tokenize_ref. unfold split_ref.
  enough (∀ cur, concat (split_go cur s) = rev cur ++ filter (λ c, delim c = false) s) as ->
    by done.
  induction s as [|c s IH]; intros cur; simpl.
  - rewrite app_nil_r. destruct cur; simpl; by rewrite ?app_nil_r.
  - rewrite filter_cons. destruct (delim c) eqn:Hc; simpl.
    + rewrite concat_app, IH. destruct cur; simpl; by rewrite ?app_nil_r.
    + rewrite IH. simpl. by rewrite <- app_assoc.
Qed.

Lemma tokenize_length s : length (tokenize s) ≤ length s.
Proof.
  induction s as [s IH] using (induction_ltof1 _ length). unfold ltof in IH.
  rewrite tokenize_unfold. destruct (next_token s) as [[t r]|] eqn:Hnext; simpl; [|lia].
  pose proof (next_token_shorter _ _ _ Hnext) as Hr. specialize (IH _ Hr). lia.
Qed.

(** ** The loop terminates, with the tokens [tokenize] computes *)

Lemma token_loop_tokenize s : token_loop s (tokenize s).
Proof.
  induction s as [s IH] using (induction_ltof1 _ length). unfold ltof in IH.
  rewrite tokenize_unfold. destruct (next_token s) as [[t r]|] eqn:Hnext.
  - eapply loop_token; [done|]. by eapply IH, next_token_shorter.
  - by apply loop_end.
Qed.

Lemma token_loop_unique s ts : token_loop s ts → ts = tokenize s.
Proof.
  induction 1 as [s Hnext|s t r ts Hnext _ IH]; rewrite tokenize_unfold, Hnext; [done|].
  by rewrite IH.
Qed.

End tokenizer_lemmas.

(** ** Refining a tokenization *)

(** If every delimiter of [d1] is a delimiter of [d2], then cutting the
    input with [d1] first and each piece with [d2] afterwards finds the
    tokens of [d2]. *)
Lemma tokenize_refine (d1 d2 : ascii → bool) (s : cstring) :
  (∀ c, d1 c = true → d2 c = true) →
  concat (tokenize d2 <$> tokenize d1 s) = tokenize d2 s.
Proof.
  intros Hsub. rewrite (tokenize_ref d1). unfold split_ref.
  enough (∀ cur, concat (tokenize d2 <$> split_go d1 cur s)
                 = tokenize d2 (rev cur ++ s)) as -> by done.
  induction s as [|c s IH]; intros cur; simpl.
  - rewrite app_nil_r. destruct cur; [done|]. simpl. by rewrite app_nil_r.
  - destruct (d1 c) eqn:Hc.
    + rewrite fmap_app, concat_app, IH. simpl.
      rewrite tokenize_app_delim by auto. f_equal.
      destruct cur; [done|]. simpl. by rewrite app_nil_r.
    + rewrite IH. simpl. by rewrite <- app_assoc.
Qed.

(** ** The two tokenizers of the program *)

Lemma sentence_delim_word_delim c :
  is_dropped sentence_delims c = true → word_delim c = true.
Proof.
  unfold is_dropped, sentence_delims. intros Hc%bool_decide_eq_true.
  vm_compute in Hc. repeat (apply elem_of_cons in Hc as [->|Hc]; [done|]).
  by apply elem_of_nil in Hc.
Qed.

Lemma is_dropped_spec dropped c : is_dropped dropped c = false ↔ c ∉ dropped.
Proof. unfold is_dropped. by rewrite bool_decide_eq_false. Qed.

Lemma word_delim_spec c : word_delim c = false ↔ isspace c = false ∧ ispunct c = false.
Proof. unfold word_delim. apply orb_false_iff. Qed.

(** The words of the sentences, in order, are the words of the text. *)
Lemma sentences_words the_text :
  concat (words <$> sentences the_text) = words the_text.
Proof. apply tokenize_refine, sentence_delim_word_delim. Qed.

Lemma length_elem_concat {A} (x : list A) (l : list (list A)) :
  x ∈ l → length x ≤ length (concat l).
Proof.
  induction 1 as [x l|x y l _ IH]; rewrite concat_cons, length_app; lia.
Qed.

Lemma sentences_words_bound the_text :
  Forall (λ s, length (words s) ≤ length (words the_text)) (sentences the_text).
Proof.
  apply Forall_forall. intros s Hs. rewrite <- (sentences_words the_text).
  apply length_elem_concat. by apply list_elem_of_fmap_2.
Qed.

(** ** Main results *)

(** C16.  The iteration over the word tokenizer terminates on every input:
    the loop, run without any bound, ends with the tokens [words] computes,
    and with no other list. *)
Theorem words_loop_total str :
  token_loop word_delim str (words str)
  ∧ ∀ ts, token_loop word_delim str ts → ts = words str.
Proof. split; [apply token_loop_tokenize|apply token_loop_unique]. Qed.

(** C17.  Every word the tokenizer of [fill_dictionary] yields is non-empty
    and free of white space and punctuation, and the words together are the
    characters of the input that are neither, in order. *)
Theorem words_wellformed str :
  Forall (λ t, t ≠ [] ∧ Forall (λ c, isspace c = false ∧ ispunct c = false) t)
         (words str)
  ∧ concat (words str) = filter (λ c, isspace c = false ∧ ispunct c = false) str.
Proof.
  split.
  - eapply Forall_impl; [apply tokenize_tokens|]. intros t [Hne Hall]. split; [done|].
    eapply Forall_impl; [exact Hall|]. intros c. apply word_delim_spec.
  - unfold words. rewrite tokenize_concat. apply list_filter_iff.
    intros c. apply word_delim_spec.
Qed.

(** C18.  Every sentence [main] passes to [fill_dictionary] is non-empty and
    holds none of the characters ".?!;", and the sentences together are the
    text without these characters. *)
Theorem sentences_wellformed the_text :
  Forall (λ s, s ≠ [] ∧ Forall (λ c, c ∉ sentence_delims) s) (sentences the_text)
  ∧ concat (sentences the_text) = filter (λ c, c ∉ sentence_delims) the_text.
Proof.
  split.
  - eapply Forall_impl; [apply tokenize_tokens|]. intros t [Hne Hall]. split; [done|].
    eapply Forall_impl; [exact Hall|]. intros c. apply is_dropped_spec.
  - unfold sentences. rewrite tokenize_concat. apply list_filter_iff.
    intros c. apply is_dropped_spec.
Qed.

(** C19.  The token iteration computes the one-pass reference split, for
    both tokenizers of the program and with any fuel above the length of
    the input. *)
Theorem tokenizers_reference n str :
  length str < n →
  tokenize_fuel word_delim n str = split_ref word_delim str
  ∧ tokenize_fuel (is_dropped sentence_delims) n str
    = split_ref (is_dropped sentence_delims) str
  ∧ words str = split_ref word_delim str
  ∧ sentences str = split_ref (is_dropped sentence_delims) str.
Proof.
  intros Hn. split_and!; first [by apply tokenize_ref|by apply tokenize_fuel_ref].
Qed.

Lemma tokenizers_reference_witness :
  tokenize_fuel word_delim 6 (txt "a, b.") = split_ref word_delim (txt "a, b.")
  ∧ tokenize_fuel (is_dropped sentence_delims) 6 (txt "a, b.")
    = split_ref (is_dropped sentence_delims) (txt "a, b.")
  ∧ words (txt "a, b.") = split_ref word_delim (txt "a, b.")
  ∧ sentences (txt "a, b.") = split_ref (is_dropped sentence_delims) (txt "a, b.").
Proof. apply tokenizers_reference. vm_compute. lia. Defined.

(** C40.  A word delimiter cuts the word list: the words of a string with a
    delimiter in it are the words before the delimiter followed by the words
    after it. *)
Theorem words_app_delim a c b :
  word_delim c = true → words (a ++ c :: b) = words a ++ words b.
Proof. apply tokenize_app_delim. Qed.

Lemma words_app_delim_witness :
  words (txt "to be" ++ "," %char :: txt "or not") = words (txt "to be") ++ words (txt "or not").
Proof. apply words_app_delim. reflexivity. Defined.
