(* ===== verification/Dictionary.v ===== *)
(** * Dictionary: word counting and the statistics of the text

    [fill_dictionary] (src/main.cpp, lines 118-144) counts the words of one
    sentence in the dictionary and records the sentence in the global
    [stats]; [main] (lines 203-215) runs it over every sentence of the text
    and then derives [unique_words_number] and [max_number].

    State: [Stats] is the global object [stats]; [state] pairs it with the
    dictionary that [main] owns and passes by reference.  Every [int] is a
    [Z] reduced by [wrap] where the source does arithmetic on it.

    Theorems: [count_key] implements the counter increment of a finite map
    ([count_key_abs]); the loops compute occurrence counts
    ([count_of_count_keys]); [state_inv] holds of every state reached from
    [state_init] as long as no single sentence has 2^31 words or more; and,
    for a text of at most [int_max] words, the statistics [analyse] leaves
    are the exact ones. *)

From Stdlib Require Import Ascii.
From stdpp Require Import base tactics option list numbers strings gmap.
From S2P Require Import Prelude StdMap CType Tokenizer.

Local Open Scope Z_scope.

(** ** Data *)

Record Stats := mkStats {
  words_number : Z;
  unique_words_number : Z;
  max_number : Z;
  sentence_len : list (Z * Z)
}.

(** The global [stats] before [main] runs: every member at its default. *)
Definition stats_init : Stats := mkStats 0 0 0 smap_empty.

Record state := mkState {
  dictionary : list (cstring * Z);
  stats : Stats
}.

Definition state_init : state := mkState smap_empty stats_init.

(** ** Operations *)

Section count.
Context {K : Type} `{Lexico K, !StrictOrder (@lexico K _), !TrichotomyT (@lexico K _)}.

(** [auto ret = m.insert({k,1}); if (ret.second == false) ret.first->second++;]
    as in the loop of [fill_dictionary] and again for [sentence_len]. *)
Definition count_key (k : K) (m : list (K * Z)) : list (K * Z) :=
  let ret := smap_insert k 1 m in
  if ins_new ret then ins_map ret
  else smap_update_at int_succ (ins_pos ret) (ins_map ret).

(** [count_key] for each key of a list in turn. *)
Definition count_keys (ks : list K) (m : list (K * Z)) : list (K * Z) :=
  foldl (λ m k, count_key k m) m ks.

End count.

(** The body of the loop over the tokens: the local counter and the
    dictionary after one more word. *)
Definition fill_step (acc : Z * list (cstring * Z)) (t : cstring)
    : Z * list (cstring * Z) :=
  (int_succ acc.1, count_key t acc.2).

(** The loop over the tokens of one sentence, from [number_of_words = 0]. *)
Definition fill_words (toks : list cstring) (d : list (cstring * Z))
    : Z * list (cstring * Z) :=
  foldl fill_step (0, d) toks.

(** The update of [stats] after the loop, guarded by [number_of_words > 0]. *)
Definition record_sentence (number_of_words : Z) (s : Stats) : Stats :=
  if bool_decide (0 < number_of_words) then
    mkStats (int_add (words_number s) number_of_words)
            (unique_words_number s)
            (max_number s)
            (count_key number_of_words (sentence_len s))
  else s.

Definition fill_dictionary (str : cstring) (st : state) : state :=
  let r := fill_words (words str) (dictionary st) in
  mkState r.2 (record_sentence r.1 (stats st)).

(** [for (const auto &t : tok) fill_dictionary(t, dictionary);] *)
Definition fill_sentences (sents : list cstring) (st : state) : state :=
  foldl (λ st t, fill_dictionary t st) st sents.

(** [for (pair : dictionary) max_number = std::max(max_number, pair.second);] *)
Definition max_count (d : list (cstring * Z)) (m0 : Z) : Z :=
  foldl (λ m p, Z.max m p.2) m0 d.

(** The statistics part of [main]: tokenize the text into sentences, fill
    the dictionary, then set [unique_words_number] (a [size_t] converted to
    [int]) and [max_number]. *)
Definition analyse (the_text : cstring) (st : state) : state :=
  let st1 := fill_sentences (sentences the_text) st in
  let d := dictionary st1 in
  let s1 := stats st1 in
  mkState d (mkStats (words_number s1)
                     (wrap (Z.of_nat (smap_size d)))
                     (max_count d (max_number s1))
                     (sentence_len s1)).

(** ** Specification vocabulary *)

(** The counter of a key after one more occurrence. *)
Definition bump (o : option Z) : Z := from_option int_succ 1 o.

(** The count a container of counters holds for a key, 0 when absent. *)
Definition count_of {K} `{Countable K} (k : K) (m : list (K * Z)) : Z :=
  default 0 (smap_abs m !! k).

(** The lengths, in words, of the sentences of a text that have words. *)
Definition sentence_lengths (the_text : cstring) : list Z :=
  filter (λ n, 0 < n) ((λ s, Z.of_nat (length (words s))) <$> sentences the_text).

(** The statistics of a text, counted on its words and sentences. *)
Definition text_stats (the_text : cstring) : Stats :=
  mkStats
    (Z.of_nat (length (words the_text)))
    (Z.of_nat (length (remove_dups (words the_text))))
    (Z.of_nat (max_list ((λ w, occurrences w (words the_text)) <$> words the_text)))
    (count_keys (sentence_lengths the_text) smap_empty).

(** A container of [int] counters: ordered keys, values of [int] range. *)
Definition counters_wf {K} `{Lexico K} (m : list (K * Z)) : Prop :=
  smap_wf m ∧ Forall (λ kv, int_range kv.2) m.

(** What holds of every state the program reaches: both containers are
    well formed, only sentences with words are recorded, and [words_number]
    is, as an [int], both the sum of the word counts and the sum of the
    sentence lengths. *)
Record state_inv (st : state) : Prop := StateInv {
  inv_dictionary : counters_wf (dictionary st);
  inv_sentence_len : counters_wf (sentence_len (stats st));
  inv_lengths_pos : Forall (λ kv, 0 < kv.1) (sentence_len (stats st));
  inv_words_dictionary :
    words_number (stats st) = wrap (smap_total (dictionary st));
  inv_words_sentences :
    words_number (stats st) = wrap (smap_weighted id (sentence_len (stats st)))
}.

(** The states the loop of [main] passes through: from the initial state,
    one call of [fill_dictionary] per sentence, each sentence of at most
    [int_max] words. *)
Inductive reachable : state → Prop :=
  | reach_init : reachable state_init
  | reach_fill str st :
      reachable st → Z.of_nat (length (words str)) ≤ int_max →
      reachable (fill_dictionary str st).

(** ** Counting keys *)

Section count_lemmas.
Context {K : Type} `{Lexico K, !StrictOrder (@lexico K _), !TrichotomyT (@lexico K _)}.
Context `{Countable K}.
Implicit Types (k : K) (ks : list K) (m : list (K * Z)) (w : K → Z).

Lemma bump_spec o : bump o = wrap (default 0 o + 1).
Proof. by destruct o. Qed.

Lemma bump_range o : int_range (bump o).
Proof. rewrite bump_spec. apply wrap_range. Qed.

Lemma counters_wf_nil : counters_wf (K:=K) smap_empty.
Proof. split; [apply smap_wf_nil|constructor]. Qed.

Lemma count_of_range k m : counters_wf m → int_range (count_of k m).
Proof.
  intros [Hwf Hr]. unfold count_of. destruct (smap_abs m !! k) as [c|] eqn:Hc; [|done].
  apply smap_abs_lookup in Hc; [|done]. rewrite Forall_forall in Hr. apply (Hr _ Hc).
Qed.

Lemma count_key_wf k m : smap_wf m → smap_wf (count_key k m).
Proof.
  intros Hwf. unfold count_key. destruct (ins_new _).
  - by apply smap_insert_wf.
  - by apply smap_update_at_wf, smap_insert_wf.
Qed.

Lemma count_key_range k m : counters_wf m → counters_wf (count_key k m).
Proof.
  intros [Hwf Hr]. split; [by apply count_key_wf|]. unfold count_key.
  destruct (ins_new _).
  - by apply smap_insert_Forall.
  - apply smap_update_at_Forall; [intros; apply int_succ_range|].
    by apply smap_insert_Forall.
Qed.

(** Not inserted: the map is unchanged and the iterator is at the old value. *)
Lemma count_key_old k m c :
  smap_wf m → smap_abs m !! k = Some c →
  count_key k m = smap_update_at int_succ (ins_pos (smap_insert k 1 m)) m
  ∧ m !! ins_pos (smap_insert k 1 m) = Some (k, c).
Proof.
  intros Hwf Hc. unfold count_key.
  pose proof (smap_insert_pos k 1 m Hwf) as Hpos.
  rewrite smap_insert_new, Hc in * by done. simpl in *.
  by rewrite smap_insert_old in * by by rewrite smap_insert_new, Hc.
Qed.

Lemma count_key_new k m :
  smap_wf m → smap_abs m !! k = None → count_key k m = ins_map (smap_insert k 1 m).
Proof. intros Hwf Hk. unfold count_key. by rewrite smap_insert_new, Hk. Qed.

Lemma count_key_abs k m :
  smap_wf m → smap_abs (count_key k m) = <[k := bump (smap_abs m !! k)]> (smap_abs m).
Proof.
  intros Hwf. destruct (smap_abs m !! k) as [c|] eqn:Hc.
  - destruct (count_key_old k m c) as [-> Hpos]; [done..|].
    by erewrite smap_update_at_abs.
  - rewrite count_key_new, smap_insert_abs, smap_insert_new, Hc by done. done.
Qed.

Lemma count_of_count_key k k' m :
  smap_wf m →
  count_of k' (count_key k m)
  = if decide (k = k') then bump (smap_abs m !! k) else count_of k' m.
Proof.
  intros Hwf. unfold count_of. rewrite count_key_abs, lookup_insert by done.
  by case_decide.
Qed.

Lemma count_key_weighted w k m :
  smap_wf m →
  smap_weighted w (count_key k m)
  = smap_weighted w m + w k * (bump (smap_abs m !! k) - count_of k m).
Proof.
  intros Hwf. unfold count_of. destruct (smap_abs m !! k) as [c|] eqn:Hc.
  - destruct (count_key_old k m c) as [-> Hpos]; [done..|].
    by erewrite smap_update_at_weighted.
  - rewrite count_key_new, smap_insert_weighted, smap_insert_new, Hc by done.
    simpl. lia.
Qed.

Lemma count_key_weighted_wrap w k m :
  smap_wf m → wrap (smap_weighted w (count_key k m)) = wrap (smap_weighted w m + w k).
Proof.
  intros Hwf. rewrite count_key_weighted, bump_spec by done. unfold count_of.
  destruct (wrap_quot (default 0 (smap_abs m !! k) + 1)) as [q ->].
  apply wrap_congr with (q := w k * q). lia.
Qed.

(** *** A list of keys *)

Lemma count_keys_cons k ks m : count_keys (k :: ks) m = count_keys ks (count_key k m).
Proof. reflexivity. Qed.

Lemma count_keys_app ks1 ks2 m :
  count_keys (ks1 ++ ks2) m = count_keys ks2 (count_keys ks1 m).
Proof. apply foldl_app. Qed.

Lemma count_keys_range ks m : counters_wf m → counters_wf (count_keys ks m).
Proof.
  revert m. induction ks as [|k ks IH]; intros m Hm; [done|].
  rewrite count_keys_cons. by apply IH, count_key_range.
Qed.

(** The counter of [k] has advanced by the occurrences of [k], as an [int]. *)
Lemma count_of_count_keys k ks m :
  counters_wf m →
  count_of k (count_keys ks m) = wrap (count_of k m + Z.of_nat (occurrences k ks)).
Proof.
  revert m. induction ks as [|k' ks IH]; intros m Hm.
  - rewrite occurrences_nil, Z.add_0_r. symmetry. by apply wrap_small, count_of_range.
  - rewrite count_keys_cons, IH, count_of_count_key, occurrences_cons
      by (by apply count_key_range || apply Hm).
    case_decide as Hk; [subst k'|by rewrite decide_False by done].
    rewrite decide_True, bump_spec, wrap_add_l by done. unfold count_of. f_equal. lia.
Qed.

Lemma count_keys_dom ks m :
  counters_wf m →
  dom (smap_abs (count_keys ks m)) = list_to_set ks ∪ dom (smap_abs m).
Proof.
  revert m. induction ks as [|k ks IH]; intros m Hm.
  { cbn. by rewrite (left_id_L ∅ (∪)). }
  rewrite count_keys_cons, IH, count_key_abs by (by apply count_key_range || apply Hm).
  rewrite dom_insert_L. cbn [list_to_set].
  by rewrite (assoc_L (∪)), (comm_L (∪) _ {[k]}).
Qed.

Lemma count_keys_weighted_wrap w ks m :
  counters_wf m →
  wrap (smap_weighted w (count_keys ks m))
  = wrap (smap_weighted w m + sumZ (w <$> ks)).
Proof.
  revert m. induction ks as [|k ks IH]; intros m Hm.
  - by rewrite Z.add_0_r.
  - rewrite count_keys_cons, IH by by apply count_key_range.
    rewrite <- wrap_add_l, count_key_weighted_wrap, wrap_add_l by apply Hm.
    rewrite fmap_cons, sumZ_cons. f_equal. lia.
Qed.

(** *** Counting from the empty container, without overflow *)

Lemma count_of_empty k : count_of k (smap_empty (K:=K)) = 0.
Proof. reflexivity. Qed.

Lemma count_keys_exact k ks :
  Z.of_nat (length ks) ≤ int_max →
  count_of k (count_keys ks smap_empty) = Z.of_nat (occurrences k ks).
Proof.
  intros Hlen. rewrite count_of_count_keys, count_of_empty by apply counters_wf_nil.
  pose proof (occurrences_le_length k ks). apply wrap_small. unfold_int. lia.
Qed.

Lemma count_keys_elem_of k c ks :
  Z.of_nat (length ks) ≤ int_max →
  (k, c) ∈ count_keys ks smap_empty ↔ k ∈ ks ∧ c = Z.of_nat (occurrences k ks).
Proof.
  intros Hlen. pose proof (count_keys_range ks _ counters_wf_nil) as [Hwf _].
  pose proof (count_keys_exact k ks Hlen) as Hc. unfold count_of in Hc.
  pose proof (count_keys_dom ks _ counters_wf_nil) as Hdom.
  rewrite <- smap_abs_lookup by done. split.
  - intros Hk. rewrite Hk in Hc. split; [|done].
    apply (elem_of_dom_2 (D:=gset K)) in Hk. rewrite Hdom in Hk.
    apply elem_of_union in Hk as [Hk|Hk]; [by apply elem_of_list_to_set in Hk|].
    by rewrite smap_abs_empty, dom_empty_L in Hk.
  - intros [Hk ->]. assert (k ∈ dom (smap_abs (count_keys ks smap_empty))) as Hin.
    { rewrite Hdom. apply elem_of_union_l. by apply elem_of_list_to_set. }
    apply elem_of_dom in Hin as [c Hin]. rewrite Hin in Hc. by rewrite Hin, <- Hc.
Qed.

Lemma length_remove_dups ks : (length (remove_dups ks) ≤ length ks)%nat.
Proof.
  induction ks as [|k ks IH]; [done|]. simpl. case_decide; simpl; lia.
Qed.

Lemma count_keys_size ks :
  smap_size (count_keys ks smap_empty) = length (remove_dups ks).
Proof.
  pose proof (count_keys_range ks _ counters_wf_nil) as [Hwf _].
  rewrite <- smap_size_abs, <- (size_dom (D:=gset K)), count_keys_dom
    by (done || apply counters_wf_nil).
  rewrite <- (size_list_to_set (C:=gset K) (remove_dups ks)) by apply NoDup_remove_dups.
  f_equal. apply set_eq. intros x.
  rewrite elem_of_union, !elem_of_list_to_set, elem_of_remove_dups.
  rewrite smap_abs_empty, dom_empty_L, elem_of_empty. tauto.
Qed.

Lemma count_key_Forall (P : K * Z → Prop) k m :
  (∀ k v v', P (k, v) → P (k, v')) → P (k, 1) → Forall P m → Forall P (count_key k m).
Proof.
  intros Hkey Hk Hm. unfold count_key. destruct (ins_new _).
  - by apply smap_insert_Forall.
  - apply smap_update_at_Forall; [by eauto|]. by apply smap_insert_Forall.
Qed.

End count_lemmas.

(** ** The loop of [fill_dictionary] and the update of [stats] *)

Lemma sumZ_ones {A} (l : list A) : sumZ ((λ _, 1) <$> l) = Z.of_nat (length l).
Proof. induction l as [|x l IH]; [done|]. rewrite fmap_cons, sumZ_cons, IH. simpl. lia. Qed.

Lemma fill_loop n d toks :
  int_range n →
  foldl fill_step (n, d) toks
  = (wrap (n + Z.of_nat (length toks)), count_keys toks d).
Proof.
  revert n d. induction toks as [|t toks IH]; intros n d Hn.
  - cbn [foldl length]. by rewrite Nat2Z.inj_0, Z.add_0_r, wrap_small.
  - rewrite count_keys_cons, length_cons, Nat2Z.inj_succ. cbn [foldl].
    unfold fill_step at 2. cbn [fst snd]. rewrite IH by apply int_succ_range.
    unfold int_succ. rewrite wrap_add_l. do 2 f_equal. lia.
Qed.

Lemma fill_words_spec toks d :
  fill_words toks d = (wrap (Z.of_nat (length toks)), count_keys toks d).
Proof. unfold fill_words. by rewrite fill_loop. Qed.

Lemma record_sentence_none n s : n ≤ 0 → record_sentence n s = s.
Proof. intros. unfold record_sentence. by rewrite bool_decide_eq_false_2 by lia. Qed.

Lemma record_sentence_some n s :
  0 < n →
  record_sentence n s
  = mkStats (int_add (words_number s) n) (unique_words_number s) (max_number s)
            (count_key n (sentence_len s)).
Proof. intros. unfold record_sentence. by rewrite bool_decide_eq_true_2 by lia. Qed.

Lemma fill_dictionary_dictionary str st :
  dictionary (fill_dictionary str st) = count_keys (words str) (dictionary st).
Proof. unfold fill_dictionary. by rewrite fill_words_spec. Qed.

Lemma fill_dictionary_stats str st :
  stats (fill_dictionary str st)
  = record_sentence (wrap (Z.of_nat (length (words str)))) (stats st).
Proof. unfold fill_dictionary. by rewrite fill_words_spec. Qed.

(** A sentence without words leaves the whole state as it is. *)
Lemma fill_dictionary_no_words str st : words str = [] → fill_dictionary str st = st.
Proof.
  intros Hw. destruct st as [d s]. unfold fill_dictionary. rewrite fill_words_spec, Hw.
  by rewrite record_sentence_none.
Qed.

Lemma state_inv_init : state_inv state_init.
Proof. split; simpl; try done; try apply counters_wf_nil. Qed.

Lemma fill_sentences_cons s sents st :
  fill_sentences (s :: sents) st = fill_sentences sents (fill_dictionary s st).
Proof. reflexivity. Qed.

Lemma fill_sentences_dictionary sents st :
  dictionary (fill_sentences sents st)
  = count_keys (concat (words <$> sents)) (dictionary st).
Proof.
  revert st. induction sents as [|s sents IH]; intros st; [done|].
  rewrite fill_sentences_cons, IH, fill_dictionary_dictionary.
  by rewrite fmap_cons, concat_cons, count_keys_app.
Qed.

(** ** The invariant *)

Lemma record_sentence_inv n d s :
  0 ≤ n → int_range n →
  state_inv (mkState d s) →
  ∀ d', counters_wf d' → wrap (smap_total d') = wrap (smap_total d + n) →
  state_inv (mkState d' (record_sentence n s)).
Proof.
  intros Hn Hr [Hd Hs Hpos Hwd Hws] d' Hd' Htot. simpl in *.
  destruct (decide (n = 0)) as [->|Hn0].
  - rewrite record_sentence_none by done. split; simpl; try done.
    by rewrite Htot, Z.add_0_r.
  - rewrite record_sentence_some by lia. split; simpl; try done.
    + by apply count_key_range.
    + apply (count_key_Forall (λ kv, 0 < kv.1)); [done|simpl; lia|done].
    + unfold int_add. by rewrite Htot, Hwd, wrap_add_l.
    + unfold int_add. rewrite count_key_weighted_wrap by apply Hs.
      by rewrite Hws, wrap_add_l.
Qed.

Lemma fill_dictionary_state_inv str st :
  Z.of_nat (length (words str)) ≤ int_max →
  state_inv st → state_inv (fill_dictionary str st).
Proof.
  intros Hlen Hinv. destruct st as [d s]. unfold fill_dictionary.
  rewrite fill_words_spec, wrap_nat_small by done. simpl.
  apply (record_sentence_inv _ d); [lia|unfold_int; lia|done|..].
  - by apply count_keys_range, Hinv.
  - unfold smap_total. rewrite count_keys_weighted_wrap by apply Hinv.
    by rewrite sumZ_ones.
Qed.

Lemma fill_sentences_state_inv sents st :
  Forall (λ s, Z.of_nat (length (words s)) ≤ int_max) sents →
  state_inv st → state_inv (fill_sentences sents st).
Proof.
  intros Hall. revert st. induction Hall as [|s sents Hs _ IH]; intros st Hinv; [done|].
  rewrite fill_sentences_cons. by apply IH, fill_dictionary_state_inv.
Qed.

(** ** The whole text *)

Lemma analyse_dictionary the_text st :
  dictionary (analyse the_text st) = count_keys (words the_text) (dictionary st).
Proof. unfold analyse. simpl. by rewrite fill_sentences_dictionary, sentences_words. Qed.

(** *** Sentence lengths *)

Lemma sumZ_lengths {A} (ls : list (list A)) :
  sumZ ((λ l, Z.of_nat (length l)) <$> ls) = Z.of_nat (length (concat ls)).
Proof.
  induction ls as [|l ls IH]; [done|].
  rewrite fmap_cons, sumZ_cons, IH, concat_cons, length_app. lia.
Qed.

Lemma sumZ_filter_pos (l : list Z) :
  Forall (λ n, 0 ≤ n) l → sumZ (filter (λ n, 0 < n) l) = sumZ l.
Proof.
  induction 1 as [|n l Hn _ IH]; [done|]. rewrite filter_cons, sumZ_cons.
  case_decide; rewrite ?sumZ_cons; lia.
Qed.

Lemma length_le_sumZ (l : list Z) : Forall (λ n, 0 < n) l → Z.of_nat (length l) ≤ sumZ l.
Proof. induction 1; rewrite ?length_cons, ?sumZ_cons; simpl; lia. Qed.

Lemma occurrences_filter {A} `{EqDecision A} (P : A → Prop) `{∀ x, Decision (P x)}
    (x : A) (l : list A) :
  P x → occurrences x (filter P l) = occurrences x l.
Proof.
  intros Hx. induction l as [|y l IH]; [done|]. rewrite filter_cons.
  case_decide; rewrite ?occurrences_cons, IH; [done|].
  by rewrite decide_False by by intros ->.
Qed.

Lemma fill_sentences_sentence_len sents st :
  Forall (λ s, Z.of_nat (length (words s)) ≤ int_max) sents →
  sentence_len (stats (fill_sentences sents st))
  = count_keys (filter (λ n, 0 < n) ((λ s, Z.of_nat (length (words s))) <$> sents))
               (sentence_len (stats st)).
Proof.
  intros Hall. revert st. induction Hall as [|s sents Hs _ IH]; intros st; [done|].
  rewrite fill_sentences_cons, IH, fill_dictionary_stats, wrap_nat_small by done.
  rewrite fmap_cons, filter_cons. case_decide.
  - by rewrite record_sentence_some, count_keys_cons by done.
  - by rewrite record_sentence_none by lia.
Qed.

Lemma fill_sentences_text_inv the_text st :
  Z.of_nat (length (words the_text)) ≤ int_max →
  state_inv st → state_inv (fill_sentences (sentences the_text) st).
Proof.
  intros Hlen. apply fill_sentences_state_inv.
  eapply Forall_impl; [apply sentences_words_bound|]. simpl. lia.
Qed.

(** *** The largest count *)

Lemma max_count_spec d m0 :
  m0 ≤ max_count d m0
  ∧ Forall (λ kv, kv.2 ≤ max_count d m0) d
  ∧ (max_count d m0 = m0 ∨ ∃ kv, kv ∈ d ∧ kv.2 = max_count d m0).
Proof.
  unfold max_count. revert m0. induction d as [|[w c] d IH]; intros m0; simpl.
  - split_and!; [lia|constructor|by left].
  - destruct (IH (m0 `max` c)) as (Hle & Hall & Hex). split_and!; [lia| |].
    + constructor; [simpl; lia|done].
    + destruct Hex as [Hex|(kv & Hkv & Hex)].
      * destruct (Z.max_spec m0 c) as [[_ Hm]|[_ Hm]]; rewrite Hm in *;
          [right; exists (w, c); split; [left|by rewrite Hex]|by left].
      * right. exists kv. split; [by right|done].
Qed.

Lemma max_count_exact ws :
  Z.of_nat (length ws) ≤ int_max →
  max_count (count_keys ws smap_empty) 0
  = Z.of_nat (max_list ((λ w, occurrences w ws) <$> ws)).
Proof.
  intros Hlen. destruct (max_count_spec (count_keys ws smap_empty) 0) as (H0 & Hall & Hex).
  rewrite Forall_forall in Hall. apply Z.le_antisymm.
  - destruct Hex as [->|([w c] & Hin & <-)]; [lia|].
    apply count_keys_elem_of in Hin as [Hw ->]; [|done]. simpl.
    apply inj_le, max_list_elem_of_le, list_elem_of_fmap. eauto.
  - destruct ws as [|w0 ws']; [done|]. set (ws := w0 :: ws') in *.
    assert (max_list ((λ w, occurrences w ws) <$> ws) ∈ (λ w, occurrences w ws) <$> ws)
      as (w & -> & Hw)%list_elem_of_fmap by by apply max_list_elem_of.
    apply (Hall (w, Z.of_nat (occurrences w ws))). by apply count_keys_elem_of.
Qed.

(** *** The members [main] sets after the loop *)

Lemma record_sentence_keeps n s :
  unique_words_number (record_sentence n s) = unique_words_number s
  ∧ max_number (record_sentence n s) = max_number s.
Proof. unfold record_sentence. by case_bool_decide. Qed.

Lemma fill_sentences_keeps sents st :
  unique_words_number (stats (fill_sentences sents st)) = unique_words_number (stats st)
  ∧ max_number (stats (fill_sentences sents st)) = max_number (stats st).
Proof.
  revert st. induction sents as [|s sents IH]; intros st; [done|].
  rewrite fill_sentences_cons. destruct (IH (fill_dictionary s st)) as [-> ->].
  rewrite fill_dictionary_stats. apply record_sentence_keeps.
Qed.

Lemma analyse_stats the_text :
  stats (analyse the_text state_init)
  = mkStats
      (words_number (stats (fill_sentences (sentences the_text) state_init)))
      (wrap (Z.of_nat (smap_size (count_keys (words the_text) smap_empty))))
      (max_count (count_keys (words the_text) smap_empty) 0)
      (sentence_len (stats (fill_sentences (sentences the_text) state_init))).
Proof.
  unfold analyse. cbn [stats]. rewrite fill_sentences_dictionary, sentences_words.
  by destruct (fill_sentences_keeps (sentences the_text) state_init) as [_ ->].
Qed.

Lemma sentences_bounded the_text :
  Z.of_nat (length (words the_text)) ≤ int_max →
  Forall (λ s, Z.of_nat (length (words s)) ≤ int_max) (sentences the_text).
Proof.
  intros Hlen. eapply Forall_impl; [apply sentences_words_bound|]. simpl. lia.
Qed.

(** The sentences with words are at most as many as the words. *)
Lemma positive_lengths_bound the_text :
  Z.of_nat (length (filter (λ n, 0 < n)
    ((λ s, Z.of_nat (length (words s))) <$> sentences the_text)))
  ≤ Z.of_nat (length (words the_text)).
Proof.
  rewrite <- (sentences_words the_text), <- sumZ_lengths, <- list_fmap_compose.
  rewrite <- (sumZ_filter_pos ((λ s, Z.of_nat (length (words s))) <$> sentences the_text)).
  - apply length_le_sumZ, Forall_forall. by intros n [? _]%list_elem_of_filter.
  - apply Forall_fmap, Forall_forall. intros s _. simpl. lia.
Qed.

Lemma fill_sentences_reachable sents st :
  Forall (λ s, Z.of_nat (length (words s)) ≤ int_max) sents →
  reachable st → reachable (fill_sentences sents st).
Proof.
  intros Hall. revert st. induction Hall as [|s sents Hs _ IH]; intros st Hst; [done|].
  rewrite fill_sentences_cons. apply IH. by constructor.
Qed.

(** The counts of a dictionary filled from [ws] add up to the length of [ws]. *)
Lemma count_keys_total (ws : list cstring) :
  Z.of_nat (length ws) ≤ int_max →
  wrap (smap_total (count_keys ws smap_empty)) = Z.of_nat (length ws).
Proof.
  intros Hlen. unfold smap_total.
  rewrite count_keys_weighted_wrap by apply counters_wf_nil.
  rewrite sumZ_ones. by apply wrap_nat_small.
Qed.

(** The words counted over the sentences are the words of the text. *)
Lemma fill_sentences_words_number the_text :
  Z.of_nat (length (words the_text)) ≤ int_max →
  words_number (stats (fill_sentences (sentences the_text) state_init))
  = Z.of_nat (length (words the_text)).
Proof.
  intros Hlen. destruct (fill_sentences_text_inv the_text _ Hlen state_inv_init)
    as [_ _ _ Hwd _].
  rewrite Hwd, fill_sentences_dictionary, sentences_words.
  by apply count_keys_total.
Qed.

(** The statistics of a text of at most [int_max] words, in closed form. *)
Lemma analyse_stats_exact the_text :
  Z.of_nat (length (words the_text)) ≤ int_max →
  stats (analyse the_text state_init) = text_stats the_text.
Proof.
  intros Hlen. unfold text_stats.
  rewrite analyse_stats, fill_sentences_words_number by done.
  rewrite count_keys_size, max_count_exact by done.
  rewrite fill_sentences_sentence_len by apply sentences_bounded, Hlen.
  f_equal. pose proof (length_remove_dups (words the_text)).
  apply wrap_nat_small. lia.
Qed.

(** ** Main results *)

(** C1.  After [main] has processed a text of at most [int_max] words from
    the initial state, the dictionary holds for every word exactly the number
    of its occurrences among the words of the text (and 0 for a string that
    is not a word of the text). *)
Theorem analyse_word_counts the_text w :
  Z.of_nat (length (words the_text)) ≤ int_max →
  count_of w (dictionary (analyse the_text state_init))
  = Z.of_nat (occurrences w (words the_text)).
Proof. intros Hlen. rewrite analyse_dictionary. by apply count_keys_exact. Qed.

Lemma analyse_word_counts_witness :
  count_of (txt "the") (dictionary (analyse (txt "the cat. the dog!") state_init))
  = Z.of_nat (occurrences (txt "the") (words (txt "the cat. the dog!"))).
Proof. apply analyse_word_counts. by vm_compute. Defined.

(** C2.  Every state the sentence loop of [main] reaches satisfies
    [state_inv]: dictionary and [sentence_len] are ordered containers of
    [int] counters, every recorded sentence length is positive, and
    [words_number], as an [int], equals both the sum of the word counts and
    the sum of length times number of sentences. *)
Theorem reachable_state_inv st : reachable st → state_inv st.
Proof.
  induction 1 as [|str st _ IH Hlen]; [apply state_inv_init|].
  by apply fill_dictionary_state_inv.
Qed.

Lemma reachable_state_inv_witness :
  state_inv (fill_dictionary (txt "a b a") state_init).
Proof.
  apply reachable_state_inv. apply reach_fill; [apply reach_init|by vm_compute].
Defined.

(** C3.  The insert-or-increment idiom of [fill_dictionary] implements a
    counter update of the finite map the container represents: the key is
    mapped to 1 if it was absent and to its old count plus one (as an [int])
    otherwise, no other key changes, and the container stays ordered with
    values of [int] range. *)
Theorem count_key_refines (k : cstring) (m : list (cstring * Z)) :
  counters_wf m →
  counters_wf (count_key k m)
  ∧ smap_abs (count_key k m) = <[k := bump (smap_abs m !! k)]> (smap_abs m).
Proof. intros Hm. split; [by apply count_key_range|by apply count_key_abs, Hm]. Qed.

Lemma count_key_refines_witness :
  counters_wf (count_key (txt "cat") [(txt "ant", 2); (txt "cat", 5)])
  ∧ smap_abs (count_key (txt "cat") [(txt "ant", 2); (txt "cat", 5)])
    = <[txt "cat" := bump (smap_abs [(txt "ant", 2); (txt "cat", 5)] !! txt "cat")]>
        (smap_abs [(txt "ant", 2); (txt "cat", 5)]).
Proof.
  apply count_key_refines. split; [by apply (bool_decide_unpack _)|].
  by repeat constructor.
Defined.

(** C4.  For a text of at most [int_max] words, [words_number] is the number
    of words of the text. *)
Theorem analyse_words_number the_text :
  Z.of_nat (length (words the_text)) ≤ int_max →
  words_number (stats (analyse the_text state_init))
  = Z.of_nat (length (words the_text)).
Proof.
  intros Hlen. rewrite analyse_stats. cbn [words_number].
  by apply fill_sentences_words_number.
Qed.

Lemma analyse_words_number_witness :
  words_number (stats (analyse (txt "the cat. the dog!") state_init))
  = Z.of_nat (length (words (txt "the cat. the dog!"))).
Proof. apply analyse_words_number. by vm_compute. Defined.

(** C5.  Splitting the text into sentences does not change the dictionary:
    filling it sentence by sentence gives the container that one call of
    [fill_dictionary] on the whole text gives, whatever the state before. *)
Theorem dictionary_sentence_independent the_text st :
  dictionary (fill_sentences (sentences the_text) st)
  = dictionary (fill_dictionary the_text st).
Proof.
  by rewrite fill_sentences_dictionary, fill_dictionary_dictionary, sentences_words.
Qed.

(** C6.  For a text of at most [int_max] words, [unique_words_number] is the
    number of distinct words of the text. *)
Theorem analyse_unique_words_number the_text :
  Z.of_nat (length (words the_text)) ≤ int_max →
  unique_words_number (stats (analyse the_text state_init))
  = Z.of_nat (length (remove_dups (words the_text))).
Proof.
  intros Hlen. rewrite analyse_stats. cbn [unique_words_number]. rewrite count_keys_size.
  pose proof (length_remove_dups (words the_text)). apply wrap_nat_small. lia.
Qed.

Lemma analyse_unique_words_number_witness :
  unique_words_number (stats (analyse (txt "the cat. the dog!") state_init))
  = Z.of_nat (length (remove_dups (words (txt "the cat. the dog!")))).
Proof. apply analyse_unique_words_number. by vm_compute. Defined.

(** C7.  For a text of at most [int_max] words, [max_number] is the largest
    number of occurrences of a word of the text (0 for a text without
    words). *)
Theorem analyse_max_number the_text :
  Z.of_nat (length (words the_text)) ≤ int_max →
  max_number (stats (analyse the_text state_init))
  = Z.of_nat (max_list ((λ w, occurrences w (words the_text)) <$> words the_text)).
Proof.
  intros Hlen. rewrite analyse_stats. cbn [max_number]. by apply max_count_exact.
Qed.

Lemma analyse_max_number_witness :
  max_number (stats (analyse (txt "the cat. the dog!") state_init))
  = Z.of_nat (max_list ((λ w, occurrences w (words (txt "the cat. the dog!")))
                        <$> words (txt "the cat. the dog!"))).
Proof. apply analyse_max_number. by vm_compute. Defined.

(** C8.  For a text of at most [int_max] words, [sentence_len] maps every
    positive length [n] to the number of sentences of the text that have
    exactly [n] words. *)
Theorem analyse_sentence_len the_text n :
  Z.of_nat (length (words the_text)) ≤ int_max → 0 < n →
  count_of n (sentence_len (stats (analyse the_text state_init)))
  = Z.of_nat (occurrences n ((λ s, Z.of_nat (length (words s))) <$> sentences the_text)).
Proof.
  intros Hlen Hn. rewrite analyse_stats. cbn [sentence_len].
  rewrite fill_sentences_sentence_len by apply sentences_bounded, Hlen.
  change (sentence_len (stats state_init)) with (smap_empty (K:=Z) (V:=Z)).
  rewrite count_of_count_keys by apply counters_wf_nil.
  rewrite occurrences_filter, count_of_empty by done. apply wrap_small.
  pose proof (occurrences_le_length n
    (filter (λ n, 0 < n) ((λ s, Z.of_nat (length (words s))) <$> sentences the_text))).
  pose proof (positive_lengths_bound the_text).
  rewrite occurrences_filter in * by done. unfold_int. lia.
Qed.

Lemma analyse_sentence_len_witness :
  count_of 2 (sentence_len (stats (analyse (txt "the cat. the dog!") state_init)))
  = Z.of_nat (occurrences 2 ((λ s, Z.of_nat (length (words s)))
                             <$> sentences (txt "the cat. the dog!"))).
Proof. apply analyse_sentence_len; by vm_compute. Defined.

(** C9.  The word counters are 32-bit: a word whose counter has reached
    [int_max] is counted down to [int_min] by its next occurrence. *)
Theorem count_key_wraps (k : cstring) (m : list (cstring * Z)) :
  counters_wf m → smap_abs m !! k = Some int_max →
  smap_abs (count_key k m) !! k = Some int_min.
Proof.
  intros [Hwf _] Hk. by rewrite count_key_abs, lookup_insert_eq, Hk.
Qed.

Lemma count_key_wraps_witness :
  smap_abs (count_key (txt "a") [(txt "a", int_max)]) !! txt "a" = Some int_min.
Proof.
  apply count_key_wraps; [|done]. split; [by apply (bool_decide_unpack _)|].
  by repeat constructor.
Defined.

(** C10.  A sentence in which the tokenizer finds no word (blanks and
    punctuation only) changes neither the dictionary nor the statistics:
    the guard [number_of_words > 0] keeps length 0 out of [sentence_len]. *)
Theorem fill_dictionary_blank_sentence str st :
  Forall (λ c, word_delim c = true) str → fill_dictionary str st = st.
Proof. intros Hall. apply fill_dictionary_no_words. by apply tokenize_all_delims. Qed.

Lemma fill_dictionary_blank_sentence_witness :
  fill_dictionary (txt " , -- ") state_init = state_init.
Proof. apply fill_dictionary_blank_sentence. by repeat constructor. Defined.

(** C20.  The loop of [fill_dictionary] on [int]s, without any bound: the
    local counter is the number of tokens reduced to 32 bits, and every
    word's count has advanced by its number of occurrences, reduced to 32
    bits. *)
Theorem fill_words_modular toks d w :
  counters_wf d →
  (fill_words toks d).1 = wrap (Z.of_nat (length toks))
  ∧ count_of w (fill_words toks d).2
    = wrap (count_of w d + Z.of_nat (occurrences w toks)).
Proof. intros Hd. rewrite fill_words_spec. split; [done|by apply count_of_count_keys]. Qed.

Lemma fill_words_modular_witness :
  (fill_words [txt "a"; txt "b"; txt "a"] [(txt "a", int_max)]).1
  = wrap (Z.of_nat (length [txt "a"; txt "b"; txt "a"]))
  ∧ count_of (txt "a") (fill_words [txt "a"; txt "b"; txt "a"] [(txt "a", int_max)]).2
    = wrap (count_of (txt "a") [(txt "a", int_max)]
            + Z.of_nat (occurrences (txt "a") [txt "a"; txt "b"; txt "a"])).
Proof.
  apply fill_words_modular. split; [by apply (bool_decide_unpack _)|].
  by repeat constructor.
Defined.

