(* ===== verification/World.v ===== *)
(** * World: streams, files and the ways a run of the program can end

    What the program touches outside its own memory: the characters written
    to [std::cout] and [std::cerr], and the files it opens by name.  A
    computation is a function from the world to an outcome and the world it
    leaves ([prog]); the outcome is a normal return, a call of [exit], or an
    exception nothing catches, on which the C++ runtime calls
    [std::terminate].  [prog] is a monad (stdpp's [MRet] and [MBind], with
    the notation [x ← m; k]); an [exit] or an uncaught exception skips the
    rest of the computation.

    [operator<<] on an [int] and on a [size_t] prints decimal digits, with a
    minus sign for a negative [int]: stdpp's [pretty]. *)

From Stdlib Require Import ZArith Lia Ascii String.
From stdpp Require Import base tactics option list numbers strings gmap pretty.
From S2P Require Import Prelude.

Local Open Scope Z_scope.

(** ** The world *)

Record world := World {
  files : gmap cstring cstring;   (* the files that can be opened for reading *)
  denied : gset cstring;          (* the names that cannot be opened for writing *)
  cout : cstring;                 (* the characters written to std::cout *)
  cerr : cstring                  (* the characters written to std::cerr *)
}.

Definition world_init (fs : gmap cstring cstring) : world := World fs ∅ [] [].

(** ** Outcomes and computations *)

Inductive outcome (A : Type) : Type :=
  | Ret (a : A)          (* the call returns *)
  | Exit (code : Z)      (* exit(code) was called *)
  | Abort.               (* an exception left main: std::terminate *)
Arguments Ret {A} a.
Arguments Exit {A} code.
Arguments Abort {A}.

Definition prog (A : Type) : Type := world → outcome A * world.

#[export] Instance prog_ret : MRet prog := λ A a w, (Ret a, w).

#[export] Instance prog_bind : MBind prog := λ A B k m w,
  match m w with
  | (Ret a, w') => k a w'
  | (Exit c, w') => (Exit c, w')
  | (Abort, w') => (Abort, w')
  end.

Definition exit {A} (code : Z) : prog A := λ w, (Exit code, w).
Definition terminate {A} : prog A := λ w, (Abort, w).

(** [if (b) { m }] *)
Definition when (b : bool) (m : prog ()) : prog () := if b then m else mret ().

(** A loop [for (const auto & x : xs) body(x)]. *)
Fixpoint for_each {A} (xs : list A) (body : A → prog ()) : prog () :=
  match xs with
  | [] => mret ()
  | x :: xs' => body x ;; for_each xs' body
  end.

(** The same loop with a local variable [s] that the body updates. *)
Fixpoint for_fold {A S} (xs : list A) (body : A → S → prog S) (s : S) : prog S :=
  match xs with
  | [] => mret s
  | x :: xs' => s' ← body x s; for_fold xs' body s'
  end.

(** The outcome and the final world of a run from [w]. *)
Definition run {A} (m : prog A) (w : world) : outcome A * world := m w.

(** ** Streams *)

(** The line feed; [std::endl] writes it and flushes. *)
Definition endl : cstring := ["010"%char].

Definition show_int (z : Z) : cstring := txt (pretty z).
Definition show_size (n : nat) : cstring := txt (pretty n).

Definition put (s : cstring) : prog () := λ w,
  (Ret (), World (files w) (denied w) (cout w ++ s) (cerr w)).

Definition put_err (s : cstring) : prog () := λ w,
  (Ret (), World (files w) (denied w) (cout w) (cerr w ++ s)).

(** ** Files *)

(** [std::ifstream ifs(name)]: the contents when the file opens.  The empty
    name never opens. *)
Definition ifstream_open (name : cstring) : prog (option cstring) := λ w,
  (Ret (if decide (name = []) then None else files w !! name), w).

(** [std::ofstream ofs(name)]: whether the file opens for writing; opening
    truncates it. *)
Definition ofstream_open (name : cstring) : prog bool := λ w,
  if decide (name = [] ∨ name ∈ denied w) then (Ret false, w)
  else (Ret true, World (<[name := []]> (files w)) (denied w) (cout w) (cerr w)).

(** Writing [s] to the open output file [name] and closing it. *)
Definition ofstream_write (name : cstring) (s : cstring) : prog () := λ w,
  (Ret (), World (alter (.++ s) name (files w)) (denied w) (cout w) (cerr w)).

(** ** What a computation leaves unchanged *)

(** The output of a run extends the output before it. *)
Definition extends (w w' : world) : Prop :=
  cout w `prefix_of` cout w' ∧ cerr w `prefix_of` cerr w'.

(** A computation that only writes to the streams. *)
Definition writes_only {A} (m : prog A) : Prop :=
  ∀ w, files (m w).2 = files w ∧ denied (m w).2 = denied w ∧ extends w (m w).2.

(** The world after [s] was written to [std::cout], to [std::cerr], and
    after the file [name] was written with contents [s]. *)
Definition with_out (s : cstring) (w : world) : world :=
  World (files w) (denied w) (cout w ++ s) (cerr w).

Definition with_err (s : cstring) (w : world) : world :=
  World (files w) (denied w) (cout w) (cerr w ++ s).

Definition with_file (name s : cstring) (w : world) : world :=
  World (<[name := s]> (files w)) (denied w) (cout w) (cerr w).

(** A computation that writes exactly [s] to [std::cout] and returns. *)
Definition prints {A} (m : prog A) (a : A) (s : cstring) : Prop :=
  ∀ w, m w = (Ret a, World (files w) (denied w) (cout w ++ s) (cerr w)).

(** A run from [w] that returns [a] and leaves [w']. *)
Definition runs {A} (m : prog A) (w : world) (a : A) (w' : world) : Prop :=
  m w = (Ret a, w').

(** A computation that leaves every file but [f] as it is, however it ends. *)
Definition keeps_files_but (f : cstring) {A} (m : prog A) : Prop :=
  ∀ w name, name ≠ f → files (m w).2 !! name = files w !! name.

(** ** Monad laws *)

Lemma prog_bind_ret_l {A B} (a : A) (k : A → prog B) w :
  (mret a ≫= k) w = k a w.
Proof. done. Qed.

Lemma prog_bind_ret_r {A} (m : prog A) w : (m ≫= mret) w = m w.
Proof. unfold mbind, prog_bind. by destruct (m w) as [[]]. Qed.

Lemma prog_bind_assoc {A B C} (m : prog A) (k : A → prog B) (h : B → prog C) w :
  ((m ≫= k) ≫= h) w = (m ≫= λ a, k a ≫= h) w.
Proof. unfold mbind, prog_bind. by destruct (m w) as [[]]. Qed.

Lemma prog_bind_Ret {A B} (m : prog A) (k : A → prog B) w a w' :
  m w = (Ret a, w') → (m ≫= k) w = k a w'.
Proof. unfold mbind, prog_bind. by intros ->. Qed.

Lemma prog_bind_Exit {A B} (m : prog A) (k : A → prog B) w c w' :
  m w = (Exit c, w') → (m ≫= k) w = (Exit c, w').
Proof. unfold mbind, prog_bind. by intros ->. Qed.

Lemma prog_bind_Abort {A B} (m : prog A) (k : A → prog B) w w' :
  m w = (Abort, w') → (m ≫= k) w = (Abort, w').
Proof. unfold mbind, prog_bind. by intros ->. Qed.

(** ** The [extends] order *)

#[export] Instance extends_preorder : PreOrder extends.
Proof.
  split.
  - by intros w.
  - intros w1 w2 w3 [??] [??]. split; by etrans.
Qed.

Lemma world_eta w : World (files w) (denied w) (cout w) (cerr w) = w.
Proof. by destruct w. Qed.

(** ** Printing *)

Lemma prints_put s : prints (put s) () s.
Proof. done. Qed.

Lemma prints_ret {A} (a : A) : prints (mret a) a [].
Proof. intros w. cbn. by rewrite app_nil_r, world_eta. Qed.

Lemma prints_bind {A B} (m : prog A) (k : A → prog B) a b s t :
  prints m a s → prints (k a) b t → prints (m ≫= k) b (s ++ t).
Proof.
  intros Hm Hk w. rewrite (prog_bind_Ret _ _ _ _ _ (Hm w)), Hk. cbn.
  by rewrite (assoc_L (++)).
Qed.

Lemma prints_when b m s :
  prints m () s → prints (when b m) () (if b then s else []).
Proof. destruct b; [done|]. intros _. apply prints_ret. Qed.

Lemma prints_for_each {A} (xs : list A) (body : A → prog ()) (f : A → cstring) :
  (∀ x, prints (body x) () (f x)) →
  prints (for_each xs body) () (concat (f <$> xs)).
Proof.
  intros Hb. induction xs as [|x xs IH]; [apply prints_ret|].
  cbn [for_each]. csimpl. by eapply prints_bind.
Qed.

Lemma prints_for_fold {A S} (xs : list A) (body : A → S → prog S)
    (g : S → A → S) (f : A → cstring) s :
  (∀ x s, prints (body x s) (g s x) (f x)) →
  prints (for_fold xs body s) (foldl g s xs) (concat (f <$> xs)).
Proof.
  intros Hb. revert s. induction xs as [|x xs IH]; intros s; [apply prints_ret|].
  cbn [for_fold foldl]. csimpl. by eapply prints_bind.
Qed.

Lemma prints_eq {A} (m : prog A) a s t : prints m a s → s = t → prints m a t.
Proof. by intros ? <-. Qed.

Lemma prints_writes_only {A} (m : prog A) a s : prints m a s → writes_only m.
Proof.
  intros Hm w. rewrite Hm. cbn. repeat split; [|done]. by apply prefix_app_r.
Qed.

Lemma prints_run {A} (m : prog A) a s w :
  prints m a s → (run m w).1 = Ret a ∧ cout (run m w).2 = cout w ++ s.
Proof. intros Hm. unfold run. by rewrite Hm. Qed.

(** ** Files *)

Lemma ifstream_open_empty w : (ifstream_open [] w).1 = Ret None.
Proof. done. Qed.

Lemma ifstream_open_Some name w :
  name ≠ [] → ifstream_open name w = (Ret (files w !! name), w).
Proof. intros. unfold ifstream_open. by rewrite decide_False. Qed.

Lemma ofstream_open_true name w :
  name ≠ [] → name ∉ denied w →
  ofstream_open name w =
    (Ret true, World (<[name := []]> (files w)) (denied w) (cout w) (cerr w)).
Proof. intros. unfold ofstream_open. rewrite decide_False; [done|tauto]. Qed.

Lemma ofstream_open_false name w :
  name = [] ∨ name ∈ denied w → ofstream_open name w = (Ret false, w).
Proof. intros. unfold ofstream_open. by rewrite decide_True. Qed.

(** What was written to a file that opened is what a later read finds. *)
Lemma ofstream_write_read name s w :
  name ≠ [] → name ∉ denied w →
  (ofstream_open name ;; ofstream_write name s ;; ifstream_open name) w =
    (Ret (Some s), World (<[name := s]> (files w)) (denied w) (cout w) (cerr w)).
Proof.
  intros Hn Hd. unfold mbind, prog_bind. rewrite ofstream_open_true by done.
  unfold ofstream_write, ifstream_open. cbn. rewrite decide_False by done.
  rewrite alter_insert_eq. cbn. by rewrite lookup_insert_eq.
Qed.

(** ** Runs *)

Lemma runs_ret {A} (a : A) w : runs (mret a) w a w.
Proof. done. Qed.

Lemma runs_bind {A B} (m : prog A) (k : A → prog B) w a w1 b w2 :
  runs m w a w1 → runs (k a) w1 b w2 → runs (m ≫= k) w b w2.
Proof. unfold runs. intros Hm Hk. by rewrite (prog_bind_Ret _ _ _ _ _ Hm). Qed.

Lemma runs_prints {A} (m : prog A) a s w : prints m a s → runs m w a (with_out s w).
Proof. intros Hm. apply Hm. Qed.

Lemma runs_eq {A} (m : prog A) w a w1 w2 : runs m w a w1 → w1 = w2 → runs m w a w2.
Proof. by intros ? <-. Qed.

Lemma with_out_app s t w : with_out t (with_out s w) = with_out (s ++ t) w.
Proof. unfold with_out. cbn. by rewrite (assoc_L (++)). Qed.

Lemma with_out_nil w : with_out [] w = w.
Proof. unfold with_out. by rewrite app_nil_r, world_eta. Qed.

Lemma with_err_nil w : with_err [] w = w.
Proof. unfold with_err. by rewrite app_nil_r, world_eta. Qed.

Lemma files_with_out s w : files (with_out s w) = files w.
Proof. done. Qed.

Lemma files_with_err s w : files (with_err s w) = files w.
Proof. done. Qed.

Lemma with_out_with_err s e w : with_out s (with_err e w) = with_err e (with_out s w).
Proof. done. Qed.

Lemma with_out_with_file s f e w :
  with_out s (with_file f e w) = with_file f e (with_out s w).
Proof. done. Qed.

Lemma with_file_lookup name s w : files (with_file name s w) !! name = Some s.
Proof. unfold with_file. cbn. apply lookup_insert_eq. Qed.

(** ** Files left alone *)

Section keeps.
Context (f : cstring) {A B : Type}.

Lemma keeps_bind (m : prog A) (k : A → prog B) :
  keeps_files_but f m → (∀ a, keeps_files_but f (k a)) → keeps_files_but f (m ≫= k).
Proof.
  intros Hm Hk w name Hn. specialize (Hm w name Hn).
  unfold mbind, prog_bind. destruct (m w) as [[a|c|] w1] eqn:E; cbn in *; try done.
  by rewrite (Hk a w1 name Hn).
Qed.

Lemma keeps_unchanged (m : prog A) :
  (∀ w, files (m w).2 = files w) → keeps_files_but f m.
Proof. intros Hm w name _. by rewrite Hm. Qed.

Lemma keeps_prints (m : prog A) a s : prints m a s → keeps_files_but f m.
Proof. intros Hm. apply keeps_unchanged. intros w. by rewrite Hm. Qed.
End keeps.

Lemma keeps_ofstream_open f : keeps_files_but f (ofstream_open f).
Proof.
  intros w name Hn. unfold ofstream_open. case_decide; [done|].
  cbn. by apply lookup_insert_ne.
Qed.

Lemma keeps_ofstream_write f s : keeps_files_but f (ofstream_write f s).
Proof. intros w name Hn. cbn. by apply lookup_alter_ne. Qed.

#[export] Hint Resolve prints_put prints_ret : cxx.
