(* ===== verification/Text.v ===== *)
(** * Text: [remove_predicate] and [clean_text] (src/main.cpp, lines 94-106)

    [clean_text] is the erase-remove idiom: [std::remove_if] moves the
    characters to keep to the front of the string and returns the new end,
    [erase] cuts the string there.  [remove_if] is modelled with its write
    position and the string it overwrites in place, and proved equal to a
    filter.  The predicate of the source is true of every character (no
    character is a letter, a blank and a full stop at once), so [clean_text]
    returns the empty string.  [main] does not call it: the call is inside
    a comment. *)

From Stdlib Require Import ZArith Lia Ascii String.
From stdpp Require Import base tactics option list numbers strings.
From S2P Require Import Prelude CType.

(** ** The predicate *)

(** [! (isalpha(c) && isblank(c) && (c == '.'))] *)
Definition remove_predicate (c : ascii) : bool :=
  negb (isalpha c && isblank c && bool_decide (c = "."%char)).

(** ** The erase-remove idiom *)

Section remove_if.
Variable p : ascii → bool.

(** The loop of [std::remove_if]: [pending] are the characters still to
    read, [arr] the string being overwritten, [first] the write position.
    A character that stays is assigned to [arr[first]]. *)
Fixpoint remove_if_loop (pending : cstring) (arr : cstring) (first : nat)
    : cstring * nat :=
  match pending with
  | [] => (arr, first)
  | c :: rest =>
      if p c then remove_if_loop rest arr first
      else remove_if_loop rest (<[first := c]> arr) (S first)
  end.

(** [std::remove_if(s.begin(), s.end(), p)]: the string after the call and
    the returned iterator, as a position. *)
Definition remove_if (s : cstring) : cstring * nat := remove_if_loop s s 0.

(** [s.erase(it, s.end())] *)
Definition erase_to_end (it : nat) (s : cstring) : cstring := take it s.

(** [s.erase(std::remove_if(s.begin(), s.end(), p), s.end())] *)
Definition erase_remove (s : cstring) : cstring :=
  let r := remove_if s in erase_to_end r.2 r.1.
End remove_if.

(** [clean_text]; the returned reference is the string itself. *)
Definition clean_text (str : cstring) : cstring :=
  erase_remove remove_predicate str.

(** ** [remove_if] is a filter *)

Section remove_if_lemmas.
Variable p : ascii → bool.
Implicit Types s kept pending : cstring.

Lemma insert_at_drop s kept c :
  length kept < length s →
  <[length kept := c]> (kept ++ drop (length kept) s)
  = (kept ++ [c]) ++ drop (length (kept ++ [c])) s.
Proof.
  intros Hlt. destruct (lookup_lt_is_Some_2 s (length kept) Hlt) as [x Hx].
  rewrite (drop_S _ _ _ Hx), insert_app_r_alt, Nat.sub_diag by done.
  rewrite length_app, Nat.add_1_r. cbn. by rewrite <- (assoc_L (++)).
Qed.

Lemma remove_if_loop_spec pending kept s :
  length kept + length pending ≤ length s →
  remove_if_loop p pending (kept ++ drop (length kept) s) (length kept)
  = let k := kept ++ filter (λ c, negb (p c)) pending in
    (k ++ drop (length k) s, length k).
Proof.
  revert kept. induction pending as [|c rest IH]; intros kept Hlen;
    cbn [remove_if_loop length] in *.
  { by rewrite filter_nil, app_nil_r. }
  rewrite filter_cons. destruct (p c) eqn:Hp; cbn [negb].
  all: rewrite ?decide_True, ?decide_False by (cbn; auto).
  - apply IH. lia.
  - rewrite insert_at_drop by lia.
    replace (S (length kept)) with (length (kept ++ [c]))
      by (rewrite length_app; cbn; lia).
    rewrite IH by (rewrite length_app; cbn; lia).
    cbn. by rewrite <- !(assoc_L (++)).
Qed.

Lemma remove_if_spec s :
  remove_if p s
  = let k := filter (λ c, negb (p c)) s in (k ++ drop (length k) s, length k).
Proof. apply (remove_if_loop_spec s [] s). cbn. lia. Qed.

Lemma remove_if_length s : length (remove_if p s).1 = length s.
Proof.
  rewrite remove_if_spec. cbn. rewrite length_app, length_drop.
  pose proof (length_filter (λ c, negb (p c)) s). lia.
Qed.

Lemma erase_remove_filter s :
  erase_remove p s = filter (λ c, negb (p c)) s.
Proof.
  unfold erase_remove, erase_to_end. rewrite remove_if_spec. cbn.
  by rewrite take_app_length.
Qed.

Lemma erase_remove_all s : (∀ c, p c = true) → erase_remove p s = [].
Proof.
  intros Hp. rewrite erase_remove_filter.
  induction s as [|c s IH]; [done|]. rewrite filter_cons, Hp. apply IH.
Qed.
End remove_if_lemmas.

(** ** The predicate of the source *)

Lemma remove_predicate_true c : remove_predicate c = true.
Proof.
  unfold remove_predicate. destruct (isalpha c) eqn:Ha; [|done].
  by rewrite (isalpha_not_isblank c Ha).
Qed.

(** C38.  The erase-remove idiom of [clean_text] is a filter, for every
    predicate and every string: [std::remove_if] overwrites the front of the
    string, in place, with the characters on which the predicate is false,
    in their order, leaves the rest of the string and its length as they
    were, and returns the position behind the characters kept; erasing from
    there to the end leaves exactly the characters kept. *)
Theorem erase_remove_spec (p : ascii → bool) (s : cstring) :
  let kept := filter (λ c, negb (p c)) s in
  remove_if p s = (kept ++ drop (length kept) s, length kept)
  ∧ length (remove_if p s).1 = length s
  ∧ erase_remove p s = kept.
Proof.
  split_and!; [apply remove_if_spec|apply remove_if_length|apply erase_remove_filter].
Qed.

(** C37. [clean_text] erases every string: no character is at once a
    letter, a blank and a full stop, so [remove_predicate] holds of all. *)
Theorem clean_text_empty str : clean_text str = [].
Proof. unfold clean_text. apply erase_remove_all, remove_predicate_true. Qed.
