(* ===== verification/Report.v ===== *)
(** * Report: [print_dictionary] and [print_stats] (src/main.cpp, lines
    108-116 and 146-163)

    Both functions only write to [std::cout].  Each is modelled as a
    computation over the world and proved to print a text given by a pure
    function of its argument ([dictionary_report], [stats_report]).  The
    totals they print are then related to each other and to the text that
    was analysed. *)

From Stdlib Require Import ZArith Lia Ascii String.
From stdpp Require Import base tactics option list numbers strings gmap pretty.
From S2P Require Import Prelude StdMap Tokenizer Dictionary World.

Local Open Scope Z_scope.

(** ** The functions *)

(** [print_dictionary]: one line per entry while [word_num] adds up the
    counts, then the two totals. *)
Definition print_dictionary (dictionary : list (cstring * Z)) : prog () :=
  word_num ← for_fold dictionary (λ p word_num,
      put (p.1 ++ txt " " ++ show_int p.2 ++ endl) ;;
      mret (int_add word_num p.2)) 0;
  put (txt "Unique words: " ++ show_size (smap_size dictionary) ++ endl) ;;
  put (txt "Total words: " ++ show_int word_num ++ endl).

(** [print_stats], on the global [stats]. *)
Definition print_stats (stats : Stats) : prog () :=
  put (txt "Statistics:" ++ endl
       ++ show_int (words_number stats)
       ++ txt ": Number of all words in the text" ++ endl
       ++ show_int (unique_words_number stats)
       ++ txt ": Number of unique words in the text" ++ endl
       ++ show_int (max_number stats)
       ++ txt ": Max number of one unique word found in the analysed text"
       ++ endl ++ endl
       ++ txt "Number of words in sentences depending of sentence length: <words : sentences>"
       ++ endl) ;;
  for_each (sentence_len stats) (λ t,
    put (show_int t.1 ++ txt " : " ++ show_int t.2 ++ endl)).

(** ** The texts they print *)

Definition dictionary_line (p : cstring * Z) : cstring :=
  p.1 ++ txt " " ++ show_int p.2 ++ endl.

Definition dictionary_report (d : list (cstring * Z)) : cstring :=
  concat (dictionary_line <$> d)
  ++ (txt "Unique words: " ++ show_size (length d) ++ endl)
  ++ (txt "Total words: " ++ show_int (wrap (smap_total d)) ++ endl).

Definition length_line (t : Z * Z) : cstring :=
  show_int t.1 ++ txt " : " ++ show_int t.2 ++ endl.

Definition stats_header (s : Stats) : cstring :=
  txt "Statistics:" ++ endl
  ++ show_int (words_number s)
  ++ txt ": Number of all words in the text" ++ endl
  ++ show_int (unique_words_number s)
  ++ txt ": Number of unique words in the text" ++ endl
  ++ show_int (max_number s)
  ++ txt ": Max number of one unique word found in the analysed text"
  ++ endl ++ endl
  ++ txt "Number of words in sentences depending of sentence length: <words : sentences>"
  ++ endl.

Definition stats_report (s : Stats) : cstring :=
  stats_header s ++ concat (length_line <$> sentence_len s).

(** The number of line feeds of a text. *)
Definition line_count (s : cstring) : nat := occurrences "010"%char s.

(** ** Decimal printing *)

Lemma show_int_inj a b : show_int a = show_int b → a = b.
Proof.
  unfold show_int, txt. intros H.
  apply (inj pretty). by rewrite <- (string_of_list_ascii_of_string (pretty a)),
    <- (string_of_list_ascii_of_string (pretty b)), H.
Qed.

Lemma show_size_inj a b : show_size a = show_size b → a = b.
Proof.
  unfold show_size, txt. intros H.
  apply (inj pretty). by rewrite <- (string_of_list_ascii_of_string (pretty a)),
    <- (string_of_list_ascii_of_string (pretty b)), H.
Qed.

(** ** The running total of [print_dictionary] *)

Lemma word_num_loop (d : list (cstring * Z)) acc :
  foldl (λ word_num p, int_add word_num p.2) (wrap acc) d
  = wrap (acc + smap_total d).
Proof.
  revert acc. induction d as [|[k v] d IH]; intros acc.
  { cbn. f_equal. unfold smap_total, smap_weighted. cbn. lia. }
  cbn [foldl snd]. unfold int_add at 2. rewrite wrap_add_l, IH.
  f_equal. unfold smap_total. rewrite smap_weighted_cons. cbn. lia.
Qed.

Lemma word_num_total (d : list (cstring * Z)) :
  foldl (λ word_num p, int_add word_num p.2) 0 d = wrap (smap_total d).
Proof. apply (word_num_loop d 0). Qed.

(** ** What the functions print *)

Lemma print_dictionary_prints d :
  prints (print_dictionary d) () (dictionary_report d).
Proof.
  unfold print_dictionary, dictionary_report.
  eapply prints_bind.
  { apply (prints_for_fold d _ (λ word_num p, int_add word_num p.2) dictionary_line).
    intros p s. eapply prints_eq.
    - eapply prints_bind; [apply prints_put|apply prints_ret].
    - by rewrite app_nil_r. }
  rewrite word_num_total.
  eapply prints_bind; apply prints_put.
Qed.

Lemma print_stats_prints s : prints (print_stats s) () (stats_report s).
Proof.
  unfold print_stats, stats_report. eapply prints_bind; [apply prints_put|].
  by apply prints_for_each.
Qed.

Lemma line_count_app s t : line_count (s ++ t) = (line_count s + line_count t)%nat.
Proof. apply occurrences_app. Qed.

Lemma line_count_lines {A} (f : A → cstring) (l : list A) :
  (∀ x, line_count (f x) = 1%nat) →
  line_count (concat (f <$> l)) = length l.
Proof.
  intros Hf. induction l as [|x l IH]; [done|].
  csimpl. by rewrite line_count_app, Hf, IH.
Qed.

#[export] Hint Resolve print_dictionary_prints print_stats_prints : cxx.

(** ** Main results *)

(** C35.  On the dictionary of a text of at most [int_max] words,
    [print_dictionary] writes one line per entry, in the order of the keys,
    and then the true totals: the number of distinct words of the text
    after "Unique words: " and the number of its words after
    "Total words: ".  It writes nothing else and returns. *)
Theorem print_dictionary_analyse the_text :
  Z.of_nat (length (words the_text)) ≤ int_max →
  prints (print_dictionary (dictionary (analyse the_text state_init))) ()
    (concat (dictionary_line <$> dictionary (analyse the_text state_init))
     ++ (txt "Unique words: "
         ++ show_size (length (remove_dups (words the_text))) ++ endl)
     ++ (txt "Total words: "
         ++ show_int (Z.of_nat (length (words the_text))) ++ endl)).
Proof.
  intros Hlen. eapply prints_eq; [apply print_dictionary_prints|].
  unfold dictionary_report. rewrite !analyse_dictionary.
  change (dictionary state_init) with (smap_empty (K:=cstring) (V:=Z)).
  by rewrite count_keys_total, <- count_keys_size.
Qed.

Lemma print_dictionary_analyse_witness :
  prints (print_dictionary (dictionary (analyse (txt "b a. b") state_init))) ()
    (txt "a 1" ++ endl ++ txt "b 2" ++ endl
     ++ txt "Unique words: 2" ++ endl ++ txt "Total words: 3" ++ endl).
Proof. apply (print_dictionary_analyse (txt "b a. b")). by vm_compute. Defined.

(** C34.  After the analysis of a text of at most [int_max] words,
    [print_stats] writes the header with the number of words, the number of
    distinct words and the largest number of occurrences of a word, and then
    one line per sentence length, ascending, from the table filled with the
    lengths of the sentences that have words.  It writes nothing else and
    returns. *)
Theorem print_stats_analyse the_text :
  Z.of_nat (length (words the_text)) ≤ int_max →
  prints (print_stats (stats (analyse the_text state_init))) ()
    (stats_report (text_stats the_text)).
Proof.
  intros Hlen. rewrite <- analyse_stats_exact by done. apply print_stats_prints.
Qed.

Lemma print_stats_analyse_witness :
  prints (print_stats (stats (analyse (txt "b a. b") state_init))) ()
    (txt "Statistics:" ++ endl
     ++ txt "3: Number of all words in the text" ++ endl
     ++ txt "2: Number of unique words in the text" ++ endl
     ++ txt "2: Max number of one unique word found in the analysed text"
     ++ endl ++ endl
     ++ txt "Number of words in sentences depending of sentence length: <words : sentences>"
     ++ endl
     ++ txt "1 : 1" ++ endl ++ txt "2 : 1" ++ endl).
Proof. apply (print_stats_analyse (txt "b a. b")). by vm_compute. Defined.

(** C36.  The total [print_dictionary] adds up in [word_num] is the
    [words_number] that [print_stats] reports, in every state that satisfies
    the invariant of the analysis, wrapped counters included. *)
Theorem print_dictionary_total st :
  state_inv st →
  prints (print_dictionary (dictionary st)) ()
    (concat (dictionary_line <$> dictionary st)
     ++ (txt "Unique words: " ++ show_size (length (dictionary st)) ++ endl)
     ++ (txt "Total words: " ++ show_int (words_number (stats st)) ++ endl)).
Proof.
  intros [_ _ _ Hwd _]. eapply prints_eq; [apply print_dictionary_prints|].
  unfold dictionary_report. by rewrite Hwd.
Qed.

Lemma print_dictionary_total_witness :
  prints (print_dictionary
            (dictionary (fill_sentences (sentences (txt "b a. b")) state_init))) ()
    (txt "a 1" ++ endl ++ txt "b 2" ++ endl
     ++ txt "Unique words: 2" ++ endl ++ txt "Total words: 3" ++ endl).
Proof.
  apply (print_dictionary_total (fill_sentences (sentences (txt "b a. b")) state_init)).
  apply fill_sentences_text_inv; [by vm_compute|apply state_inv_init].
Defined.
