(* ===== verification/ProgramOptions.v ===== *)
(** * ProgramOptions: the interface of Boost.Program_options that
    [parse_command_line] uses, and an instance of it

    The library is not part of the sources.  [parse_command_line] calls two
    of its operations: parsing [av] against an option table into a
    [variables_map] (which may throw), and printing the table.  The class
    [ProgramOptions] names them together with the two facts the function
    relies on: the parser stores only declared options, each with a value
    of its declared kind, and it stores nothing when there is no argument.

    [long_options] is an instance for the plain long-option syntax:
    [--name] for an option without value, [--name value] and [--name=value]
    for one with a value, every name written in full and given at most
    once.  Anything else is a parse error.  Abbreviated names, short
    options and positional arguments of the library are not covered. *)

From Stdlib Require Import ZArith Lia Ascii String.
From stdpp Require Import base tactics option list numbers strings.
From S2P Require Import Prelude CType.

Local Open Scope Z_scope.

(** ** The option table *)

(** What an option takes: nothing, [po::value<int>()], [po::value<string>()]. *)
Inductive value_kind := NoValue | IntValue | StringValue.

Record option_description := OptionDescription {
  opt_name : cstring;
  opt_kind : value_kind;
  opt_text : cstring
}.

(** [po::options_description]: a caption and the options added to it. *)
Record options_description := OptionsDescription {
  caption : cstring;
  opts : list option_description
}.

(** ** Parsed values and exceptions *)

Inductive variable_value := VFlag | VInt (z : Z) | VString (s : cstring).

(** [po::variables_map] *)
Definition variables_map := list (cstring * variable_value).

(** [vm.find(name)], the empty map, and storing a value under a new name. *)
#[export] Instance vm_lookup : Lookup cstring variable_value variables_map :=
  λ name vm, snd <$> head (filter (λ p, p.1 = name) vm).
#[export] Instance vm_empty : Empty variables_map := [].
#[export] Instance vm_insert : Insert cstring variable_value variables_map :=
  λ name v vm, (name, v) :: vm.

Inductive thrown :=
  | StdException (what : cstring)    (* an exception derived from std::exception *)
  | OtherException.                  (* any other exception *)

(** [vm.count(name)], used as a condition. *)
Definition vm_count (vm : variables_map) (name : cstring) : bool :=
  bool_decide (is_Some (vm !! name)).

Definition bad_any_cast : thrown :=
  StdException (txt "boost::bad_any_cast: failed conversion using boost::any_cast").

(** [vm[name].as<int>()] and [vm[name].as<string>()] *)
Definition as_int (vm : variables_map) (name : cstring) : thrown + Z :=
  match vm !! name with Some (VInt z) => inr z | _ => inl bad_any_cast end.

Definition as_string (vm : variables_map) (name : cstring) : thrown + cstring :=
  match vm !! name with Some (VString s) => inr s | _ => inl bad_any_cast end.

(** A value has the kind its option was declared with. *)
Definition value_has_kind (k : value_kind) (v : variable_value) : bool :=
  match k, v with
  | NoValue, VFlag => true
  | IntValue, VInt z => bool_decide (int_range z)
  | StringValue, VString _ => true
  | _, _ => false
  end.

Definition find_option (d : options_description) (name : cstring)
    : option option_description :=
  head (filter (λ o, opt_name o = name) (opts d)).

(** Every parsed name is declared, with a value of the declared kind. *)
Definition vm_typed (d : options_description) (vm : variables_map) : Prop :=
  Forall (λ p,
    ∃ o, find_option d p.1 = Some o ∧ value_has_kind (opt_kind o) p.2 = true) vm.

(** ** The interface *)

Class ProgramOptions := {
  (** [po::store(po::parse_command_line(ac, av, desc), vm); po::notify(vm)]:
      the map, or the exception thrown.  [av] starts with the program name. *)
  po_parse : options_description → list cstring → thrown + variables_map;
  (** What [cout << desc] writes. *)
  po_show : options_description → cstring;
  (** The parser stores only declared options, with values of their kind. *)
  po_parse_typed d av vm : po_parse d av = inr vm → vm_typed d vm;
  (** Without arguments the parser stores nothing. *)
  po_parse_no_args d name : po_parse d [name] = inr ∅
}.

(** ** The long-option parser *)

(** [s] without the prefix [p], when it starts with [p]. *)
Definition strip_prefix (p s : cstring) : option cstring :=
  if decide (take (length p) s = p) then Some (drop (length p) s) else None.

(** The part of [s] before the first '=' and, when there is one, the part
    after it. *)
Fixpoint split_eq (s : cstring) : cstring * option cstring :=
  match s with
  | [] => ([], None)
  | c :: s' =>
      if decide (c = "="%char) then ([], Some s')
      else let r := split_eq s' in (c :: r.1, r.2)
  end.

Definition digit_value (c : ascii) : option Z :=
  if char_between 48 57 c then Some (Z.of_N (char_code c) - 48) else None.

(** The value of a sequence of decimal digits, most significant first. *)
Fixpoint parse_digits (s : cstring) (acc : Z) : option Z :=
  match s with
  | [] => Some acc
  | c :: s' => d ← digit_value c; parse_digits s' (10 * acc + d)
  end.

(** [boost::lexical_cast<int>]: an optional sign and at least one digit, the
    value within the range of [int]. *)
Definition lexical_cast_int (s : cstring) : option Z :=
  let signed (neg : bool) (ds : cstring) :=
    if decide (ds = []) then None
    else z ← parse_digits ds 0;
         let z' := if neg then - z else z in
         if decide (int_range z') then Some z' else None in
  match s with
  | c :: ds =>
      if decide (c = "-"%char) then signed true ds
      else if decide (c = "+"%char) then signed false ds
      else signed false s
  | [] => None
  end.

(** The stored value for the text [v] of an option of kind [k]. *)
Definition read_value (k : value_kind) (v : cstring) : option variable_value :=
  match k with
  | NoValue => None
  | IntValue => VInt <$> lexical_cast_int v
  | StringValue => Some (VString v)
  end.

Definition quoted (name : cstring) : cstring := txt "'--" ++ name ++ txt "'".

Definition unknown_option (name : cstring) : thrown :=
  StdException (txt "unrecognised option " ++ quoted name).
Definition multiple_occurrences (name : cstring) : thrown :=
  StdException (txt "option " ++ quoted name ++ txt " cannot be specified more than once").
Definition missing_argument (name : cstring) : thrown :=
  StdException (txt "the required argument for option " ++ quoted name ++ txt " is missing").
Definition unexpected_argument (name : cstring) : thrown :=
  StdException (txt "option " ++ quoted name ++ txt " does not take any arguments").
Definition invalid_value (name v : cstring) : thrown :=
  StdException (txt "the argument ('" ++ v ++ txt "') for option "
                ++ quoted name ++ txt " is invalid").
Definition positional_argument : thrown :=
  StdException
    (txt "too many positional options have been specified on the command line").

(** Store [name] with the value read from [v]. *)
Definition store_value (k : value_kind) (name v : cstring) (vm : variables_map)
    (rest : list cstring) : thrown + (variables_map * list cstring) :=
  match read_value k v with
  | Some x => inr (<[name := x]> vm, rest)
  | None => inl (invalid_value name v)
  end.

(** One step of the parser: the map after the first option of [args] and the
    arguments that remain. *)
Definition parse_option (d : options_description) (a : cstring)
    (rest : list cstring) (vm : variables_map)
    : thrown + (variables_map * list cstring) :=
  match strip_prefix (txt "--") a with
  | None => inl positional_argument
  | Some body =>
      let name := (split_eq body).1 in
      match find_option d name with
      | None => inl (unknown_option name)
      | Some o =>
          if vm_count vm name then inl (multiple_occurrences name)
          else
            match opt_kind o, (split_eq body).2, rest with
            | NoValue, None, _ => inr (<[name := VFlag]> vm, rest)
            | NoValue, Some _, _ => inl (unexpected_argument name)
            | k, Some v, _ => store_value k name v vm rest
            | k, None, v :: rest' =>
                if decide (is_Some (strip_prefix (txt "--") v))
                then inl (missing_argument name)
                else store_value k name v vm rest'
            | _, None, [] => inl (missing_argument name)
            end
      end
  end.

(** The parser, with one unit of fuel per argument. *)
Fixpoint parse_long (fuel : nat) (d : options_description) (args : list cstring)
    (vm : variables_map) : thrown + variables_map :=
  match fuel, args with
  | _, [] => inr vm
  | O, _ :: _ => inl OtherException
  | S fuel', a :: rest =>
      match parse_option d a rest vm with
      | inl e => inl e
      | inr (vm', rest') => parse_long fuel' d rest' vm'
      end
  end.

(** [av[0]] is the program name. *)
Definition parse_av (d : options_description) (av : list cstring)
    : thrown + variables_map :=
  parse_long (length av) d (tail av) ∅.

(** The option table as the library lays it out: the caption, then one
    line per option with the description starting in column 24. *)
Definition show_option (o : option_description) : cstring :=
  let left := txt "  --" ++ opt_name o
              ++ (if opt_kind o is NoValue then [] else txt " arg") in
  left ++ replicate (24 - length left) " "%char ++ opt_text o ++ ["010"%char].

Definition show_description (d : options_description) : cstring :=
  caption d ++ txt ":" ++ ["010"%char] ++ concat (show_option <$> opts d).

(** ** Lemmas *)

Lemma vm_count_true vm name : vm_count vm name = true ↔ is_Some (vm !! name).
Proof. unfold vm_count. by rewrite bool_decide_eq_true. Qed.

Lemma vm_count_false vm name : vm_count vm name = false ↔ vm !! name = None.
Proof. unfold vm_count. by rewrite bool_decide_eq_false, eq_None_not_Some. Qed.

Lemma vm_typed_empty d : vm_typed d ∅.
Proof. apply Forall_nil_2. Qed.

Lemma vm_typed_insert d vm name o v :
  find_option d name = Some o → value_has_kind (opt_kind o) v = true →
  vm_typed d vm → vm_typed d (<[name := v]> vm).
Proof. intros Ho Hk Ht. apply Forall_cons_2; [by exists o|done]. Qed.

Lemma vm_lookup_elem_of (vm : variables_map) name v :
  vm !! name = Some v → (name, v) ∈ vm.
Proof.
  unfold lookup, vm_lookup. intros Hl.
  destruct (head _) as [[n v']|] eqn:Hh; simplify_eq/=.
  apply head_Some_elem_of, list_elem_of_filter in Hh as [? ?]. by simplify_eq/=.
Qed.

Lemma vm_typed_lookup d vm name v :
  vm_typed d vm → vm !! name = Some v →
  ∃ o, find_option d name = Some o ∧ value_has_kind (opt_kind o) v = true.
Proof.
  intros Ht Hl%vm_lookup_elem_of. by apply (proj1 (Forall_forall _ _) Ht (name, v)).
Qed.

Lemma read_value_kind k v x : read_value k v = Some x → value_has_kind k x = true.
Proof.
  destruct k; intros Hr; simplify_eq/=; [|done].
  destruct (lexical_cast_int v) as [z|] eqn:Hz; simplify_eq/=.
  apply bool_decide_eq_true. unfold lexical_cast_int in Hz.
  repeat (case_match || case_decide || simplify_option_eq); done.
Qed.

Lemma store_value_typed d k name o v vm rest vm' rest' :
  find_option d name = Some o → opt_kind o = k →
  store_value k name v vm rest = inr (vm', rest') →
  vm_typed d vm → vm_typed d vm'.
Proof.
  unfold store_value. intros Ho <- Hs Ht.
  destruct (read_value _ v) as [x|] eqn:Hx; simplify_eq.
  eapply vm_typed_insert; eauto using read_value_kind.
Qed.

Lemma parse_option_typed d a rest vm vm' rest' :
  parse_option d a rest vm = inr (vm', rest') →
  vm_typed d vm → vm_typed d vm'.
Proof.
  unfold parse_option. intros Hp Ht.
  destruct (strip_prefix _ a) as [body|]; [|done].
  destruct (find_option d _) as [o|] eqn:Ho; [|done].
  destruct (vm_count vm _); [done|].
  destruct (opt_kind o) eqn:Hk, (split_eq body).2 as [v|], rest as [|v' rest''];
    simplify_eq/=;
    try (by eapply vm_typed_insert; [done|by rewrite Hk|done]);
    repeat case_decide; simplify_eq/=; eauto using store_value_typed.
Qed.

Lemma parse_option_shorter d a rest vm vm' rest' :
  parse_option d a rest vm = inr (vm', rest') → (length rest' ≤ length rest)%nat.
Proof.
  unfold parse_option. intros Hp.
  unfold store_value in Hp.
  repeat (case_match || case_decide); simplify_eq/=; lia.
Qed.

Lemma parse_long_typed fuel d args vm vm' :
  parse_long fuel d args vm = inr vm' → vm_typed d vm → vm_typed d vm'.
Proof.
  revert args vm. induction fuel as [|fuel IH]; intros [|a rest] vm Hp Ht;
    simplify_eq/=; try done.
  destruct (parse_option d a rest vm) as [e|[vm1 rest1]] eqn:Ho; [done|].
  eauto using parse_option_typed.
Qed.

(** The fuel [parse_av] supplies is never used up. *)
Lemma parse_long_fuel fuel d args vm :
  (length args ≤ fuel)%nat → parse_long fuel d args vm ≠ inl OtherException.
Proof.
  revert args vm. induction fuel as [|fuel IH]; intros [|a rest] vm Hlen;
    simplify_eq/=; try done; try lia.
  destruct (parse_option d a rest vm) as [e|[vm1 rest1]] eqn:Ho.
  - unfold parse_option, store_value in Ho.
    repeat (case_match || case_decide); simplify_eq/=; done.
  - apply IH. apply parse_option_shorter in Ho. lia.
Qed.

(** ** The instance *)

Lemma parse_av_typed d av vm : parse_av d av = inr vm → vm_typed d vm.
Proof. intros Hp. by eapply parse_long_typed, vm_typed_empty. Qed.

Lemma parse_av_no_args d name : parse_av d [name] = inr ∅.
Proof. done. Qed.

Lemma parse_av_std d av : parse_av d av ≠ inl OtherException.
Proof. apply parse_long_fuel. destruct av; cbn; lia. Qed.

#[export] Instance long_options : ProgramOptions := {|
  po_parse := parse_av;
  po_show := show_description;
  po_parse_typed := parse_av_typed;
  po_parse_no_args := parse_av_no_args
|}.
