(* ===== verification/CmdLine.v ===== *)
(** * CmdLine: [Options] and [parse_command_line] (src/main.cpp, lines 17-22
    and 37-82)

    The function declares six options, lets Boost.Program_options parse the
    arguments, and copies three of the parsed values into [Options].  It is
    written against the interface [ProgramOptions]; the theorems hold for
    every parser that satisfies the interface.

    The [try] block is [parse_body]; it returns either the updated options
    or the exception that left it.  [parse_command_line] adds the two
    handlers.  Exceptions derived from [std::exception] end the program with
    [exit(1)]; any other exception can only come from the library's parser,
    before [options] is written, so the function then returns with
    [options] as it received them.  The function is declared [int] and has
    no [return]; its caller ignores the value, and the model returns the
    options it leaves behind. *)

From Stdlib Require Import ZArith Lia Ascii String.
From stdpp Require Import base tactics option list numbers strings gmap pretty.
From S2P Require Import Prelude CType World ProgramOptions.

Local Open Scope Z_scope.

(** ** Options *)

Record Options := mkOptions {
  dim : Z;
  input : cstring;
  matrix : cstring;
  print_chains : bool
}.

(** The default member initializers. *)
Definition options_init : Options := mkOptions 2 [] [] false.

(** [desc], lines 41-49. *)
Definition desc : options_description :=
  OptionsDescription (txt "Allowed options")
    [ OptionDescription (txt "help") NoValue (txt "produce help message");
      OptionDescription (txt "dim") IntValue (txt "set dimension of the matrix");
      OptionDescription (txt "input") StringValue (txt "set input file for learning");
      OptionDescription (txt "matrix") StringValue
        (txt "set output file for saving of the matrix");
      OptionDescription (txt "print_matrix") NoValue
        (txt "print the matrix (for dimension = 2 only)");
      OptionDescription (txt "print_chains") NoValue (txt "print the chains") ].

(** ** [parse_command_line] *)

Section parse_command_line.
Context `{ProgramOptions}.

(** The [try] block, lines 39-74. *)
Definition parse_body (av : list cstring) (options : Options)
    : prog (thrown + Options) :=
  match po_parse desc av with
  | inl e => mret (inl e)
  | inr vm =>
      if bool_decide (length av = 1%nat) || vm_count vm (txt "help") then
        put (po_show desc ++ endl) ;; exit 0
      else
        let options1 :=
          if vm_count vm (txt "print_chains")
          then mkOptions (dim options) (input options) (matrix options) true
          else options in
        match (if vm_count vm (txt "input") then as_string vm (txt "input")
               else inr (input options1)) with
        | inl e => mret (inl e)
        | inr i =>
            let options2 :=
              mkOptions (dim options1) i (matrix options1) (print_chains options1) in
            match (if vm_count vm (txt "dim") then as_int vm (txt "dim")
                   else inr (dim options2)) with
            | inl e => mret (inl e)
            | inr d =>
                let options3 :=
                  mkOptions d (input options2) (matrix options2)
                    (print_chains options2) in
                put (txt "Dimension of the matrix = " ++ show_int d ++ endl) ;;
                mret (inr options3)
            end
        end
  end.

(** The function: the [try] block and its two handlers.  The result is the
    value [options] has when the function returns. *)
Definition parse_command_line (av : list cstring) (options : Options)
    : prog Options :=
  r ← parse_body av options;
  match r with
  | inr options' => mret options'
  | inl (StdException what) =>
      put_err (txt "error: " ++ what ++ endl) ;; exit 1
  | inl OtherException =>
      put_err (txt "Exception of unknown type!" ++ endl) ;; mret options
  end.
End parse_command_line.

(** ** The options a map selects *)

(** The [Options] after a successful parse, as a function of the map. *)
Definition options_of (vm : variables_map) (options : Options) : Options :=
  mkOptions
    (match vm !! txt "dim" with Some (VInt d) => d | _ => dim options end)
    (match vm !! txt "input" with Some (VString s) => s | _ => input options end)
    (matrix options)
    (if vm_count vm (txt "print_chains") then true else print_chains options).

Definition dimension_line (o : Options) : cstring :=
  txt "Dimension of the matrix = " ++ show_int (dim o) ++ endl.

(** Whether the function prints the option table and exits. *)
Definition wants_help (av : list cstring) (vm : variables_map) : bool :=
  bool_decide (length av = 1%nat) || vm_count vm (txt "help").

(** ** Typed maps *)

Lemma vm_typed_dim vm v :
  vm_typed desc vm → vm !! txt "dim" = Some v → ∃ d, v = VInt d ∧ int_range d.
Proof.
  intros Ht Hv. destruct (vm_typed_lookup _ _ _ _ Ht Hv) as (o & Ho & Hk).
  vm_compute in Ho. simplify_eq. destruct v as [|d|]; try done.
  exists d. split; [done|]. by apply bool_decide_eq_true in Hk.
Qed.

Lemma vm_typed_input vm v :
  vm_typed desc vm → vm !! txt "input" = Some v → ∃ s, v = VString s.
Proof.
  intros Ht Hv. destruct (vm_typed_lookup _ _ _ _ Ht Hv) as (o & Ho & Hk).
  vm_compute in Ho. simplify_eq. destruct v as [| |s]; try done. by exists s.
Qed.

Lemma as_int_typed vm :
  vm_typed desc vm → vm_count vm (txt "dim") = true →
  ∃ d, as_int vm (txt "dim") = inr d ∧ vm !! txt "dim" = Some (VInt d) ∧ int_range d.
Proof.
  intros Ht [v Hv]%vm_count_true. destruct (vm_typed_dim _ _ Ht Hv) as (d & -> & Hd).
  exists d. unfold as_int. by rewrite Hv.
Qed.

Lemma as_string_typed vm :
  vm_typed desc vm → vm_count vm (txt "input") = true →
  ∃ s, as_string vm (txt "input") = inr s ∧ vm !! txt "input" = Some (VString s).
Proof.
  intros Ht [v Hv]%vm_count_true. destruct (vm_typed_input _ _ Ht Hv) as (s & ->).
  exists s. unfold as_string. by rewrite Hv.
Qed.

Lemma options_of_dim_range vm options :
  vm_typed desc vm → int_range (dim options) → int_range (dim (options_of vm options)).
Proof.
  intros Ht Hd. unfold options_of. cbn [dim].
  destruct (vm !! txt "dim") as [v|] eqn:Hv; [|done].
  by destruct (vm_typed_dim _ _ Ht Hv) as (d & -> & ?).
Qed.

(** ** The branches of the function *)

Section parse_lemmas.
Context `{ProgramOptions}.
Implicit Types (av : list cstring) (options : Options) (vm : variables_map) (w : world).

Lemma parse_body_throws av options e w :
  po_parse desc av = inl e → parse_body av options w = (Ret (inl e), w).
Proof. unfold parse_body. by intros ->. Qed.

Lemma parse_body_help av options vm w :
  po_parse desc av = inr vm → wants_help av vm = true →
  parse_body av options w
  = (Exit 0, World (files w) (denied w) (cout w ++ po_show desc ++ endl) (cerr w)).
Proof. unfold parse_body, wants_help. by intros -> ->. Qed.

Lemma parse_body_options av options vm w :
  po_parse desc av = inr vm → wants_help av vm = false →
  parse_body av options w
  = (Ret (inr (options_of vm options)),
     World (files w) (denied w)
       (cout w ++ dimension_line (options_of vm options)) (cerr w)).
Proof.
  intros Hp Hh. pose proof (po_parse_typed _ _ _ Hp) as Ht.
  unfold parse_body, wants_help in *. rewrite Hp, Hh.
  unfold options_of, dimension_line.
  destruct (vm_count vm (txt "input")) eqn:Hi;
    [destruct (as_string_typed vm Ht Hi) as (s & -> & ->)
    |apply vm_count_false in Hi as ->];
    (destruct (vm_count vm (txt "dim")) eqn:Hd;
      [destruct (as_int_typed vm Ht Hd) as (d & -> & -> & _)
      |apply vm_count_false in Hd as ->]);
    by destruct (vm_count vm (txt "print_chains")).
Qed.

Lemma parse_command_line_cases av options w :
  match po_parse desc av with
  | inl (StdException what) =>
      parse_command_line av options w
      = (Exit 1, World (files w) (denied w) (cout w)
                   (cerr w ++ txt "error: " ++ what ++ endl))
  | inl OtherException =>
      parse_command_line av options w
      = (Ret options, World (files w) (denied w) (cout w)
                        (cerr w ++ txt "Exception of unknown type!" ++ endl))
  | inr vm =>
      if wants_help av vm then
        parse_command_line av options w
        = (Exit 0, World (files w) (denied w) (cout w ++ po_show desc ++ endl) (cerr w))
      else
        parse_command_line av options w
        = (Ret (options_of vm options),
           World (files w) (denied w)
             (cout w ++ dimension_line (options_of vm options)) (cerr w))
  end.
Proof.
  unfold parse_command_line.
  destruct (po_parse desc av) as [[what|]|vm] eqn:Hp.
  - by rewrite (prog_bind_Ret _ _ _ _ _ (parse_body_throws _ _ _ _ Hp)).
  - by rewrite (prog_bind_Ret _ _ _ _ _ (parse_body_throws _ _ _ _ Hp)).
  - destruct (wants_help av vm) eqn:Hh.
    + by rewrite (prog_bind_Exit _ _ _ _ _ (parse_body_help _ _ _ _ Hp Hh)).
    + by rewrite (prog_bind_Ret _ _ _ _ _ (parse_body_options _ _ _ _ Hp Hh)).
Qed.
End parse_lemmas.

(** ** Main results *)

Section parse_results.
Context `{ProgramOptions}.
Implicit Types (av : list cstring) (options : Options) (vm : variables_map) (w : world).

(** C21.  When the parser accepts the arguments, there is at least one
    argument and [--help] is not among them, [parse_command_line] returns
    with [print_chains], [input] and [dim] taken from the parsed values
    where they were given and left alone where not, writes the line
    "Dimension of the matrix = <dim>", and touches nothing else. *)
Theorem parse_command_line_options av options vm w :
  po_parse desc av = inr vm → wants_help av vm = false →
  parse_command_line av options w
  = (Ret (options_of vm options),
     World (files w) (denied w)
       (cout w ++ dimension_line (options_of vm options)) (cerr w)).
Proof.
  intros Hp Hh. pose proof (parse_command_line_cases av options w) as Hc.
  by rewrite Hp, Hh in Hc.
Qed.

(** C24.  Called without arguments ([ac == 1]), [parse_command_line] writes
    the option table and ends the program with [exit(0)], whatever the
    program name and the options on entry. *)
Theorem parse_command_line_no_args name options w :
  parse_command_line [name] options w
  = (Exit 0, World (files w) (denied w) (cout w ++ po_show desc ++ endl) (cerr w)).
Proof.
  pose proof (parse_command_line_cases [name] options w) as Hc.
  by rewrite po_parse_no_args in Hc.
Qed.

(** C23.  When the parser throws an exception derived from [std::exception]
    (an unknown option, a missing or malformed value), the function writes
    "error: " and the exception's message to [std::cerr], nothing to
    [std::cout], and ends the program with [exit(1)].  With [--help] among
    the arguments as well, the error wins. *)
Theorem parse_command_line_error av options what w :
  po_parse desc av = inl (StdException what) →
  parse_command_line av options w
  = (Exit 1, World (files w) (denied w) (cout w)
               (cerr w ++ txt "error: " ++ what ++ endl)).
Proof.
  intros Hp. pose proof (parse_command_line_cases av options w) as Hc.
  by rewrite Hp in Hc.
Qed.

(** C22.  [parse_command_line] never lets an exception escape and never
    touches a file; what it wrote stays written; and when it returns, the
    [matrix] field is the one it received (the value of [--matrix] is never
    stored) and [dim] is still an [int]. *)
Theorem parse_command_line_safe av options w :
  let r := parse_command_line av options w in
  r.1 ≠ Abort ∧ files r.2 = files w ∧ denied r.2 = denied w ∧ extends w r.2
  ∧ ∀ options', r.1 = Ret options' →
      matrix options' = matrix options
      ∧ (int_range (dim options) → int_range (dim options')).
Proof.
  pose proof (parse_command_line_cases av options w) as Hc. cbv zeta.
  destruct (po_parse desc av) as [[what|]|vm] eqn:Hp;
    [| |pose proof (po_parse_typed _ _ _ Hp); destruct (wants_help av vm)];
    rewrite Hc; cbn; unfold extends; cbn;
    split_and!; try done; try reflexivity; try (by apply prefix_app_r);
    intros ? [= <-]; eauto using options_of_dim_range.
Qed.
End parse_results.

Lemma parse_command_line_options_witness :
  parse_command_line (H:=long_options)
    [txt "prog"; txt "--input"; txt "f.txt"; txt "--dim=3"] options_init (world_init ∅)
  = (Ret (mkOptions 3 (txt "f.txt") [] false),
     World ∅ ∅ (txt "Dimension of the matrix = 3" ++ endl) []).
Proof.
  etrans.
  - apply (parse_command_line_options (H:=long_options)
             [txt "prog"; txt "--input"; txt "f.txt"; txt "--dim=3"] options_init
             [(txt "dim", VInt 3); (txt "input", VString (txt "f.txt"))]
             (world_init ∅)); by vm_compute.
  - by vm_compute.
Defined.

Lemma parse_command_line_error_witness :
  parse_command_line (H:=long_options)
    [txt "prog"; txt "--help"; txt "--dim"; txt "x"] options_init (world_init ∅)
  = (Exit 1, World ∅ ∅ []
       (txt "error: the argument ('x') for option '--dim' is invalid" ++ endl)).
Proof.
  etrans.
  - apply (parse_command_line_error (H:=long_options)
             [txt "prog"; txt "--help"; txt "--dim"; txt "x"] options_init
             (txt "the argument ('x') for option '--dim' is invalid") (world_init ∅)).
    by vm_compute.
  - by vm_compute.
Defined.
