(* ===== verification/Matrix.v ===== *)
(** * Matrix: the compressed sparse row matrix of spec.md, sections 3 and 4.1

    [Matrix] in src/main.cpp is [ublas::compressed_matrix<int>], a Boost
    type; the operations here are those the specification gives for it.
    The state is the record [SparseMatrix] of the three parallel arrays
    ([values], [col_index], [row_start]) and the two dimensions.  [SetAt]
    and [GetAt] work on the arrays by position, as the specification
    describes them: find the place in the row's span, overwrite in place or
    shift the later entries and bump the later row starts.

    The arrays are related to a list of rows, each an ordered list of
    (column, value) pairs ([matrix_rep]); the invariant [matrix_inv] says
    such rows exist and are well formed.  [SetAt] is shown to act on one
    row only ([SetAt_rows]), from which the invariant, the value read back
    by [GetAt] and the layout of the value array follow.

    Zero policy, as in section 4.1: writing over a stored entry keeps the
    entry, also when the value is zero; writing zero where nothing is
    stored changes nothing. *)

From Stdlib Require Import ZArith Lia.
From stdpp Require Import base tactics option list numbers lexico sorting gmap.
From S2P Require Import Prelude StdMap.

Local Open Scope Z_scope.

(** ** State *)

Inductive matrix_error := InvalidDimension | IndexOutOfBounds.

Record SparseMatrix := mkMatrix {
  rows : nat;
  cols : nat;
  values : list Z;
  col_index : list nat;
  row_start : list nat
}.

#[export] Instance matrix_error_eq_dec : EqDecision matrix_error.
Proof. solve_decision. Defined.

#[export] Instance SparseMatrix_eq_dec : EqDecision SparseMatrix.
Proof. solve_decision. Defined.

(** ** Operations *)

(** [Construct(rows, cols)]: no entry, every row starting at 0. *)
Definition Construct (r c : Z) : matrix_error + SparseMatrix :=
  if decide (0 < r ∧ 0 < c) then
    inr (mkMatrix (Z.to_nat r) (Z.to_nat c) [] [] (replicate (S (Z.to_nat r)) 0%nat))
  else inl InvalidDimension.

Definition in_bounds (m : SparseMatrix) (row col : Z) : Prop :=
  0 ≤ row < Z.of_nat (rows m) ∧ 0 ≤ col < Z.of_nat (cols m).

#[export] Instance in_bounds_dec m row col : Decision (in_bounds m row col).
Proof. unfold in_bounds. apply _. Defined.

(** The span of row [i] in [values] and [col_index]: from [row_start[i]]
    up to [row_start[i+1]]. *)
Definition row_begin (m : SparseMatrix) (i : nat) : nat := default 0%nat (row_start m !! i).
Definition row_end (m : SparseMatrix) (i : nat) : nat := default 0%nat (row_start m !! S i).

(** The number of leading columns of [cs] below [j]. *)
Fixpoint lower_bound (j : nat) (cs : list nat) : nat :=
  match cs with
  | c :: cs' => if decide (c < j)%nat then S (lower_bound j cs') else 0%nat
  | [] => 0%nat
  end.

(** The position in the arrays where column [j] of row [i] is or would be. *)
Definition find_pos (m : SparseMatrix) (i j : nat) : nat :=
  (row_begin m i
   + lower_bound j (take (row_end m i - row_begin m i) (drop (row_begin m i) (col_index m))))%nat.

(** Whether position [k] holds the entry of column [j] of row [i]. *)
Definition stored_at (m : SparseMatrix) (i j k : nat) : bool :=
  bool_decide ((k < row_end m i)%nat ∧ col_index m !! k = Some j).

(** Shift the entries from position [k] on and put [x] there. *)
Definition insert_at {A} (k : nat) (x : A) (l : list A) : list A :=
  take k l ++ x :: drop k l.

(** Bump the starts of the rows after row [i]. *)
Definition bump_after (i : nat) (starts : list nat) : list nat :=
  take (S i) starts ++ (S <$> drop (S i) starts).

(** [Set(row, col, value)] *)
Definition SetAt (m : SparseMatrix) (row col : Z) (value : Z)
    : matrix_error + SparseMatrix :=
  if decide (in_bounds m row col) then
    let i := Z.to_nat row in
    let j := Z.to_nat col in
    let k := find_pos m i j in
    if stored_at m i j k then
      inr (mkMatrix (rows m) (cols m) (<[k := value]> (values m))
             (col_index m) (row_start m))
    else if decide (value = 0) then inr m
    else
      inr (mkMatrix (rows m) (cols m) (insert_at k value (values m))
             (insert_at k j (col_index m)) (bump_after i (row_start m)))
  else inl IndexOutOfBounds.

(** [Get(row, col)] *)
Definition GetAt (m : SparseMatrix) (row col : Z) : matrix_error + Z :=
  if decide (in_bounds m row col) then
    let i := Z.to_nat row in
    let j := Z.to_nat col in
    let k := find_pos m i j in
    if stored_at m i j k then inr (default 0 (values m !! k)) else inr 0
  else inl IndexOutOfBounds.

(** [ValueArray()] *)
Definition ValueArray (m : SparseMatrix) : list Z := values m.

(** A sequence of writes, stopping at the first that fails. *)
Fixpoint SetAll (m : SparseMatrix) (ws : list (Z * Z * Z)) : matrix_error + SparseMatrix :=
  match ws with
  | [] => inr m
  | (row, col, value) :: ws' =>
      match SetAt m row col value with
      | inr m' => SetAll m' ws'
      | inl e => inl e
      end
  end.

(** ** Rows *)

(** The row starts of a list of rows laid out one after the other from
    position [acc], with the end of the last row. *)
Fixpoint offsets {A} (acc : nat) (rs : list (list A)) : list nat :=
  acc :: match rs with
         | [] => []
         | r :: rs' => offsets (acc + length r) rs'
         end.

(** The arrays of [m] are the rows [rs] laid out in order. *)
Record matrix_rep (rs : list (list (nat * Z))) (m : SparseMatrix) : Prop := MatrixRep {
  rep_rows : length rs = rows m;
  rep_values : values m = (concat rs).*2;
  rep_col_index : col_index m = (concat rs).*1;
  rep_row_start : row_start m = offsets 0 rs
}.

(** A row: columns strictly ascending and below [c], values of [int] range. *)
Definition row_wf (c : nat) (row : list (nat * Z)) : Prop :=
  smap_wf row ∧ Forall (λ e, (e.1 < c)%nat ∧ int_range e.2) row.

(** The invariant of the matrix. *)
Definition matrix_inv (m : SparseMatrix) : Prop :=
  (0 < rows m)%nat ∧ (0 < cols m)%nat
  ∧ ∃ rs, matrix_rep rs m ∧ Forall (row_wf (cols m)) rs.

(** The write of [SetAt] on one row. *)
Definition row_set (j : nat) (value : Z) (row : list (nat * Z)) : list (nat * Z) :=
  let k := lower_bound j (row.*1) in
  if bool_decide (row.*1 !! k = Some j) then <[k := (j, value)]> row
  else if decide (value = 0) then row
  else insert_at k (j, value) row.

(** The read of [GetAt] on one row. *)
Definition row_get (j : nat) (row : list (nat * Z)) : Z :=
  let k := lower_bound j (row.*1) in
  if bool_decide (row.*1 !! k = Some j) then default 0 (row.*2 !! k) else 0.

(** What the length checks of a decoder can see of the invariant. *)
Definition consistent (m : SparseMatrix) : Prop :=
  length (values m) = length (col_index m)
  ∧ length (row_start m) = S (rows m)
  ∧ last (row_start m) = Some (length (values m)).

#[export] Instance consistent_dec m : Decision (consistent m).
Proof. unfold consistent. apply _. Defined.

Local Open Scope nat_scope.

(** ** Lists: inserting at a position *)

Section insert_at.
Context {A B : Type}.
Implicit Types (l k : list A) (x : A).

Lemma insert_at_length n x l : length (insert_at n x l) = S (length l).
Proof.
  unfold insert_at. rewrite length_app. cbn. rewrite length_take, length_drop. lia.
Qed.

Lemma insert_at_app_r l k p x :
  insert_at (length l + p) x (l ++ k) = l ++ insert_at p x k.
Proof.
  unfold insert_at. rewrite take_app_add, drop_app_add. by rewrite <- (assoc_L (++)).
Qed.

Lemma insert_at_app_l l k p x :
  p ≤ length l → insert_at p x (l ++ k) = insert_at p x l ++ k.
Proof.
  intros Hp. unfold insert_at. rewrite take_app_le, drop_app_le by done.
  by rewrite <- (assoc_L (++)).
Qed.

Lemma insert_at_fmap (f : A → B) n x l :
  f <$> insert_at n x l = insert_at n (f x) (f <$> l).
Proof. unfold insert_at. by rewrite fmap_app, fmap_cons, fmap_take, fmap_drop. Qed.

Lemma insert_app_mid l k1 k2 p x :
  p < length k1 → <[length l + p := x]> (l ++ k1 ++ k2) = l ++ <[p := x]> k1 ++ k2.
Proof.
  intros Hp. rewrite insert_app_r. f_equal. by rewrite insert_app_l.
Qed.

Lemma Forall_insert_at (P : A → Prop) n x l :
  P x → Forall P l → Forall P (insert_at n x l).
Proof.
  intros Hx Hl. unfold insert_at. apply Forall_app. split.
  - by apply Forall_take.
  - constructor; [done|]. by apply Forall_drop.
Qed.
End insert_at.

(** ** Row starts *)

Section offsets.
Context {A : Type}.
Implicit Types (rs : list (list A)) (r : list A).

Lemma offsets_length acc rs : length (offsets acc rs) = S (length rs).
Proof. revert acc. induction rs as [|r rs IH]; intros acc; cbn; [done|]. by rewrite IH. Qed.

Lemma offsets_succ acc rs : S <$> offsets acc rs = offsets (S acc) rs.
Proof.
  revert acc. induction rs as [|r rs IH]; intros acc; cbn; [done|].
  f_equal. apply (IH (acc + length r)).
Qed.

Lemma offsets_lookup acc rs i :
  i ≤ length rs → offsets acc rs !! i = Some (acc + length (concat (take i rs))).
Proof.
  revert acc i. induction rs as [|r rs IH]; intros acc [|i] Hi; cbn in *;
    try (f_equal; lia).
  rewrite IH by lia. f_equal. rewrite length_app. lia.
Qed.

Lemma offsets_last acc rs : last (offsets acc rs) = Some (acc + length (concat rs)).
Proof.
  rewrite last_lookup, offsets_length. cbn.
  rewrite offsets_lookup by done. by rewrite firstn_all.
Qed.

Lemma offsets_insert_same acc rs i r r' :
  rs !! i = Some r → length r' = length r →
  offsets acc (<[i := r']> rs) = offsets acc rs.
Proof.
  revert acc i. induction rs as [|r0 rs IH]; intros acc [|i] Hi Hl; simplify_eq/=.
  - by rewrite Hl.
  - f_equal. by apply IH.
Qed.

Lemma offsets_insert_longer acc rs i r r' :
  rs !! i = Some r → length r' = S (length r) →
  offsets acc (<[i := r']> rs) = bump_after i (offsets acc rs).
Proof.
  unfold bump_after.
  revert acc i. induction rs as [|r0 rs IH]; intros acc [|i] Hi Hl; simplify_eq/=.
  - f_equal. rewrite Hl. etrans; [|symmetry; apply offsets_succ]. f_equal. lia.
  - f_equal. by apply IH.
Qed.

Lemma offsets_sorted acc rs : Sorted le (offsets acc rs).
Proof.
  revert acc. induction rs as [|r rs IH]; intros acc; cbn; [by repeat constructor|].
  constructor; [apply IH|]. destruct rs; cbn; constructor; lia.
Qed.
End offsets.

(** ** Rows inside the concatenation *)

Section concat_rows.
Context {A : Type}.
Implicit Types (rs : list (list A)) (r : list A).

Lemma concat_split rs i r :
  rs !! i = Some r → concat rs = concat (take i rs) ++ r ++ concat (drop (S i) rs).
Proof.
  intros Hr. rewrite <- (take_drop_middle rs i r Hr) at 1.
  by rewrite concat_app, concat_cons.
Qed.

Lemma concat_replace rs i r r' :
  rs !! i = Some r →
  concat (<[i := r']> rs) = concat (take i rs) ++ r' ++ concat (drop (S i) rs).
Proof.
  intros Hr. rewrite insert_take_drop by (by eapply lookup_lt_Some).
  by rewrite concat_app, concat_cons.
Qed.

Lemma concat_insert_at rs i r p x :
  rs !! i = Some r → p ≤ length r →
  insert_at (length (concat (take i rs)) + p) x (concat rs)
  = concat (<[i := insert_at p x r]> rs).
Proof.
  intros Hr Hp. rewrite (concat_replace _ _ _ _ Hr), (concat_split _ _ _ Hr).
  by rewrite insert_at_app_r, insert_at_app_l.
Qed.

Lemma concat_insert rs i r p x :
  rs !! i = Some r → p < length r →
  <[length (concat (take i rs)) + p := x]> (concat rs)
  = concat (<[i := <[p := x]> r]> rs).
Proof.
  intros Hr Hp. rewrite (concat_replace _ _ _ _ Hr), (concat_split _ _ _ Hr).
  by apply insert_app_mid.
Qed.

Lemma concat_lookup rs i r p :
  rs !! i = Some r → p < length r →
  concat rs !! (length (concat (take i rs)) + p) = r !! p.
Proof.
  intros Hr Hp. rewrite (concat_split _ _ _ Hr).
  by rewrite lookup_app_r, Nat.add_sub', lookup_app_l by lia.
Qed.

Lemma concat_row rs i r :
  rs !! i = Some r →
  take (length r) (drop (length (concat (take i rs))) (concat rs)) = r.
Proof.
  intros Hr. rewrite (concat_split _ _ _ Hr).
  by rewrite drop_app_length, take_app_length.
Qed.

Lemma concat_take_S rs i r :
  rs !! i = Some r →
  length (concat (take (S i) rs)) = length (concat (take i rs)) + length r.
Proof.
  intros Hr. rewrite (take_S_r _ _ _ Hr), concat_app, length_app. cbn.
  by rewrite app_nil_r.
Qed.
End concat_rows.

(** ** The arrays and the rows *)

Lemma lower_bound_le j cs : lower_bound j cs ≤ length cs.
Proof. induction cs as [|c cs IH]; cbn; [done|]. case_decide; lia. Qed.

Section rep.
Implicit Types (m : SparseMatrix) (rs : list (list (nat * Z))) (r : list (nat * Z)).

Lemma rep_row_begin rs m i r :
  matrix_rep rs m → rs !! i = Some r → row_begin m i = length (concat (take i rs)).
Proof.
  intros [_ _ _ Hs] Hr. unfold row_begin.
  rewrite Hs, offsets_lookup by (apply lookup_lt_Some in Hr; lia). done.
Qed.

Lemma rep_row_end rs m i r :
  matrix_rep rs m → rs !! i = Some r →
  row_end m i = length (concat (take i rs)) + length r.
Proof.
  intros [_ _ _ Hs] Hr. unfold row_end.
  rewrite Hs, offsets_lookup by (apply lookup_lt_Some in Hr; lia). cbn.
  by apply concat_take_S.
Qed.

Lemma rep_find_pos rs m i j r :
  matrix_rep rs m → rs !! i = Some r →
  find_pos m i j = length (concat (take i rs)) + lower_bound j (r.*1).
Proof.
  intros Hm Hr. unfold find_pos.
  rewrite (rep_row_end _ _ _ _ Hm Hr), (rep_row_begin _ _ _ _ Hm Hr).
  rewrite Nat.add_sub', (rep_col_index _ _ Hm).
  rewrite <- fmap_drop, <- fmap_take. by rewrite (concat_row _ _ _ Hr).
Qed.

Lemma rep_stored_at rs m i j r :
  matrix_rep rs m → rs !! i = Some r →
  stored_at m i j (find_pos m i j)
  = bool_decide (r.*1 !! lower_bound j (r.*1) = Some j).
Proof.
  intros Hm Hr. unfold stored_at.
  rewrite (rep_find_pos _ _ _ _ _ Hm Hr), (rep_row_end _ _ _ _ Hm Hr).
  rewrite (rep_col_index _ _ Hm), list_lookup_fmap.
  pose proof (lower_bound_le j (r.*1)) as Hle. rewrite length_fmap in Hle.
  apply bool_decide_ext. rewrite list_lookup_fmap.
  destruct (decide (lower_bound j (r.*1) < length r)) as [Hlt|Hge].
  - rewrite (concat_lookup _ _ _ _ Hr Hlt). split; [by intros [_ ?]|]. split; [lia|done].
  - rewrite (lookup_ge_None_2 r) by lia. split; [lia|done].
Qed.
End rep.

Local Open Scope Z_scope.

(** ** The operations on the rows *)

Section ops_rows.
Implicit Types (m : SparseMatrix) (rs : list (list (nat * Z))) (r : list (nat * Z)).

(** [SetAt] writes one row and leaves the others alone. *)
Lemma SetAt_rows rs m row col v r :
  matrix_rep rs m → in_bounds m row col → rs !! Z.to_nat row = Some r →
  ∃ m', SetAt m row col v = inr m'
        ∧ matrix_rep (<[Z.to_nat row := row_set (Z.to_nat col) v r]> rs) m'
        ∧ rows m' = rows m ∧ cols m' = cols m.
Proof.
  intros Hm Hb Hr. unfold SetAt, row_set. rewrite decide_True by done. cbv zeta.
  rewrite (rep_stored_at _ _ _ _ _ Hm Hr), (rep_find_pos _ _ _ _ _ Hm Hr).
  pose proof (lower_bound_le (Z.to_nat col) (r.*1)) as Hle. rewrite length_fmap in Hle.
  destruct Hm as [Hn Hv Hc Hs].
  case_bool_decide as Hst; [|case_decide].
  - apply lookup_lt_Some in Hst as Hlt. rewrite length_fmap in Hlt.
    eexists. split; [done|]. split; [|done]. split; cbn.
    + by rewrite length_insert.
    + rewrite Hv, <- (concat_insert _ _ _ _ _ Hr Hlt). by rewrite list_fmap_insert.
    + rewrite Hc, <- (concat_insert _ _ _ _ _ Hr Hlt), list_fmap_insert. cbn.
      symmetry. apply list_insert_id. rewrite list_lookup_fmap.
      rewrite (concat_lookup _ _ _ _ Hr Hlt). by rewrite <- list_lookup_fmap.
    + rewrite Hs. symmetry. eapply offsets_insert_same; [done|]. by rewrite length_insert.
  - eexists. split; [done|]. by rewrite list_insert_id.
  - eexists. split; [done|]. split; [|done]. split; cbn.
    + by rewrite length_insert.
    + rewrite Hv, <- (concat_insert_at _ _ _ _ _ Hr Hle). by rewrite insert_at_fmap.
    + rewrite Hc, <- (concat_insert_at _ _ _ _ _ Hr Hle). by rewrite insert_at_fmap.
    + rewrite Hs. symmetry. eapply offsets_insert_longer; [done|].
      by rewrite insert_at_length.
Qed.

(** [GetAt] reads one row. *)
Lemma GetAt_rows rs m row col r :
  matrix_rep rs m → in_bounds m row col → rs !! Z.to_nat row = Some r →
  GetAt m row col = inr (row_get (Z.to_nat col) r).
Proof.
  intros Hm Hb Hr. unfold GetAt, row_get. rewrite decide_True by done. cbv zeta.
  rewrite (rep_stored_at _ _ _ _ _ Hm Hr), (rep_find_pos _ _ _ _ _ Hm Hr).
  case_bool_decide as Hst; [|done].
  apply lookup_lt_Some in Hst as Hlt. rewrite length_fmap in Hlt.
  by rewrite (rep_values _ _ Hm), !list_lookup_fmap, (concat_lookup _ _ _ _ Hr Hlt).
Qed.

Lemma rep_row_exists rs m row col :
  matrix_rep rs m → in_bounds m row col → is_Some (rs !! Z.to_nat row).
Proof.
  intros Hm [Hr _]. apply lookup_lt_is_Some. rewrite (rep_rows _ _ Hm). lia.
Qed.
End ops_rows.

(** ** One row *)

Section rows.
Implicit Types (r : list (nat * Z)) (j : nat) (v : Z).

(** The search of the arrays is the search of [std::map]'s insert. *)
Lemma smap_insert_lower_bound j v r :
  let ret := smap_insert j v r in
  ins_pos ret = lower_bound j (r.*1)
  ∧ ins_new ret = negb (bool_decide (r.*1 !! lower_bound j (r.*1) = Some j))
  ∧ ins_map ret = if ins_new ret then insert_at (ins_pos ret) (j, v) r else r.
Proof.
  induction r as [|[c x] r IH]; [done|]. cbn -[trichotomyT].
  destruct (trichotomyT lexico j c) as [[Hlt| ->]|Hgt]; cbn;
    unfold lexico, nat_lexico in *.
  - rewrite decide_False by lia. cbn. rewrite bool_decide_false; [done|]. intros [=]. lia.
  - rewrite decide_False by lia. cbn. by rewrite bool_decide_true.
  - rewrite decide_True by done. cbn. destruct IH as (-> & -> & ->).
    split; [done|]. split; [done|]. by case_bool_decide.
Qed.
End rows.

Section row_lemmas.
Implicit Types (r : list (nat * Z)) (j : nat) (v : Z).

Lemma row_set_stored j v r x :
  r.*1 !! lower_bound j (r.*1) = Some j →
  r !! lower_bound j (r.*1) = Some (j, x) →
  row_set j v r = smap_update_at (λ _, v) (lower_bound j (r.*1)) r.
Proof.
  intros Hst Hx. unfold row_set, smap_update_at. rewrite bool_decide_true by done.
  apply list_eq. intros i. destruct (decide (i = lower_bound j (r.*1))) as [->|Hne].
  - rewrite list_lookup_insert_eq by (by eapply lookup_lt_Some).
    by rewrite list_lookup_alter_eq, Hx.
  - by rewrite list_lookup_insert_ne, list_lookup_alter_ne.
Qed.

Lemma row_stored_value j r :
  r.*1 !! lower_bound j (r.*1) = Some j →
  ∃ x, r !! lower_bound j (r.*1) = Some (j, x).
Proof.
  rewrite list_lookup_fmap. destruct (r !! _) as [[j' x]|]; intros; simplify_eq/=.
  by exists x.
Qed.

Lemma row_set_new j v r :
  r.*1 !! lower_bound j (r.*1) ≠ Some j → v ≠ 0 →
  row_set j v r = ins_map (smap_insert j v r) ∧ ins_new (smap_insert j v r) = true.
Proof.
  intros Hst Hv. destruct (smap_insert_lower_bound j v r) as (Hp & Hn & Hm).
  rewrite bool_decide_false in Hn by done. cbn in Hn. rewrite Hn in Hm.
  unfold row_set. by rewrite bool_decide_false, decide_False, Hm, Hp.
Qed.

Lemma row_set_sorted j v r : smap_wf r → smap_wf (row_set j v r).
Proof.
  intros Hr. destruct (decide (r.*1 !! lower_bound j (r.*1) = Some j)) as [Hst|Hst].
  - destruct (row_stored_value _ _ Hst) as [x Hx].
    rewrite (row_set_stored _ _ _ _ Hst Hx). by apply smap_update_at_wf.
  - destruct (decide (v = 0)) as [->|Hv].
    + unfold row_set. by rewrite bool_decide_false, decide_True.
    + destruct (row_set_new _ _ _ Hst Hv) as [-> _]. by apply smap_insert_wf.
Qed.

Lemma row_set_Forall (P : nat * Z → Prop) j v r :
  P (j, v) → Forall P r → Forall P (row_set j v r).
Proof.
  intros Hjv Hr. unfold row_set. case_bool_decide; [|case_decide].
  - by apply Forall_insert.
  - done.
  - by apply Forall_insert_at.
Qed.

Lemma row_set_wf c j v r :
  (j < c)%nat → int_range v → row_wf c r → row_wf c (row_set j v r).
Proof.
  intros Hj Hv [Hs Hr]. split; [by apply row_set_sorted|].
  by apply row_set_Forall.
Qed.

(** The stored entries of a row as a finite map from columns to values. *)
Lemma row_stored_abs j r :
  smap_wf r →
  r.*1 !! lower_bound j (r.*1) = Some j ↔ is_Some (smap_abs r !! j).
Proof.
  intros Hr. destruct (smap_insert_lower_bound j 0 r) as (_ & Hn & _).
  rewrite smap_insert_new in Hn by done.
  destruct (smap_abs r !! j) as [x|] eqn:Hx.
  - rewrite bool_decide_false in Hn by done. symmetry in Hn.
    apply negb_false_iff, bool_decide_eq_true in Hn. split; [by eauto|done].
  - rewrite bool_decide_true in Hn by done. symmetry in Hn.
    apply negb_true_iff, bool_decide_eq_false in Hn. split; [done|by intros [??]].
Qed.

Lemma row_get_abs j r : smap_wf r → row_get j r = default 0 (smap_abs r !! j).
Proof.
  intros Hr. unfold row_get. case_bool_decide as Hst.
  - destruct (row_stored_value _ _ Hst) as [x Hx].
    rewrite list_lookup_fmap, Hx. cbn.
    assert ((j, x) ∈ r) as Hin by (by eapply list_elem_of_lookup_2).
    apply (smap_abs_lookup j x r Hr) in Hin. by rewrite Hin.
  - apply (not_iff_compat (row_stored_abs j r Hr)), eq_None_not_Some in Hst.
    by rewrite Hst.
Qed.

Lemma row_set_abs j v r :
  smap_wf r →
  smap_abs (row_set j v r)
  = if decide (v = 0 ∧ smap_abs r !! j = None) then smap_abs r
    else <[j := v]> (smap_abs r).
Proof.
  intros Hr. destruct (decide (r.*1 !! lower_bound j (r.*1) = Some j)) as [Hst|Hst].
  - destruct (row_stored_value _ _ Hst) as [x Hx].
    rewrite (row_set_stored _ _ _ _ Hst Hx).
    rewrite (smap_update_at_abs _ _ _ j x) by done.
    apply (row_stored_abs j r Hr) in Hst as [y Hy].
    rewrite decide_False; [done|]. rewrite Hy. by intros [_ ?].
  - pose proof Hst as Hnone.
    apply (not_iff_compat (row_stored_abs j r Hr)), eq_None_not_Some in Hnone.
    destruct (decide (v = 0)) as [->|Hv].
    + unfold row_set. by rewrite bool_decide_false, !decide_True.
    + destruct (row_set_new _ _ _ Hst Hv) as [-> Hn].
      rewrite smap_insert_abs, Hn. rewrite decide_False; [done|]. by intros [? _].
Qed.

Lemma row_get_row_set j v r j' :
  smap_wf r →
  row_get j' (row_set j v r) = if decide (j = j') then v else row_get j' r.
Proof.
  intros Hr. rewrite !row_get_abs, row_set_abs by (done || by apply row_set_sorted).
  case_decide as Hz; case_decide as Hj; subst.
  - destruct Hz as [-> ->]. done.
  - done.
  - by rewrite lookup_insert_eq.
  - by rewrite lookup_insert_ne.
Qed.

Lemma row_set_length j v r :
  length (row_set j v r)
  = (length r + if bool_decide (r.*1 !! lower_bound j (r.*1) = Some j) then 0
                else if decide (v = 0%Z) then 0 else 1)%nat.
Proof.
  unfold row_set. case_bool_decide; [|case_decide].
  - rewrite length_insert. lia.
  - lia.
  - rewrite insert_at_length. lia.
Qed.
End row_lemmas.

(** ** The operations and the invariant *)

Section matrix.
Implicit Types (m : SparseMatrix) (rs : list (list (nat * Z))).

Lemma offsets_replicate_nil {A} acc n :
  offsets acc (replicate n (@nil A)) = replicate (S n) acc.
Proof.
  revert acc. induction n as [|n IH]; intros acc; cbn; [done|].
  by rewrite Nat.add_0_r, IH.
Qed.

Lemma concat_replicate_nil {A} n : concat (replicate n (@nil A)) = [].
Proof. induction n; cbn; done. Qed.

Lemma Construct_rep r c :
  matrix_rep (replicate (Z.to_nat r) [])
    (mkMatrix (Z.to_nat r) (Z.to_nat c) [] [] (replicate (S (Z.to_nat r)) 0%nat)).
Proof.
  split; cbn.
  - by rewrite length_replicate.
  - by rewrite concat_replicate_nil.
  - by rewrite concat_replicate_nil.
  - by rewrite offsets_replicate_nil.
Qed.

Lemma Construct_ok r c :
  0 < r → 0 < c →
  ∃ m, Construct r c = inr m ∧ matrix_inv m
       ∧ rows m = Z.to_nat r ∧ cols m = Z.to_nat c ∧ values m = [].
Proof.
  intros Hr Hc. unfold Construct. rewrite decide_True by done.
  eexists. split; [done|]. split; [|done].
  split; [cbn; lia|]. split; [cbn; lia|].
  eexists. split; [apply Construct_rep|].
  apply Forall_replicate. split; [constructor|done].
Qed.

Lemma Construct_error r c : ¬ (0 < r ∧ 0 < c) → Construct r c = inl InvalidDimension.
Proof. intros. unfold Construct. by rewrite decide_False. Qed.

Lemma SetAt_error m row col v :
  ¬ in_bounds m row col → SetAt m row col v = inl IndexOutOfBounds.
Proof. intros. unfold SetAt. by rewrite decide_False. Qed.

Lemma GetAt_error m row col :
  ¬ in_bounds m row col → GetAt m row col = inl IndexOutOfBounds.
Proof. intros. unfold GetAt. by rewrite decide_False. Qed.

Lemma SetAt_in_bounds m row col v m' :
  SetAt m row col v = inr m' → in_bounds m row col.
Proof. unfold SetAt. by case_decide. Qed.

Lemma in_bounds_col m row col : in_bounds m row col → (Z.to_nat col < cols m)%nat.
Proof. intros [_ ?]. lia. Qed.

(** A write in bounds succeeds, keeps the dimensions and the invariant. *)
Lemma SetAt_inv_ok m row col v :
  matrix_inv m → int_range v → in_bounds m row col →
  ∃ m', SetAt m row col v = inr m' ∧ matrix_inv m'
        ∧ rows m' = rows m ∧ cols m' = cols m.
Proof.
  intros (Hr & Hc & rs & Hm & Hrs) Hv Hb.
  destruct (rep_row_exists _ _ _ _ Hm Hb) as [r Hrow].
  destruct (SetAt_rows _ _ _ _ v _ Hm Hb Hrow) as (m' & Hset & Hm' & Hr' & Hc').
  exists m'. split; [done|]. split; [|done].
  split; [lia|]. split; [lia|]. eexists. split; [done|]. rewrite Hc'.
  apply Forall_insert; [done|]. apply row_set_wf; [by eapply in_bounds_col|done|].
  by eapply (proj1 (Forall_lookup _ _) Hrs).
Qed.

Lemma SetAt_inv m row col v m' :
  matrix_inv m → int_range v → SetAt m row col v = inr m' → matrix_inv m'.
Proof.
  intros Hm Hv Hset. pose proof (SetAt_in_bounds _ _ _ _ _ Hset) as Hb.
  destruct (SetAt_inv_ok m row col v Hm Hv Hb) as (m'' & Hset' & ? & _).
  by replace m' with m'' by congruence.
Qed.

Lemma SetAt_dims m row col v m' :
  SetAt m row col v = inr m' → rows m' = rows m ∧ cols m' = cols m.
Proof. unfold SetAt. intros. repeat case_match; by simplify_eq/=. Qed.

(** Reading after a write: the value written at the same coordinate, the
    value that was there at any other. *)
Lemma GetAt_SetAt_inv m row col v m' row' col' :
  matrix_inv m → SetAt m row col v = inr m' → in_bounds m row' col' →
  GetAt m' row' col'
  = if decide (row = row' ∧ col = col') then inr v else GetAt m row' col'.
Proof.
  intros (_ & _ & rs & Hm & Hrs) Hset Hb'.
  pose proof (SetAt_in_bounds _ _ _ _ _ Hset) as Hb.
  destruct (rep_row_exists _ _ _ _ Hm Hb) as [r Hrow].
  destruct (rep_row_exists _ _ _ _ Hm Hb') as [r' Hrow'].
  destruct (SetAt_rows _ _ _ _ v _ Hm Hb Hrow) as (m'' & Hset' & Hm' & Hr' & Hc').
  replace m'' with m' in * by congruence. clear Hset'. rewrite (GetAt_rows _ _ _ _ _ Hm Hb' Hrow').
  assert (smap_wf r) as Hwf by (by eapply (proj1 (Forall_lookup _ _) Hrs)).
  destruct Hb as [? ?], Hb' as [? ?].
  destruct (decide (row = row')) as [<-|Hne].
  - simplify_eq. erewrite GetAt_rows; [|done|by unfold in_bounds; rewrite Hr', Hc'|].
    2: { apply list_lookup_insert_eq. by eapply lookup_lt_Some. }
    rewrite row_get_row_set by done.
    repeat case_decide; try done; try lia; naive_solver lia.
  - erewrite GetAt_rows; [|done|by unfold in_bounds; rewrite Hr', Hc'|].
    2: { rewrite list_lookup_insert_ne by lia. done. }
    rewrite decide_False; [done|]. by intros [? _].
Qed.

(** What a decoder can check. *)
Lemma matrix_inv_consistent m : matrix_inv m → consistent m.
Proof.
  intros (_ & _ & rs & [Hn Hv Hc Hs] & _). unfold consistent.
  rewrite Hv, Hc, Hs, !length_fmap, offsets_length, offsets_last, Hn. done.
Qed.

(** The conditions of section 3 on the arrays. *)
Lemma matrix_inv_arrays m :
  matrix_inv m →
  length (values m) = length (col_index m)
  ∧ length (row_start m) = S (rows m)
  ∧ Sorted le (row_start m)
  ∧ last (row_start m) = Some (length (values m))
  ∧ Forall (λ j, (j < cols m)%nat) (col_index m)
  ∧ Forall int_range (values m).
Proof.
  intros Hm. destruct (matrix_inv_consistent m Hm) as (? & ? & ?).
  destruct Hm as (_ & _ & rs & [Hn Hv Hc Hs] & Hrs).
  split_and!; try done.
  - rewrite Hs. apply offsets_sorted.
  - rewrite Hc. apply Forall_fmap, Forall_concat.
    eapply Forall_impl; [done|]. intros r [_ Hr]. eapply Forall_impl; [done|].
    by intros ? [? _].
  - rewrite Hv. apply Forall_fmap, Forall_concat.
    eapply Forall_impl; [done|]. intros r [_ Hr]. eapply Forall_impl; [done|].
    by intros ? [_ ?].
Qed.

Lemma SetAll_inv m ws m' :
  matrix_inv m → Forall (λ w, int_range w.2) ws →
  SetAll m ws = inr m' → matrix_inv m'.
Proof.
  intros Hm Hws. revert m Hm. induction Hws as [|[[row col] v] ws Hv _ IH];
    intros m Hm Hset; simplify_eq/=; [done|].
  destruct (SetAt m row col v) as [e|m1] eqn:H1; [done|].
  eauto using SetAt_inv.
Qed.
End matrix.
