(* ===== verification/Storage.v ===== *)
(** * Storage: the value array of the matrix as [main] sees it

    [main] prints [m.value_data()] after each write (src/main.cpp, lines
    238-244).  In uBLAS that is the whole array the matrix has allocated for
    its values, [capacity_] slots of which the first [filled2_] hold the
    entries; the comments beside the writes show it: [{3, 1, 2, 0, ...}].
    The specification's [ValueArray] is the entries alone.

    [compressed_matrix] is the object [Matrix] of the source: the entries
    ([SparseMatrix], with the operations of [Matrix]) and the slots of the
    array that are not in use.  The constructor allocates
    [restrict_capacity] slots and initialises none of them; an insertion
    shifts the entries behind it one slot to the right, into the first
    unused slot, after [reserve] has doubled a full array.

    The entries are listed in the array in row-major order, ascending by
    column within a row, whatever the order of the writes:
    [stored_coords] gives their coordinates in the order of the arrays. *)

From Stdlib Require Import ZArith Lia.
From stdpp Require Import base tactics option list numbers lexico sorting gmap.
From S2P Require Import Prelude StdMap Matrix.

Local Open Scope Z_scope.

(** ** The object *)

(** [Matrix], line 32. *)
Record compressed_matrix := mkCompressed {
  entries : SparseMatrix;
  unused : list Z
}.

(** [filled2_]: the number of entries. *)
Definition filled (m : compressed_matrix) : nat := length (ValueArray (entries m)).

(** [m.value_data()]: the array, in its whole length. *)
Definition value_data (m : compressed_matrix) : list Z :=
  ValueArray (entries m) ++ unused m.

(** [capacity_]: the length of the array. *)
Definition capacity (m : compressed_matrix) : nat := length (value_data m).

(** [restrict_capacity]: at least one slot per row or per column, whichever
    are fewer, and no more slots than the matrix has elements. *)
Definition restrict_capacity (size1 size2 non_zeros : nat) : nat :=
  let non_zeros := (non_zeros `max` (size1 `min` size2))%nat in
  if decide ((0 < size1)%nat ∧ (size2 ≤ non_zeros `div` size1)%nat)
  then (size1 * size2)%nat else non_zeros.

(** An array of [n] slots as the allocator hands it out: slot [k] holds
    [uninit k], whatever that is. *)
Definition allocate (uninit : nat → Z) (n : nat) : list Z := uninit <$> seq 0 n.

(** The unused slots once the array holds [filled'] entries.  An overwrite
    leaves them alone.  An insertion shifts the entries behind it into the
    first unused slot; when there is none, [reserve (2 * filled2_, true)]
    has first enlarged the array by slots that hold zero. *)
Definition unused_after (m : compressed_matrix) (filled' : nat) : list Z :=
  if decide (filled' ≤ filled m)%nat then unused m
  else match unused m with
       | _ :: rest => rest
       | [] =>
           replicate
             (restrict_capacity (rows (entries m)) (cols (entries m)) (2 * filled m)
              - filled') 0
       end.

(** ** Reading the entries *)

(** The element at [(i, j)], zero where nothing is stored. *)
Definition entry (m : SparseMatrix) (i j : nat) : Z :=
  match GetAt m (Z.of_nat i) (Z.of_nat j) with
  | inr v => v
  | inl _ => 0
  end.

(** The columns of the entries of row [i], in the order of the arrays. *)
Definition row_cols (m : SparseMatrix) (i : nat) : list nat :=
  take (row_end m i - row_begin m i) (drop (row_begin m i) (col_index m)).

(** The coordinates of the entries, in the order of the arrays. *)
Definition stored_coords (m : SparseMatrix) : list (nat * nat) :=
  i ← seq 0 (rows m); (pair i) <$> row_cols m i.

(** The coordinates of rows laid out one after the other from row [s]. *)
Fixpoint coords_from (s : nat) (rs : list (list (nat * Z))) : list (nat * nat) :=
  match rs with
  | [] => []
  | r :: rs' => ((pair s) <$> r.*1) ++ coords_from (S s) rs'
  end.

(** ** The matrix of the demonstration *)

(** The entries after the four writes of [main]. *)
Definition demo_matrix : SparseMatrix :=
  mkMatrix 10 10 [7; 1; 2] [4; 5; 6]%nat [0; 3; 3; 3; 3; 3; 3; 3; 3; 3; 3]%nat.

Local Open Scope nat_scope.

(** ** The storage *)

Section storage.
Implicit Types (m : compressed_matrix) (e : SparseMatrix).

Lemma value_data_filled m : take (filled m) (value_data m) = ValueArray (entries m).
Proof. unfold value_data, filled. by rewrite take_app_length. Qed.

Lemma value_data_unused m : drop (filled m) (value_data m) = unused m.
Proof. unfold value_data, filled. by rewrite drop_app_length. Qed.

Lemma capacity_filled m : capacity m = filled m + length (unused m).
Proof. unfold capacity, value_data, filled. by rewrite length_app. Qed.

Lemma length_allocate uninit n : length (allocate uninit n) = n.
Proof. unfold allocate. by rewrite length_fmap, length_seq. Qed.

Lemma restrict_capacity_square n : 1 < n → restrict_capacity n n 0 = n.
Proof.
  intros Hn. unfold restrict_capacity. rewrite Nat.min_id, Nat.max_0_l.
  rewrite Nat.div_same by lia. rewrite decide_False by lia. done.
Qed.

(** An overwrite leaves the unused slots; an insertion into an array with a
    free slot takes the first of them. *)
Lemma unused_after_same m : unused_after m (filled m) = unused m.
Proof. unfold unused_after. by rewrite decide_True. Qed.

Lemma unused_after_insert m :
  filled m < capacity m → unused_after m (S (filled m)) = drop 1 (unused m).
Proof.
  rewrite capacity_filled. intros Hc. unfold unused_after.
  rewrite decide_False by lia. destruct (unused m); [cbn in Hc; lia|done].
Qed.

(** The unused slots after a write, as slots of the array before it. *)
Lemma unused_after_spec m n :
  filled m ≤ n ∧ n ≤ S (filled m) ∧ n ≤ capacity m →
  unused_after m n = drop n (value_data m)
  ∧ n + length (unused_after m n) = capacity m.
Proof.
  intros (H1 & H2 & H3). rewrite capacity_filled in *. unfold unused_after.
  case_decide.
  - assert (n = filled m) as -> by lia. by rewrite value_data_unused.
  - assert (n = S (filled m)) as -> by lia.
    replace (S (filled m)) with (filled m + 1) by lia.
    rewrite <- drop_drop, value_data_unused.
    destruct (unused m); cbn in *; [lia|]. split; [done|lia].
Qed.
End storage.

(** ** The coordinates of the entries *)

Section coords.
Implicit Types (m : SparseMatrix) (rs : list (list (nat * Z))) (r : list (nat * Z)).

Lemma rep_row_cols rs m i r :
  matrix_rep rs m → rs !! i = Some r → row_cols m i = r.*1.
Proof.
  intros Hm Hr. unfold row_cols.
  rewrite (rep_row_end _ _ _ _ Hm Hr), (rep_row_begin _ _ _ _ Hm Hr).
  rewrite Nat.add_sub', (rep_col_index _ _ Hm).
  rewrite <- fmap_drop, <- fmap_take. by rewrite (concat_row _ _ _ Hr).
Qed.

Lemma bind_seq_coords (g : nat → list nat) s rs :
  (∀ i r, rs !! i = Some r → g (s + i) = r.*1) →
  seq s (length rs) ≫= (λ i, pair i <$> g i) = coords_from s rs.
Proof.
  revert s. induction rs as [|r rs IH]; intros s Hg; [done|].
  cbn [length seq coords_from]. rewrite bind_cons. f_equal.
  - specialize (Hg 0 r eq_refl). by rewrite Nat.add_0_r in Hg; rewrite Hg.
  - apply IH. intros i r' Hr'. specialize (Hg (S i) r' Hr').
    by rewrite Nat.add_succ_r in Hg.
Qed.

Lemma rep_stored_coords rs m : matrix_rep rs m → stored_coords m = coords_from 0 rs.
Proof.
  intros Hm. unfold stored_coords. rewrite <- (rep_rows _ _ Hm).
  apply bind_seq_coords. intros i r Hr. by apply (rep_row_cols rs).
Qed.

Lemma elem_of_coords_from s rs i j :
  (i, j) ∈ coords_from s rs ↔ ∃ r, s ≤ i ∧ rs !! (i - s) = Some r ∧ j ∈ r.*1.
Proof.
  revert s. induction rs as [|r rs IH]; intros s; cbn [coords_from].
  { rewrite elem_of_nil. split; [done|]. by intros (? & _ & ? & _). }
  rewrite elem_of_app, list_elem_of_fmap, IH. split.
  - intros [(j' & [= -> ->] & Hj)|(r' & Hs & Hr' & Hj)].
    + exists r. rewrite Nat.sub_diag. by split_and!.
    + exists r'. split_and!; [lia| |done].
      by replace (i - s) with (S (i - S s)) by lia.
  - intros (r' & Hs & Hr' & Hj). destruct (decide (i = s)) as [->|Hne].
    + rewrite Nat.sub_diag in Hr'. injection Hr' as ->. left. by exists j.
    + right. exists r'. split_and!; [lia| |done].
      by replace (i - s) with (S (i - S s)) in Hr' by lia.
Qed.

Lemma rep_stored_coords_elem rs m i j :
  matrix_rep rs m →
  (i, j) ∈ stored_coords m ↔ ∃ r, rs !! i = Some r ∧ j ∈ r.*1.
Proof.
  intros Hm. rewrite (rep_stored_coords _ _ Hm), elem_of_coords_from.
  rewrite Nat.sub_0_r. split; [intros (r & _ & ? & ?)|intros (r & ? & ?)]; exists r;
    by split_and!; try lia.
Qed.

Lemma row_get_elem r j v : smap_wf r → (j, v) ∈ r → row_get j r = v.
Proof.
  intros Hr Hjv. rewrite row_get_abs by done. unfold smap_abs.
  by rewrite (elem_of_list_to_map_1 r j v) by (by try apply smap_wf_NoDup).
Qed.

Lemma row_values r : smap_wf r → (λ j, row_get j r) <$> r.*1 = r.*2.
Proof.
  intros Hr. rewrite <- list_fmap_compose. apply Forall_fmap_ext, Forall_forall.
  intros [j v] Hjv. by apply row_get_elem.
Qed.

Lemma rep_entry rs m i j r :
  matrix_rep rs m → rs !! i = Some r → j < cols m → entry m i j = row_get j r.
Proof.
  intros Hm Hr Hj. unfold entry.
  assert (in_bounds m (Z.of_nat i) (Z.of_nat j)) as Hb.
  { apply lookup_lt_Some in Hr. rewrite (rep_rows _ _ Hm) in Hr.
    unfold in_bounds. lia. }
  rewrite (GetAt_rows rs m _ _ r Hm Hb) by (by rewrite Nat2Z.id).
  by rewrite Nat2Z.id.
Qed.

Lemma coords_from_values (f : nat → nat → Z) s rs :
  (∀ i r j, rs !! i = Some r → j ∈ r.*1 → f (s + i) j = row_get j r) →
  Forall smap_wf rs →
  (λ c, f c.1 c.2) <$> coords_from s rs = (concat rs).*2.
Proof.
  revert s. induction rs as [|r rs IH]; intros s Hf Hrs; [done|].
  apply Forall_cons in Hrs as [Hr Hrs]. cbn [coords_from concat].
  rewrite !fmap_app. f_equal.
  - rewrite <- list_fmap_compose, <- (row_values r Hr).
    apply Forall_fmap_ext, Forall_forall. intros j Hj. cbn.
    specialize (Hf 0 r j eq_refl Hj). by rewrite Nat.add_0_r in Hf.
  - apply IH; [|done]. intros i r' j Hr' Hj. specialize (Hf (S i) r' j Hr' Hj).
    by rewrite Nat.add_succ_r in Hf.
Qed.

Lemma coords_from_sorted s rs :
  Forall smap_wf rs → StronglySorted lexico (coords_from s rs).
Proof.
  revert s. induction rs as [|r rs IH]; intros s Hrs; [constructor|].
  apply Forall_cons in Hrs as [Hr Hrs]. cbn [coords_from].
  apply StronglySorted_app_2; [|by apply (StronglySorted_fmap _ lexico); [right|]|by apply IH].
  intros [i j] [i' j'] Hx Hy. apply list_elem_of_fmap in Hx as (? & [= -> ->] & _).
  apply elem_of_coords_from in Hy as (_ & Hi & _). left. cbn. unfold lexico, nat_lexico. lia.
Qed.

Lemma elem_of_keys_abs j r : j ∈ r.*1 ↔ is_Some (smap_abs r !! j).
Proof.
  unfold smap_abs. rewrite <- not_eq_None_Some, <- not_elem_of_list_to_map.
  split; [by intros ??|apply dec_stable].
Qed.

Lemma row_stored_elem j r :
  smap_wf r → r.*1 !! lower_bound j (r.*1) = Some j ↔ j ∈ r.*1.
Proof. intros Hr. by rewrite (row_stored_abs j r Hr), elem_of_keys_abs. Qed.

Lemma row_set_keys c v r j :
  smap_wf r → v ≠ 0%Z → j ∈ (row_set c v r).*1 ↔ j = c ∨ j ∈ r.*1.
Proof.
  intros Hr Hv. rewrite !elem_of_keys_abs, row_set_abs by done.
  rewrite decide_False by (by intros [? _]).
  rewrite lookup_insert_is_Some'. split; (intros [?|?]; [by left|by right]).
Qed.
End coords.

(** ** Under the invariant *)

Section inv.
Implicit Types (m : SparseMatrix).

Lemma ValueArray_coords m :
  matrix_inv m → ValueArray m = (λ c, entry m c.1 c.2) <$> stored_coords m.
Proof.
  intros (_ & _ & rs & Hm & Hrs). unfold ValueArray.
  rewrite (rep_values _ _ Hm), (rep_stored_coords _ _ Hm). symmetry.
  apply (coords_from_values (entry m) 0).
  - intros i r j Hr Hj. apply (rep_entry rs); [done..|].
    apply list_elem_of_fmap in Hj as ([j' v] & -> & Hjv).
    pose proof (Forall_lookup_1 _ _ _ _ Hrs Hr) as [_ Hc].
    rewrite Forall_forall in Hc. by destruct (Hc _ Hjv).
  - eapply Forall_impl; [apply Hrs|]. by intros r [? _].
Qed.

Lemma stored_coords_sorted m : matrix_inv m → StronglySorted lexico (stored_coords m).
Proof.
  intros (_ & _ & rs & Hm & Hrs). rewrite (rep_stored_coords _ _ Hm).
  apply coords_from_sorted. eapply Forall_impl; [apply Hrs|]. by intros r [? _].
Qed.

Lemma stored_coords_stored m i j :
  matrix_inv m →
  (i, j) ∈ stored_coords m ↔ stored_at m i j (find_pos m i j) = true.
Proof.
  intros (_ & _ & rs & Hm & Hrs). rewrite (rep_stored_coords_elem _ _ _ _ Hm).
  destruct (rs !! i) as [r|] eqn:Hr.
  - pose proof (Forall_lookup_1 _ _ _ _ Hrs Hr) as [Hwf _].
    rewrite (rep_stored_at _ _ _ _ _ Hm Hr), bool_decide_eq_true, row_stored_elem by done.
    split; [by intros (? & [= <-] & ?)|by eauto].
  - split; [by intros (? & ? & _)|]. unfold stored_at, row_end.
    rewrite (rep_row_start _ _ Hm), (lookup_ge_None_2 (offsets 0 rs)).
    + intros [? _]%bool_decide_eq_true. cbn in *. lia.
    + apply lookup_ge_None_1 in Hr. rewrite offsets_length. lia.
Qed.

Lemma SetAt_stored_coords m row col v m' :
  matrix_inv m → v ≠ 0%Z → SetAt m row col v = inr m' →
  ∀ c, c ∈ stored_coords m' ↔ c = (Z.to_nat row, Z.to_nat col) ∨ c ∈ stored_coords m.
Proof.
  intros (_ & _ & rs & Hm & Hrs) Hv Hs [i j].
  pose proof (SetAt_in_bounds _ _ _ _ _ Hs) as Hb.
  destruct (rep_row_exists _ _ _ _ Hm Hb) as [r Hr].
  destruct (SetAt_rows _ _ _ _ v _ Hm Hb Hr) as (m'' & Hs' & Hm' & _).
  replace m'' with m' in Hm' by congruence.
  pose proof (Forall_lookup_1 _ _ _ _ Hrs Hr) as [Hwf _].
  rewrite (rep_stored_coords_elem _ _ _ _ Hm'), (rep_stored_coords_elem _ _ _ _ Hm).
  destruct (decide (i = Z.to_nat row)) as [->|Hne].
  - rewrite list_lookup_insert_eq by (by eapply lookup_lt_Some). split.
    + intros (? & [= <-] & [->|Hj]%row_set_keys); [by left|right; by eauto|done..].
    + intros Hc. eexists. split; [done|]. apply row_set_keys; [done..|].
      destruct Hc as [[= ->]|(r' & Hr' & Hj)]; [by left|right]. congruence.
  - rewrite list_lookup_insert_ne by done. split; [by right|by intros [[= ? ?]|?]].
Qed.

Lemma SetAt_values_length m row col v m' :
  SetAt m row col v = inr m' →
  length (ValueArray m')
  = length (ValueArray m)
    + (if stored_at m (Z.to_nat row) (Z.to_nat col)
            (find_pos m (Z.to_nat row) (Z.to_nat col)) then 0
       else if decide (v = 0%Z) then 0 else 1).
Proof.
  unfold SetAt, ValueArray. case_decide; [|done]. cbv zeta.
  destruct (stored_at _ _ _ _); [|case_decide]; intros [= <-]; cbn.
  - rewrite length_insert. lia.
  - lia.
  - rewrite insert_at_length. lia.
Qed.
End inv.

(** ** The matrix of the demonstration *)

(** The four writes of [main], as one sequence. *)
Lemma demo_matrix_writes :
  match Construct 10 10 with
  | inr m => SetAll m [(0, 5, 1); (0, 6, 2); (0, 4, 3); (0, 4, 7)]%Z
  | inl e => inl e
  end = inr demo_matrix.
Proof. by vm_compute. Qed.

Lemma demo_matrix_inv : matrix_inv demo_matrix.
Proof.
  destruct (Construct_ok 10 10) as (m0 & Hc & Hm0 & _); [done..|].
  pose proof demo_matrix_writes as Hw. rewrite Hc in Hw.
  eapply SetAll_inv; [apply Hm0| |apply Hw].
  repeat constructor; by vm_compute.
Qed.

(** ** Main results *)

(** C15.  The array [value_data()] lists the entries in row-major order and
    then the slots that are not in use: for a matrix that satisfies the
    invariant, the array is the elements read at the stored coordinates,
    followed by the unused slots; the stored coordinates ascend strictly,
    by row and within a row by column, whatever the order of the writes
    was; and they are exactly the coordinates at which an entry is
    stored. *)
Theorem value_data_row_major (m : compressed_matrix) :
  matrix_inv (entries m) →
  value_data m
  = ((λ c, entry (entries m) c.1 c.2) <$> stored_coords (entries m)) ++ unused m
  ∧ StronglySorted lexico (stored_coords (entries m))
  ∧ ∀ i j, (i, j) ∈ stored_coords (entries m)
           ↔ stored_at (entries m) i j (find_pos (entries m) i j) = true.
Proof.
  intros Hm. split_and!.
  - unfold value_data. by rewrite <- ValueArray_coords.
  - by apply stored_coords_sorted.
  - intros i j. by apply stored_coords_stored.
Qed.

Lemma value_data_row_major_witness :
  let m := mkCompressed demo_matrix (replicate 7 0%Z) in
  value_data m
  = ((λ c, entry (entries m) c.1 c.2) <$> stored_coords (entries m)) ++ unused m
  ∧ StronglySorted lexico (stored_coords (entries m))
  ∧ ∀ i j, (i, j) ∈ stored_coords (entries m)
           ↔ stored_at (entries m) i j (find_pos (entries m) i j) = true.
Proof. apply value_data_row_major, demo_matrix_inv. Defined.
