(* ===== verification/Codec.v ===== *)
(** * Codec: the binary form of a matrix (spec.md, section 4.2)

    [save_matrix] and [load_matrix] in src/main.cpp hand the matrix to a
    Boost binary archive; the byte layout here is the one the specification
    fixes: rows, cols, the entry count, then the arrays [values],
    [col_index] and [row_start], every integer in the same fixed width.
    The width is 32 bits and the byte order little-endian, two's complement
    for the values (the specification leaves both to the implementation and
    asks that they be stated).

    [Decode] reads the three header fields, then the arrays with the lengths
    the header declares.  It fails with [TruncatedInput] when the bytes end
    before a field or an array is complete, and with [MalformedInput] when a
    header field or an index is negative or the last row start is not the
    entry count.  Bytes after the last array are ignored. *)

From Stdlib Require Import ZArith Lia Ascii.
From stdpp Require Import base tactics option list numbers sorting.
From S2P Require Import Prelude StdMap Matrix.

Local Open Scope Z_scope.

(** ** Integers as four bytes *)

Definition byte (n : Z) : ascii := ascii_of_N (Z.to_N n).
Definition byte_value (c : ascii) : Z := Z.of_N (char_code c).

(** The four bytes of [z], least significant first. *)
Definition encode_int (z : Z) : cstring :=
  let u := z `mod` 4294967296 in
  [ byte (u `mod` 256); byte ((u / 256) `mod` 256);
    byte ((u / 256 / 256) `mod` 256); byte ((u / 256 / 256 / 256) `mod` 256) ].

(** The integer at the head of [bs] and the bytes after it. *)
Definition decode_int (bs : cstring) : option (Z * cstring) :=
  match bs with
  | b0 :: b1 :: b2 :: b3 :: rest =>
      Some (wrap (byte_value b0 + 256 * byte_value b1 + 65536 * byte_value b2
                  + 16777216 * byte_value b3), rest)
  | _ => None
  end.

Definition encode_ints (zs : list Z) : cstring := concat (encode_int <$> zs).

(** The integers of a sequence of whole four-byte groups. *)
Fixpoint decode_all (bs : cstring) : list Z :=
  match bs with
  | b0 :: b1 :: b2 :: b3 :: rest =>
      wrap (byte_value b0 + 256 * byte_value b1 + 65536 * byte_value b2
            + 16777216 * byte_value b3) :: decode_all rest
  | _ => []
  end.

(** An array of [n] integers at the head of [bs], when [bs] is long enough. *)
Definition decode_ints (n : Z) (bs : cstring) : option (list Z * cstring) :=
  if decide (4 * n ≤ Z.of_nat (length bs)) then
    Some (decode_all (take (Z.to_nat (4 * n)) bs), drop (Z.to_nat (4 * n)) bs)
  else None.

(** ** The codec *)

Inductive codec_error := TruncatedInput | MalformedInput.

#[export] Instance codec_error_eq_dec : EqDecision codec_error.
Proof. solve_decision. Defined.

(** [Encode(matrix)] *)
Definition Encode (m : SparseMatrix) : cstring :=
  encode_int (Z.of_nat (rows m))
  ++ encode_int (Z.of_nat (cols m))
  ++ encode_int (Z.of_nat (length (values m)))
  ++ encode_ints (values m)
  ++ encode_ints (Z.of_nat <$> col_index m)
  ++ encode_ints (Z.of_nat <$> row_start m).

(** The checks of [Decode] on what it has read. *)
Definition well_formed (r c n : Z) (cis rss : list Z) : Prop :=
  0 ≤ r ∧ 0 ≤ c ∧ Forall (λ z, 0 ≤ z) cis ∧ Forall (λ z, 0 ≤ z) rss
  ∧ last rss = Some n.

#[export] Instance well_formed_dec r c n cis rss : Decision (well_formed r c n cis rss).
Proof. unfold well_formed. apply _. Defined.

(** [Decode(bytes)] *)
Definition Decode (bytes : cstring) : codec_error + SparseMatrix :=
  match decode_int bytes with
  | None => inl TruncatedInput
  | Some (r, bs1) =>
  match decode_int bs1 with
  | None => inl TruncatedInput
  | Some (c, bs2) =>
  match decode_int bs2 with
  | None => inl TruncatedInput
  | Some (n, bs3) =>
      if decide (r < 0 ∨ n < 0) then inl MalformedInput else
      match decode_ints n bs3 with
      | None => inl TruncatedInput
      | Some (vals, bs4) =>
      match decode_ints n bs4 with
      | None => inl TruncatedInput
      | Some (cis, bs5) =>
      match decode_ints (r + 1) bs5 with
      | None => inl TruncatedInput
      | Some (rss, _) =>
          if decide (well_formed r c n cis rss) then
            inr (mkMatrix (Z.to_nat r) (Z.to_nat c) vals
                   (Z.to_nat <$> cis) (Z.to_nat <$> rss))
          else inl MalformedInput
      end end end
  end end end.

(** A matrix every field of which fits the format. *)
Definition encodable (m : SparseMatrix) : Prop :=
  consistent m
  ∧ Z.of_nat (rows m) < int_max ∧ Z.of_nat (cols m) ≤ int_max
  ∧ Z.of_nat (length (values m)) ≤ int_max
  ∧ Forall int_range (values m)
  ∧ Forall (λ j, Z.of_nat j ≤ int_max) (col_index m)
  ∧ Forall (λ s, Z.of_nat s ≤ int_max) (row_start m).

#[export] Instance encodable_dec m : Decision (encodable m).
Proof. unfold encodable. apply _. Defined.

(** ** Four bytes *)

Lemma byte_value_byte n : 0 ≤ n < 256 → byte_value (byte n) = n.
Proof.
  intros Hn. unfold byte_value, byte, char_code.
  rewrite N_ascii_embedding by lia. lia.
Qed.

(** A 32-bit value is the sum of its four bytes. *)
Lemma bytes_sum u :
  0 ≤ u < 4294967296 →
  u `mod` 256 + 256 * ((u / 256) `mod` 256) + 65536 * ((u / 256 / 256) `mod` 256)
  + 16777216 * ((u / 256 / 256 / 256) `mod` 256) = u.
Proof.
  intros Hu.
  pose proof (Z.div_mod u 256). pose proof (Z.mod_pos_bound u 256).
  pose proof (Z.div_mod (u / 256) 256). pose proof (Z.mod_pos_bound (u / 256) 256).
  pose proof (Z.div_mod (u / 256 / 256) 256).
  pose proof (Z.mod_pos_bound (u / 256 / 256) 256).
  pose proof (Z.div_mod (u / 256 / 256 / 256) 256).
  pose proof (Z.mod_pos_bound (u / 256 / 256 / 256) 256).
  assert (u / 256 / 256 / 256 / 256 = 0)
    by (rewrite !Z.div_div by lia; apply Z.div_small; lia).
  lia.
Qed.

Lemma encode_int_length z : length (encode_int z) = 4%nat.
Proof. done. Qed.

Lemma decode_encode_word z :
  let u := z `mod` 4294967296 in
  wrap (byte_value (byte (u `mod` 256)) + 256 * byte_value (byte ((u / 256) `mod` 256))
        + 65536 * byte_value (byte ((u / 256 / 256) `mod` 256))
        + 16777216 * byte_value (byte ((u / 256 / 256 / 256) `mod` 256)))
  = wrap z.
Proof.
  intros u. rewrite !byte_value_byte by (apply Z.mod_pos_bound; lia).
  rewrite bytes_sum by (apply Z.mod_pos_bound; lia).
  apply wrap_congr with (q := - (z / 4294967296)). subst u. zmod.
Qed.

Lemma decode_encode_int z rest :
  int_range z → decode_int (encode_int z ++ rest) = Some (z, rest).
Proof.
  intros Hz. cbn. rewrite decode_encode_word. by rewrite wrap_small.
Qed.

(** ** Arrays *)

Lemma encode_ints_length zs : length (encode_ints zs) = (4 * length zs)%nat.
Proof.
  unfold encode_ints. induction zs as [|z zs IH]; [done|].
  rewrite fmap_cons, concat_cons, length_app, IH, encode_int_length. cbn. lia.
Qed.

Lemma decode_all_encode zs :
  Forall int_range zs → decode_all (encode_ints zs) = zs.
Proof.
  unfold encode_ints. induction 1 as [|z zs Hz _ IH]; [done|].
  rewrite fmap_cons, concat_cons. cbn. rewrite decode_encode_word, IH.
  by rewrite wrap_small.
Qed.

Lemma decode_encode_ints zs rest :
  Forall int_range zs →
  decode_ints (Z.of_nat (length zs)) (encode_ints zs ++ rest) = Some (zs, rest).
Proof.
  intros Hzs. unfold decode_ints.
  rewrite length_app, encode_ints_length, decide_True by lia.
  replace (Z.to_nat (4 * Z.of_nat (length zs))) with (length (encode_ints zs))
    by (rewrite encode_ints_length; lia).
  by rewrite take_app_length, drop_app_length, decode_all_encode.
Qed.

Lemma decode_ints_short n bs :
  Z.of_nat (length bs) < 4 * n → decode_ints n bs = None.
Proof. intros. unfold decode_ints. rewrite decide_False; [done|lia]. Qed.

Lemma decode_all_length bs : length (decode_all bs) = (length bs / 4)%nat.
Proof.
  induction bs as [bs IH] using (induction_ltof1 _ (@length _)); unfold ltof in IH.
  destruct bs as [|b0 [|b1 [|b2 [|b3 rest]]]]; try done.
  cbn [decode_all length]. rewrite IH by (cbn; lia).
  change (S (S (S (S (length rest))))) with (1 * 4 + length rest)%nat.
  rewrite Nat.add_comm, Nat.div_add by done. lia.
Qed.

Lemma decode_ints_length n bs zs rest :
  0 ≤ n → decode_ints n bs = Some (zs, rest) → length zs = Z.to_nat n.
Proof.
  unfold decode_ints. intros Hn Hd. case_decide; simplify_eq.
  rewrite decode_all_length, length_take, Nat.min_l by lia.
  replace (Z.to_nat (4 * n)) with (Z.to_nat n * 4)%nat by lia.
  by rewrite Nat.div_mul.
Qed.

Lemma Forall_nat_range (l : list nat) :
  Forall (λ j, Z.of_nat j ≤ int_max) l → Forall int_range (Z.of_nat <$> l).
Proof.
  intros Hl. apply Forall_fmap. eapply Forall_impl; [done|].
  intros j Hj. cbn. unfold_int. lia.
Qed.

Lemma fmap_to_nat_of_nat (l : list nat) : Z.to_nat <$> (Z.of_nat <$> l) = l.
Proof.
  rewrite <- list_fmap_compose. rewrite <- (list_fmap_id l) at 2.
  apply list_fmap_ext. intros _ j _. cbn. lia.
Qed.

Lemma Sorted_le_last (l : list nat) x s :
  Sorted le l → last l = Some x → s ∈ l → (s ≤ x)%nat.
Proof.
  intros Hs%Sorted_StronglySorted; [|by intros ???; lia].
  induction Hs as [|y l Hl IH Hall]; intros Hlast Hin; [by apply elem_of_nil in Hin|].
  destruct l as [|z l'].
  - cbn in Hlast. simplify_eq. apply list_elem_of_singleton in Hin. lia.
  - change (last (y :: z :: l')) with (last (z :: l')) in Hlast.
    apply elem_of_cons in Hin as [->|Hin]; [|by apply IH].
    apply (proj1 (Forall_forall _ _) Hall x). by apply last_Some_elem_of.
Qed.

(** ** Reading a prefix *)

Lemma decode_int_take z rest k :
  int_range z →
  decode_int (take k (encode_int z ++ rest))
  = if decide (k < 4)%nat then None else Some (z, take (k - 4) rest).
Proof.
  intros Hz. destruct k as [|[|[|[|k]]]]; try done.
  rewrite decide_False by lia.
  change (take (S (S (S (S k)))) (encode_int z ++ rest))
    with (encode_int z ++ take k rest).
  rewrite decode_encode_int by done. do 3 f_equal. lia.
Qed.

Lemma decode_ints_take zs rest k :
  Forall int_range zs →
  decode_ints (Z.of_nat (length zs)) (take k (encode_ints zs ++ rest))
  = if decide (k < 4 * length zs)%nat then None
    else Some (zs, take (k - 4 * length zs) rest).
Proof.
  intros Hzs. case_decide as Hk.
  - apply decode_ints_short. rewrite length_take. lia.
  - rewrite take_app_ge by (rewrite encode_ints_length; lia).
    rewrite encode_ints_length. by apply decode_encode_ints.
Qed.

(** ** The fields of an encodable matrix *)

Section fields.
Variable m : SparseMatrix.
Hypothesis Hm : encodable m.

Lemma encodable_rows : int_range (Z.of_nat (rows m)).
Proof. destruct Hm as (_ & ? & _). unfold_int. lia. Qed.

Lemma encodable_cols : int_range (Z.of_nat (cols m)).
Proof. destruct Hm as (_ & _ & ? & _). unfold_int. lia. Qed.

Lemma encodable_count : int_range (Z.of_nat (length (values m))).
Proof. destruct Hm as (_ & _ & _ & ? & _). unfold_int. lia. Qed.

Lemma encodable_values : Forall int_range (values m).
Proof. by destruct Hm as (_ & _ & _ & _ & ? & _). Qed.

Lemma encodable_col_index : Forall int_range (Z.of_nat <$> col_index m).
Proof. destruct Hm as (_ & _ & _ & _ & _ & ? & _). by apply Forall_nat_range. Qed.

Lemma encodable_row_start : Forall int_range (Z.of_nat <$> row_start m).
Proof. destruct Hm as (_ & _ & _ & _ & _ & _ & ?). by apply Forall_nat_range. Qed.

Lemma encodable_col_count :
  Z.of_nat (length (values m)) = Z.of_nat (length (Z.of_nat <$> col_index m)).
Proof. destruct Hm as ((-> & _) & _). by rewrite length_fmap. Qed.

Lemma encodable_row_count :
  Z.of_nat (rows m) + 1 = Z.of_nat (length (Z.of_nat <$> row_start m)).
Proof. destruct Hm as ((_ & Hl & _) & _). rewrite length_fmap, Hl. lia. Qed.

Lemma encodable_well_formed :
  well_formed (Z.of_nat (rows m)) (Z.of_nat (cols m)) (Z.of_nat (length (values m)))
    (Z.of_nat <$> col_index m) (Z.of_nat <$> row_start m).
Proof.
  destruct Hm as ((_ & _ & Hl) & _). unfold well_formed.
  split_and!; try lia.
  - apply Forall_fmap, Forall_true. intros j. cbn. lia.
  - apply Forall_fmap, Forall_true. intros j. cbn. lia.
  - by rewrite fmap_last, Hl.
Qed.

Lemma Encode_length :
  length (Encode m)
  = (4 * (3 + 2 * length (values m) + S (rows m)))%nat.
Proof.
  destruct Hm as ((Hc & Hr & _) & _). unfold Encode.
  rewrite !length_app, !encode_int_length, !encode_ints_length, !length_fmap.
  rewrite <- Hc, Hr. lia.
Qed.
End fields.

(** ** The round trip and its failures *)

(** Decoding the first [k] bytes of an encoded matrix: every field and
    array is read back exactly when the prefix reaches its end. *)
Lemma Decode_take_Encode m k :
  encodable m →
  Decode (take k (Encode m))
  = if decide (k < length (Encode m))%nat then inl TruncatedInput else inr m.
Proof.
  intros Hm. rewrite (Encode_length m Hm). unfold Decode, Encode.
  rewrite decode_int_take by apply (encodable_rows m Hm).
  case_decide; [by rewrite decide_True by lia|].
  rewrite decode_int_take by apply (encodable_cols m Hm).
  case_decide; [by rewrite decide_True by lia|].
  rewrite decode_int_take by apply (encodable_count m Hm).
  case_decide; [by rewrite decide_True by lia|].
  rewrite (decide_False (P := _ ∨ _)) by lia.
  rewrite decode_ints_take by apply (encodable_values m Hm).
  case_decide; [by rewrite decide_True by lia|].
  rewrite (encodable_col_count m Hm).
  rewrite decode_ints_take by apply (encodable_col_index m Hm).
  pose proof Hm as [(Hvc & Hrs & Hl) _].
  case_decide as Hc; rewrite length_fmap in Hc; [by rewrite decide_True by lia|].
  rewrite (encodable_row_count m Hm), <- (app_nil_r (encode_ints (_ <$> row_start m))).
  rewrite decode_ints_take by apply (encodable_row_start m Hm).
  case_decide as Hr; rewrite !length_fmap in Hr; [by rewrite decide_True by lia|].
  rewrite (decide_False (P := (_ < _)%nat)) by lia.
  rewrite <- (encodable_col_count m Hm).
  rewrite decide_True by apply (encodable_well_formed m Hm).
  rewrite !Nat2Z.id, !fmap_to_nat_of_nat. by destruct m.
Qed.

(** [Decode] inverts [Encode]. *)
Lemma Decode_Encode m : encodable m → Decode (Encode m) = inr m.
Proof.
  intros Hm. rewrite <- (firstn_all (Encode m)), Decode_take_Encode by done.
  rewrite decide_False; [done|lia].
Qed.

(** A proper prefix of an encoding is refused as truncated. *)
Lemma Decode_truncated m k :
  encodable m → (k < length (Encode m))%nat →
  Decode (take k (Encode m)) = inl TruncatedInput.
Proof. intros Hm Hk. by rewrite Decode_take_Encode, decide_True. Qed.

(** What [Decode] returns passed its checks. *)
Lemma Decode_consistent bytes m : Decode bytes = inr m → consistent m.
Proof.
  unfold Decode. intros Hd.
  repeat (case_match; simplify_eq/=; try done).
  repeat match goal with
  | H : decode_ints _ _ = Some _ |- _ => apply decode_ints_length in H; [|lia]
  | H : well_formed _ _ _ _ _ |- _ => destruct H as (? & ? & ? & ? & Hlast)
  end.
  unfold consistent. cbn. rewrite !length_fmap, fmap_last, Hlast. cbn.
  split_and!; [congruence|lia|f_equal; lia].
Qed.

(** A matrix that satisfies the invariant and whose sizes fit the format
    can be encoded. *)
Lemma matrix_inv_encodable m :
  matrix_inv m →
  Z.of_nat (rows m) < int_max → Z.of_nat (cols m) ≤ int_max →
  Z.of_nat (length (values m)) ≤ int_max →
  encodable m.
Proof.
  intros Hm Hr Hc Hn. pose proof (matrix_inv_consistent m Hm) as Hcons.
  destruct (matrix_inv_arrays m Hm) as (_ & _ & Hs & Hl & Hci & Hv).
  split_and!; try done.
  - eapply Forall_impl; [done|]. intros j Hj. cbn in *. lia.
  - apply Forall_forall. intros s Hs'.
    pose proof (Sorted_le_last _ _ _ Hs Hl Hs'). lia.
Qed.

