(* ===== verification/Files.v ===== *)
(** * Files: [read_file], [save_matrix], [load_matrix] and [show_array]
    (src/main.cpp, lines 84-92 and 165-184)

    The four functions of the program that move data between memory and the
    outside: the text file read into a string, the matrix written to and
    read from a binary file, the value array written to [std::cout].

    [read_file] reports a file that does not open on [std::cerr] and goes
    on with the empty string.  [save_matrix] and [load_matrix] have no error
    handling of their own: the archive throws when its stream is not open
    or the bytes cannot be decoded, nothing catches the exception, and the
    program is terminated ([Abort]).  The archive's byte layout is [Encode]
    and [Decode] of [Codec]. *)

From Stdlib Require Import ZArith Lia Ascii String.
From stdpp Require Import base tactics option list numbers strings gmap pretty.
From S2P Require Import Prelude World Matrix Codec.

Local Open Scope Z_scope.

(** ** The functions *)

(** [read_file]: the new value of [out], which is also what it returns. *)
Definition read_file (file_name : cstring) : prog cstring :=
  ifs ← ifstream_open file_name;
  match ifs with
  | None =>
      put_err (txt "can't open input file: " ++ file_name ++ endl) ;; mret []
  | Some contents => mret contents
  end.

(** [save_matrix] *)
Definition save_matrix (m : SparseMatrix) (file_name : cstring) : prog () :=
  ofs ← ofstream_open file_name;
  if ofs : bool then ofstream_write file_name (Encode m) else terminate.

(** [load_matrix]: the new value of [m]. *)
Definition load_matrix (m : SparseMatrix) (file_name : cstring) : prog SparseMatrix :=
  ifs ← ifstream_open file_name;
  match ifs with
  | None => terminate
  | Some bytes =>
      match Decode bytes with
      | inr m' => mret m'
      | inl _ => terminate
      end
  end.

(** [show_array] *)
Definition show_array (a : list Z) : prog () :=
  for_each a (λ element, put (show_int element ++ txt " ")) ;;
  put endl.

(** ** What they print and leave *)

Definition array_line (a : list Z) : cstring :=
  concat ((λ element, show_int element ++ txt " ") <$> a) ++ endl.

Definition writable (name : cstring) (w : world) : Prop :=
  name ≠ [] ∧ name ∉ denied w.

#[export] Instance writable_dec name w : Decision (writable name w).
Proof. unfold writable. apply _. Defined.

(** ** [read_file] *)

Lemma read_file_found file_name contents w :
  file_name ≠ [] → files w !! file_name = Some contents →
  read_file file_name w = (Ret contents, w).
Proof.
  intros Hn Hf. unfold read_file.
  rewrite (prog_bind_Ret _ _ _ _ _ (ifstream_open_Some _ _ Hn)). by rewrite Hf.
Qed.

Lemma read_file_missing file_name w :
  file_name = [] ∨ files w !! file_name = None →
  read_file file_name w
  = (Ret [], with_err (txt "can't open input file: " ++ file_name ++ endl) w).
Proof.
  intros Hf. unfold read_file, mbind, prog_bind, ifstream_open.
  case_decide; [done|]. by destruct Hf as [?| ->].
Qed.

(** ** [save_matrix] and [load_matrix] *)

Lemma save_matrix_ok m file_name w :
  writable file_name w →
  save_matrix m file_name w = (Ret (), with_file file_name (Encode m) w).
Proof.
  intros [Hn Hd]. unfold save_matrix.
  rewrite (prog_bind_Ret _ _ _ _ _ (ofstream_open_true _ _ Hn Hd)).
  unfold ofstream_write, with_file. cbn. by rewrite alter_insert_eq.
Qed.

Lemma save_matrix_denied m file_name w :
  ¬ writable file_name w → save_matrix m file_name w = (Abort, w).
Proof.
  intros Hw. assert (file_name = [] ∨ file_name ∈ denied w) as Hno.
  { unfold writable in Hw. destruct (decide (file_name = [])); [by left|].
    right. by destruct (decide (file_name ∈ denied w)); [|destruct Hw]. }
  unfold save_matrix.
  by rewrite (prog_bind_Ret _ _ _ _ _ (ofstream_open_false _ _ Hno)).
Qed.

Lemma load_matrix_ok m file_name bytes m' w :
  file_name ≠ [] → files w !! file_name = Some bytes → Decode bytes = inr m' →
  load_matrix m file_name w = (Ret m', w).
Proof.
  intros Hn Hf Hd. unfold load_matrix.
  rewrite (prog_bind_Ret _ _ _ _ _ (ifstream_open_Some _ _ Hn)). by rewrite Hf, Hd.
Qed.

Lemma load_matrix_missing m file_name w :
  file_name = [] ∨ files w !! file_name = None →
  load_matrix m file_name w = (Abort, w).
Proof.
  intros Hf. unfold load_matrix, mbind, prog_bind, ifstream_open.
  case_decide; [done|]. by destruct Hf as [?| ->].
Qed.

Lemma load_matrix_bad m file_name bytes e w :
  file_name ≠ [] → files w !! file_name = Some bytes → Decode bytes = inl e →
  load_matrix m file_name w = (Abort, w).
Proof.
  intros Hn Hf Hd. unfold load_matrix.
  rewrite (prog_bind_Ret _ _ _ _ _ (ifstream_open_Some _ _ Hn)). by rewrite Hf, Hd.
Qed.

(** The three functions leave every other file alone. *)
Lemma keeps_read_file f file_name : keeps_files_but f (read_file file_name).
Proof.
  apply keeps_unchanged. intros w.
  destruct (decide (file_name = [])) as [Hn|Hn];
    [by rewrite read_file_missing by auto|].
  destruct (files w !! file_name) as [contents|] eqn:Hf.
  - by rewrite (read_file_found _ _ _ Hn Hf).
  - by rewrite read_file_missing by auto.
Qed.

Lemma keeps_save_matrix m f : keeps_files_but f (save_matrix m f).
Proof.
  apply keeps_bind; [apply keeps_ofstream_open|].
  intros [|]; [apply keeps_ofstream_write|by apply keeps_unchanged].
Qed.

Lemma keeps_load_matrix m f file_name : keeps_files_but f (load_matrix m file_name).
Proof.
  apply keeps_unchanged. intros w.
  destruct (decide (file_name = [])) as [Hn|Hn];
    [by rewrite load_matrix_missing by auto|].
  destruct (files w !! file_name) as [bytes|] eqn:Hf;
    [|by rewrite load_matrix_missing by auto].
  destruct (Decode bytes) as [e|m'] eqn:Hd.
  - by rewrite (load_matrix_bad _ _ _ _ _ Hn Hf Hd).
  - by rewrite (load_matrix_ok _ _ _ _ _ Hn Hf Hd).
Qed.

(** Saving and then loading gives back the matrix that was saved. *)
Lemma save_load m m2 file_name w :
  encodable m → writable file_name w →
  (save_matrix m file_name ;; load_matrix m2 file_name) w
  = (Ret m, with_file file_name (Encode m) w).
Proof.
  intros Hm Hw. rewrite (prog_bind_Ret _ _ _ _ _ (save_matrix_ok _ _ _ Hw)).
  eapply load_matrix_ok; [apply Hw|apply with_file_lookup|by apply Decode_Encode].
Qed.

(** ** [show_array] *)

Lemma show_array_prints a : prints (show_array a) () (array_line a).
Proof.
  unfold show_array, array_line. eapply prints_bind; [|apply prints_put].
  by apply prints_for_each.
Qed.

#[export] Hint Resolve show_array_prints : cxx.

(** ** Main results *)

(** C12.  A matrix whose fields fit the format, saved to a file that can be
    opened for writing and loaded from it again, comes back equal in both
    dimensions and all three arrays, whatever the second matrix held
    before; the file then holds the encoding and nothing else changed. *)
Theorem save_load_roundtrip m m2 file_name w :
  encodable m → writable file_name w →
  (save_matrix m file_name ;; load_matrix m2 file_name) w
  = (Ret m, with_file file_name (Encode m) w).
Proof. intros Hm Hw. by apply save_load. Qed.

Lemma save_load_roundtrip_witness :
  (save_matrix (mkMatrix 2 3 [5; -1] [2; 0]%nat [0; 1; 2]%nat) (txt "m") ;;
   load_matrix (mkMatrix 0 0 [] [] [0%nat]) (txt "m")) (world_init ∅)
  = (Ret (mkMatrix 2 3 [5; -1] [2; 0]%nat [0; 1; 2]%nat),
     with_file (txt "m") (Encode (mkMatrix 2 3 [5; -1] [2; 0]%nat [0; 1; 2]%nat))
       (world_init ∅)).
Proof. apply save_load_roundtrip; apply (bool_decide_unpack _); by vm_compute. Defined.

(** C31.  [load_matrix] on a file that is missing, or that holds only a
    proper prefix of an encoded matrix, ends the program through an
    uncaught exception and leaves the world as it was: the caller never
    sees a partly filled matrix. *)
Theorem load_matrix_aborts m2 file_name m k w :
  encodable m → (k < length (Encode m))%nat →
  file_name = [] ∨ files w !! file_name = None
  ∨ files w !! file_name = Some (take k (Encode m)) →
  load_matrix m2 file_name w = (Abort, w).
Proof.
  intros Hm Hk [Hn|[Hf|Hf]].
  - apply load_matrix_missing. by left.
  - apply load_matrix_missing. by right.
  - destruct (decide (file_name = [])) as [Hn|Hn].
    + apply load_matrix_missing. by left.
    + eapply load_matrix_bad; [done|done|by apply Decode_truncated].
Qed.

Lemma load_matrix_aborts_witness :
  load_matrix (mkMatrix 0 0 [] [] [0%nat]) (txt "m")
    (world_init {[ txt "m" := take 20 (Encode (mkMatrix 1 1 [5] [0%nat] [0; 1]%nat)) ]})
  = (Abort,
     world_init {[ txt "m" := take 20 (Encode (mkMatrix 1 1 [5] [0%nat] [0; 1]%nat)) ]}).
Proof.
  apply (load_matrix_aborts _ _ (mkMatrix 1 1 [5] [0%nat] [0; 1]%nat) 20%nat).
  - apply (bool_decide_unpack _). by vm_compute.
  - cbn. lia.
  - right. right. apply lookup_singleton_eq.
Defined.

(** C33.  [read_file] returns the contents of a file that opens and leaves
    the world alone; for a name that does not open, the empty name
    included, it writes "can't open input file: " and the name to
    [std::cerr] and returns the empty string.  It never fails. *)
Theorem read_file_spec file_name w :
  read_file file_name w
  = match (if decide (file_name = []) then None else files w !! file_name) with
    | Some contents => (Ret contents, w)
    | None =>
        (Ret [], with_err (txt "can't open input file: " ++ file_name ++ endl) w)
    end.
Proof.
  case_decide as Hn.
  - apply read_file_missing. by left.
  - destruct (files w !! file_name) as [contents|] eqn:Hf.
    + by apply read_file_found.
    + apply read_file_missing. by right.
Qed.

(** C32.  [save_matrix] to a name that cannot be opened for writing ends
    the program through the archive's exception, and no file is created or
    changed. *)
Theorem save_matrix_aborts m file_name w :
  ¬ writable file_name w → save_matrix m file_name w = (Abort, w).
Proof. intros Hw. by apply save_matrix_denied. Qed.

Lemma save_matrix_aborts_witness :
  save_matrix (mkMatrix 1 1 [5] [0%nat] [0; 1]%nat) (txt "m")
    (World ∅ {[ txt "m" ]} [] [])
  = (Abort, World ∅ {[ txt "m" ]} [] []).
Proof.
  apply save_matrix_aborts. intros [_ Hd]. apply Hd. cbn. by apply elem_of_singleton.
Defined.
