(* ===== verification/Main.v ===== *)
(** * Main: [main] (src/main.cpp, lines 187-259)

    [main] runs three parts one after the other, each a definition here:
    - [main_statistics] (lines 191-221): the command line, the text file,
      the analysis of the text and the printed statistics;
    - [matrix_demo] (lines 234-246): a 10 by 10 matrix, four writes with the
      array [value_data()] shown after each in its whole length, unused
      slots included, and the matrix printed;
    - [main_persist] (lines 248-256): the matrix saved to "matrix.bin",
      loaded into a second matrix, and that one printed.
    The global [stats] is in its initial state when [main] starts, and
    [main] is the only function that runs the analysis, so the statistics
    are those of [analyse] from [state_init].

    The matrix object is [compressed_matrix] of [Storage]: the entries and
    the unused slots of the value array.  [uninit] is what the slots of a
    newly allocated array hold; the constructor does not initialise them, so
    the results are stated for every [uninit].  An assignment
    [m(row, col) = value] is [matrix_assign]: the entries change as the
    specification's [Set] says ([assign]), the array as uBLAS inserts into
    it.  [save_matrix] and [load_matrix] persist the entries.

    [show_matrix] is what uBLAS writes for [cout << m]: the dimensions in
    brackets, then the rows in parentheses, every element of every row,
    zeros included. *)

From Stdlib Require Import ZArith Lia Ascii String.
From stdpp Require Import base tactics option list numbers strings gmap pretty.
From S2P Require Import Prelude StdMap Tokenizer Dictionary World Report.
From S2P Require Import ProgramOptions CmdLine Matrix Storage Codec Files.

Local Open Scope Z_scope.

(** ** Printing a matrix *)

Fixpoint join (sep : cstring) (l : list cstring) : cstring :=
  match l with
  | [] => []
  | [x] => x
  | x :: l' => x ++ sep ++ join sep l'
  end.

Definition show_matrix_row (m : SparseMatrix) (i : nat) : cstring :=
  txt "(" ++ join (txt ",") ((λ j, show_int (entry m i j)) <$> seq 0 (cols m))
  ++ txt ")".

(** [cout << m] *)
Definition show_matrix (m : SparseMatrix) : cstring :=
  txt "[" ++ show_size (rows m) ++ txt "," ++ show_size (cols m) ++ txt "]("
  ++ join (txt ",") (show_matrix_row m <$> seq 0 (rows m)) ++ txt ")".

(** ** The matrix in [main] *)

(** [Matrix m2;]: no rows, no columns. *)
Definition matrix_default : SparseMatrix := mkMatrix 0 0 [] [] [0%nat].

(** [Matrix m (size1, size2);]: no entry, and an array of
    [restrict_capacity] slots that nothing has written yet. *)
Definition construct (uninit : nat → Z) (size1 size2 : Z) : prog compressed_matrix :=
  match Construct size1 size2 with
  | inr e =>
      mret (mkCompressed e
              (allocate uninit (restrict_capacity (rows e) (cols e) 0)))
  | inl _ => terminate
  end.

(** [m(row, col) = value;] on the entries. *)
Definition assign (m : SparseMatrix) (row col value : Z) : prog SparseMatrix :=
  match SetAt m row col value with
  | inr m' => mret m'
  | inl _ => terminate
  end.

(** [m(row, col) = value;] on the object: the entries, and the array with
    the slots the write leaves unused. *)
Definition matrix_assign (m : compressed_matrix) (row col value : Z)
    : prog compressed_matrix :=
  e ← assign (entries m) row col value;
  mret (mkCompressed e (unused_after m (length (ValueArray e)))).

Definition matrix_file : cstring := txt "matrix.bin".

(** Lines 234-246. *)
Definition matrix_demo (uninit : nat → Z) : prog compressed_matrix :=
  m ← construct uninit 10 10;
  m ← matrix_assign m 0 5 1;
  show_array (value_data m) ;;
  m ← matrix_assign m 0 6 2;
  show_array (value_data m) ;;
  m ← matrix_assign m 0 4 3;
  show_array (value_data m) ;;
  m ← matrix_assign m 0 4 7;
  show_array (value_data m) ;;
  put (show_matrix (entries m) ++ endl) ;;
  mret m.

(** Lines 248-256. *)
Definition main_persist (m m2 : SparseMatrix) : prog SparseMatrix :=
  put (txt "Save matrix" ++ endl) ;;
  save_matrix m matrix_file ;;
  put (txt "Load matrix" ++ endl) ;;
  m2 ← load_matrix m2 matrix_file;
  put (show_matrix m2 ++ endl) ;;
  mret m2.

Section main.
Context `{ProgramOptions}.
Variable uninit : nat → Z.

(** Lines 191-221. *)
Definition main_statistics (av : list cstring) : prog Stats :=
  options ← parse_command_line av options_init;
  when (bool_decide (input options = [])) (put (txt "set --input file" ++ endl)) ;;
  the_text ← read_file (input options);
  let st := analyse the_text state_init in
  print_stats (stats st) ;;
  mret (stats st).

(** [main]; the result is the value it returns. *)
Definition main (av : list cstring) : prog Z :=
  main_statistics av ;;
  m ← matrix_demo uninit;
  main_persist (entries m) matrix_default ;;
  mret 0.
End main.

(** ** The matrix of the demonstration and what is printed for it *)

(** Slots that hold zero when they are allocated, as in the comments
    beside the writes in the source. *)
Definition zero_filled : nat → Z := λ _, 0.

(** The slots of the array from slot [k] on, as the constructor left
    them. *)
Definition demo_unused (uninit : nat → Z) (k : nat) : list Z :=
  drop k (allocate uninit 10).

(** The matrix object after the four writes. *)
Definition demo_object (uninit : nat → Z) : compressed_matrix :=
  mkCompressed demo_matrix (demo_unused uninit 3).

Definition demo_output (uninit : nat → Z) : cstring :=
  array_line ([1] ++ demo_unused uninit 1)
  ++ array_line ([1; 2] ++ demo_unused uninit 2)
  ++ array_line ([3; 1; 2] ++ demo_unused uninit 3)
  ++ array_line ([7; 1; 2] ++ demo_unused uninit 3)
  ++ show_matrix demo_matrix ++ endl.

Definition persist_output (m : SparseMatrix) : cstring :=
  txt "Save matrix" ++ endl ++ txt "Load matrix" ++ endl ++ show_matrix m ++ endl.

(** What [main] writes to [std::cout] after the statistics. *)
Definition matrix_output (uninit : nat → Z) : cstring :=
  demo_output uninit ++ persist_output demo_matrix.

(** The text [main] analyses: the contents of the input file, the empty
    string when the file does not open. *)
Definition input_text (o : Options) (w : world) : cstring :=
  if decide (input o = []) then [] else default [] (files w !! input o).

(** What [main] writes to [std::cerr] about the input file. *)
Definition input_errors (o : Options) (w : world) : cstring :=
  if decide (input o ≠ [] ∧ is_Some (files w !! input o)) then []
  else txt "can't open input file: " ++ input o ++ endl.

Definition statistics_output (o : Options) (w : world) : cstring :=
  dimension_line o
  ++ (if bool_decide (input o = []) then txt "set --input file" ++ endl else [])
  ++ stats_report (stats (analyse (input_text o w) state_init)).

(** The part of the statistics output that follows the dimension line. *)
Definition after_dimension (file_name : cstring) (w : world) : cstring :=
  (if bool_decide (file_name = []) then txt "set --input file" ++ endl else [])
  ++ stats_report (stats (analyse
       (if decide (file_name = []) then [] else default [] (files w !! file_name))
       state_init)).

(** ** The matrix part *)

Lemma prints_construct uninit size1 size2 e :
  Construct size1 size2 = inr e →
  prints (construct uninit size1 size2)
    (mkCompressed e (allocate uninit (restrict_capacity (rows e) (cols e) 0))) [].
Proof. intros Hc. unfold construct. rewrite Hc. apply prints_ret. Qed.

Lemma prints_assign m row col value m' :
  SetAt m row col value = inr m' → prints (assign m row col value) m' [].
Proof. intros Hs. unfold assign. rewrite Hs. apply prints_ret. Qed.

Lemma assign_out_of_bounds m row col value w :
  ¬ in_bounds m row col → assign m row col value w = (Abort, w).
Proof. intros Hb. unfold assign. by rewrite SetAt_error. Qed.

Lemma matrix_assign_ok (m : compressed_matrix) row col value e w :
  SetAt (entries m) row col value = inr e →
  matrix_assign m row col value w
  = (Ret (mkCompressed e (unused_after m (length (ValueArray e)))), w).
Proof. intros Hs. unfold matrix_assign, assign. by rewrite Hs. Qed.

Lemma prints_matrix_assign (m : compressed_matrix) row col value e :
  SetAt (entries m) row col value = inr e →
  prints (matrix_assign m row col value)
    (mkCompressed e (unused_after m (length (ValueArray e)))) [].
Proof.
  intros Hs w. rewrite (matrix_assign_ok _ _ _ _ _ _ Hs). by rewrite app_nil_r, world_eta.
Qed.

Lemma demo_matrix_encodable : encodable demo_matrix.
Proof.
  apply matrix_inv_encodable; [apply demo_matrix_inv|by vm_compute..].
Qed.

(** One write of the demonstration, with the entries and the unused slots
    it leaves given. *)
Lemma prints_demo_assign (m : compressed_matrix) row col value e u :
  SetAt (entries m) row col value = inr e →
  unused_after m (length (ValueArray e)) = u →
  prints (matrix_assign m row col value) (mkCompressed e u) [].
Proof. intros Hs <-. by apply prints_matrix_assign. Qed.

Lemma prints_demo_construct uninit :
  prints (construct uninit 10 10)
    (mkCompressed (mkMatrix 10 10 [] [] (replicate 11 0%nat)) (demo_unused uninit 0)) [].
Proof. by apply (prints_construct uninit 10 10). Qed.

Lemma matrix_demo_prints uninit :
  prints (matrix_demo uninit) (demo_object uninit) (demo_output uninit).
Proof.
  unfold matrix_demo. eapply prints_eq.
  - eapply prints_bind; [apply prints_demo_construct|].
    eapply prints_bind.
    { apply (prints_demo_assign _ _ _ _
               (mkMatrix 10 10 [1] [5%nat] (0%nat :: replicate 10 1%nat))
               (demo_unused uninit 1)); by vm_compute. }
    eapply prints_bind; [apply show_array_prints|].
    eapply prints_bind.
    { apply (prints_demo_assign _ _ _ _
               (mkMatrix 10 10 [1; 2] [5; 6]%nat (0%nat :: replicate 10 2%nat))
               (demo_unused uninit 2)); by vm_compute. }
    eapply prints_bind; [apply show_array_prints|].
    eapply prints_bind.
    { apply (prints_demo_assign _ _ _ _
               (mkMatrix 10 10 [3; 1; 2] [4; 5; 6]%nat (0%nat :: replicate 10 3%nat))
               (demo_unused uninit 3)); by vm_compute. }
    eapply prints_bind; [apply show_array_prints|].
    eapply prints_bind.
    { apply (prints_demo_assign _ _ _ _ demo_matrix (demo_unused uninit 3));
        by vm_compute. }
    eapply prints_bind; [apply show_array_prints|].
    eapply prints_bind; [apply prints_put|]. apply prints_ret.
  - reflexivity.
Qed.

(** ** The persistence part *)

Lemma main_persist_runs m m2 w :
  encodable m → writable matrix_file w →
  runs (main_persist m m2) w m
    (with_file matrix_file (Encode m) (with_out (persist_output m) w)).
Proof.
  intros Hm Hw. unfold main_persist.
  eapply runs_eq.
  - eapply runs_bind; [apply runs_prints, prints_put|].
    eapply runs_bind; [by apply save_matrix_ok|].
    eapply runs_bind; [apply runs_prints, prints_put|].
    eapply runs_bind.
    { eapply load_matrix_ok; [done|apply with_file_lookup|by apply Decode_Encode]. }
    eapply runs_bind; [apply runs_prints, prints_put|]. apply runs_ret.
  - rewrite !with_out_with_file, !with_out_app. unfold persist_output.
    by rewrite <- !(assoc_L (++)).
Qed.

Lemma main_persist_denied m m2 w :
  ¬ writable matrix_file w →
  main_persist m m2 w = (Abort, with_out (txt "Save matrix" ++ endl) w).
Proof.
  intros Hw. unfold main_persist.
  rewrite (prog_bind_Ret _ _ _ _ _ (prints_put _ w)).
  apply prog_bind_Abort. by apply save_matrix_denied.
Qed.

(** ** The statistics part *)

Section statistics.
Context `{ProgramOptions}.
Implicit Types (av : list cstring) (vm : variables_map) (w : world).

Lemma runs_parse_command_line av vm w :
  po_parse desc av = inr vm → wants_help av vm = false →
  runs (parse_command_line av options_init) w (options_of vm options_init)
    (with_out (dimension_line (options_of vm options_init)) w).
Proof.
  intros Hp Hh. pose proof (parse_command_line_cases av options_init w) as Hc.
  by rewrite Hp, Hh in Hc.
Qed.

Lemma runs_read_file file_name w :
  runs (read_file file_name) w
    (if decide (file_name = []) then [] else default [] (files w !! file_name))
    (with_err (if decide (file_name ≠ [] ∧ is_Some (files w !! file_name)) then []
               else txt "can't open input file: " ++ file_name ++ endl) w).
Proof.
  unfold runs. case_decide as Hn.
  - rewrite decide_False by (by intros [? _]). apply read_file_missing. by left.
  - destruct (files w !! file_name) as [contents|] eqn:Hf; cbn.
    + rewrite decide_True by eauto. rewrite (read_file_found _ _ _ Hn Hf).
      unfold with_err. by rewrite app_nil_r, world_eta.
    + rewrite decide_False by (by intros [_ [??]]). apply read_file_missing. by right.
Qed.

Lemma main_statistics_runs av vm w :
  po_parse desc av = inr vm → wants_help av vm = false →
  let o := options_of vm options_init in
  runs (main_statistics av) w (stats (analyse (input_text o w) state_init))
    (with_err (input_errors o w) (with_out (statistics_output o w) w)).
Proof.
  intros Hp Hh o. unfold main_statistics.
  eapply runs_eq.
  - eapply runs_bind; [by apply runs_parse_command_line|].
    eapply runs_bind; [apply runs_prints, prints_when, prints_put|].
    eapply runs_bind; [apply runs_read_file|].
    eapply runs_bind; [apply runs_prints, print_stats_prints|]. apply runs_ret.
  - rewrite with_out_with_err, !with_out_app, !files_with_out.
    unfold statistics_output, input_errors, input_text, dimension_line.
    by rewrite <- !(assoc_L (++)).
Qed.
End statistics.

Section main_lemmas.
Context `{ProgramOptions}.
Implicit Types (av : list cstring) (vm : variables_map) (w : world).
Implicit Types (uninit : nat → Z).

(** A run of [main] that gets past the command line and can write
    "matrix.bin". *)
Lemma main_runs uninit av vm w :
  po_parse desc av = inr vm → wants_help av vm = false →
  writable matrix_file w →
  let o := options_of vm options_init in
  runs (main uninit av) w 0
    (with_file matrix_file (Encode demo_matrix)
       (with_err (input_errors o w)
          (with_out (statistics_output o w ++ matrix_output uninit) w))).
Proof.
  intros Hp Hh Hw o. unfold main. eapply runs_eq.
  - eapply runs_bind; [by apply main_statistics_runs|].
    eapply runs_bind; [apply runs_prints, matrix_demo_prints|].
    eapply runs_bind; [|apply runs_ret].
    apply (main_persist_runs demo_matrix); [apply demo_matrix_encodable|done].
  - rewrite ?with_out_with_file, ?with_out_with_err, !with_out_app.
    unfold matrix_output. by rewrite <- ?(assoc_L (++)).
Qed.

(** The same run when "matrix.bin" cannot be written. *)
Lemma main_denied uninit av vm w :
  po_parse desc av = inr vm → wants_help av vm = false →
  ¬ writable matrix_file w →
  let o := options_of vm options_init in
  main uninit av w
  = (Abort, with_err (input_errors o w)
              (with_out (statistics_output o w ++ demo_output uninit
                         ++ txt "Save matrix" ++ endl) w)).
Proof.
  intros Hp Hh Hw o. unfold main.
  rewrite (prog_bind_Ret _ _ _ _ _ (main_statistics_runs av vm w Hp Hh)).
  rewrite (prog_bind_Ret _ _ _ _ _ (matrix_demo_prints uninit _)).
  erewrite prog_bind_Abort; [|by apply main_persist_denied].
  change (World ?f ?d (cout ?w' ++ ?s) ?e) with (with_out s w').
  rewrite ?with_out_with_err, !with_out_app. by rewrite <- ?(assoc_L (++)).
Qed.

Lemma main_exits uninit av w c w' :
  parse_command_line av options_init w = (Exit c, w') →
  main uninit av w = (Exit c, w').
Proof.
  intros Hp. unfold main, main_statistics.
  by do 2 apply prog_bind_Exit.
Qed.

(** No file but "matrix.bin" is ever written. *)
Lemma keeps_parse_command_line f av o : keeps_files_but f (parse_command_line av o).
Proof.
  apply keeps_unchanged. intros w.
  pose proof (parse_command_line_cases av o w) as Hc.
  destruct (po_parse desc av) as [[what|]|vm]; [| |destruct (wants_help av vm)];
    by rewrite Hc.
Qed.

Lemma keeps_main_persist m m2 : keeps_files_but matrix_file (main_persist m m2).
Proof.
  unfold main_persist.
  apply keeps_bind; [eapply keeps_prints, prints_put|intros _].
  apply keeps_bind; [apply keeps_save_matrix|intros _].
  apply keeps_bind; [eapply keeps_prints, prints_put|intros _].
  apply keeps_bind; [apply keeps_load_matrix|intros m'].
  apply keeps_bind; [eapply keeps_prints, prints_put|intros _].
  eapply keeps_prints, prints_ret.
Qed.

Lemma keeps_main uninit av : keeps_files_but matrix_file (main uninit av).
Proof.
  unfold main, main_statistics.
  apply keeps_bind; [|intros _].
  { apply keeps_bind; [apply keeps_parse_command_line|intros o].
    apply keeps_bind; [eapply keeps_prints, prints_when, prints_put|intros _].
    apply keeps_bind; [apply keeps_read_file|intros the_text].
    apply keeps_bind; [eapply keeps_prints, print_stats_prints|intros _].
    eapply keeps_prints, prints_ret. }
  apply keeps_bind; [eapply keeps_prints, matrix_demo_prints|intros m].
  apply keeps_bind; [apply keeps_main_persist|intros _].
  eapply keeps_prints, prints_ret.
Qed.
End main_lemmas.

(** ** Main results *)

(** C14.  An assignment [m(row, col) = value] within the bounds of a matrix
    that satisfies the invariant returns, keeps the invariant, and changes
    what is read at [(row, col)] to [value] and at no other coordinate. *)
Theorem assign_entry m row col value w :
  matrix_inv m → int_range value → in_bounds m row col →
  ∃ m', assign m row col value w = (Ret m', w) ∧ matrix_inv m'
        ∧ ∀ i j, in_bounds m (Z.of_nat i) (Z.of_nat j) →
            entry m' i j
            = if decide (row = Z.of_nat i ∧ col = Z.of_nat j) then value
              else entry m i j.
Proof.
  intros Hm Hv Hb.
  destruct (SetAt_inv_ok m row col value Hm Hv Hb) as (m' & Hs & Hm' & Hr & Hc).
  exists m'. split; [unfold assign; by rewrite Hs|]. split; [done|].
  intros i j Hij. unfold entry.
  rewrite (GetAt_SetAt_inv _ _ _ _ _ _ _ Hm Hs Hij). by case_decide.
Qed.

Lemma assign_entry_witness :
  ∃ m', assign demo_matrix 3 2 9 (world_init ∅) = (Ret m', world_init ∅)
        ∧ matrix_inv m'
        ∧ ∀ i j, in_bounds demo_matrix (Z.of_nat i) (Z.of_nat j) →
            entry m' i j
            = if decide (3 = Z.of_nat i ∧ 2 = Z.of_nat j) then 9
              else entry demo_matrix i j.
Proof.
  apply assign_entry; [apply demo_matrix_inv|..]; apply (bool_decide_unpack _);
    by vm_compute.
Defined.

(** C39.  What an assignment does to the array: for a matrix that
    satisfies the invariant and has a free slot, an assignment
    [m(row, col) = value] of a nonzero value within the bounds returns and
    leaves the array at its length; the stored coordinates afterwards are
    those before together with [(row, col)]; and the slots behind the
    entries are the old array's slots at the same places, so a new entry
    takes a slot from the front of the unused ones and an overwrite takes
    none. *)
Theorem matrix_assign_storage (m : compressed_matrix) row col value w :
  matrix_inv (entries m) → int_range value → value ≠ 0 →
  in_bounds (entries m) row col → (filled m < capacity m)%nat →
  ∃ m', matrix_assign m row col value w = (Ret m', w)
        ∧ capacity m' = capacity m
        ∧ drop (filled m') (value_data m') = drop (filled m') (value_data m)
        ∧ ∀ c, c ∈ stored_coords (entries m')
               ↔ c = (Z.to_nat row, Z.to_nat col) ∨ c ∈ stored_coords (entries m).
Proof.
  intros Hm Hv Hnz Hb Hcap.
  destruct (SetAt_inv_ok _ row col value Hm Hv Hb) as (e & Hs & _).
  eexists. split; [by rewrite (matrix_assign_ok _ _ _ _ _ _ Hs)|].
  destruct (unused_after_spec m (length (ValueArray e))) as [Hu Hl].
  { rewrite (SetAt_values_length _ _ _ _ _ Hs). fold (filled m).
    destruct (stored_at _ _ _ _); [|rewrite decide_False by done]; lia. }
  split_and!.
  - by rewrite capacity_filled.
  - by rewrite value_data_unused.
  - by apply (SetAt_stored_coords _ _ _ value).
Qed.

Lemma matrix_assign_storage_witness :
  let m := mkCompressed demo_matrix (replicate 7 0) in
  ∃ m', matrix_assign m 3 2 9 (world_init ∅) = (Ret m', world_init ∅)
        ∧ capacity m' = capacity m
        ∧ drop (filled m') (value_data m') = drop (filled m') (value_data m)
        ∧ ∀ c, c ∈ stored_coords (entries m')
               ↔ c = (Z.to_nat 3, Z.to_nat 2) ∨ c ∈ stored_coords (entries m).
Proof.
  apply matrix_assign_storage; [apply demo_matrix_inv|..];
    apply (bool_decide_unpack _); by vm_compute.
Defined.

(** C13.  [main] saves a matrix and loads it back into a second one: for
    every matrix that fits the format, with "matrix.bin" writable, the
    matrix printed after "Load matrix" is the matrix that was saved, the
    file holds its encoding, and the run goes on. *)
Theorem main_persist_roundtrip m m2 w :
  encodable m → writable matrix_file w →
  main_persist m m2 w
  = (Ret m, with_file matrix_file (Encode m) (with_out (persist_output m) w)).
Proof. intros Hm Hw. by apply main_persist_runs. Qed.

Lemma main_persist_roundtrip_witness :
  main_persist demo_matrix matrix_default (world_init ∅)
  = (Ret demo_matrix,
     with_file matrix_file (Encode demo_matrix)
       (with_out (persist_output demo_matrix) (world_init ∅))).
Proof.
  apply main_persist_roundtrip; [apply demo_matrix_encodable|].
  apply (bool_decide_unpack _). by vm_compute.
Defined.

Lemma options_of_input vm o :
  input (options_of vm o)
  = match vm !! txt "input" with Some (VString s) => s | _ => input o end.
Proof. done. Qed.

Lemma statistics_output_split o w :
  statistics_output o w = dimension_line o ++ after_dimension (input o) w.
Proof. done. Qed.

(** What "matrix.bin" holds after a run is read back as the matrix of the
    demonstration. *)
Lemma load_matrix_demo m2 w :
  load_matrix m2 matrix_file (with_file matrix_file (Encode demo_matrix) w)
  = (Ret demo_matrix, with_file matrix_file (Encode demo_matrix) w).
Proof.
  eapply load_matrix_ok; [done|apply with_file_lookup|].
  apply Decode_Encode, demo_matrix_encodable.
Qed.

Section main_results.
Context `{ProgramOptions}.
Implicit Types (av : list cstring) (vm : variables_map) (w : world).
Implicit Types (uninit : nat → Z).

(** C11.  A run of [main] with an input file that opens and holds at most
    [int_max] words, and with "matrix.bin" writable: [main] returns 0;
    [std::cout] receives the dimension line, the statistics of the text
    (number of words, of distinct words, largest count, sentences per
    length), then after each of the four writes the array [value_data()] in
    its whole length (the entries 1, then 1 2, then 3 1 2, then 7 1 2,
    each followed by the slots not yet used, which hold what the allocator
    left there), the matrix, "Save matrix", "Load matrix" and the same
    matrix again; [std::cerr] receives nothing; no file but "matrix.bin"
    changes, and what "matrix.bin" holds is read back by [load_matrix] as
    the matrix. *)
Theorem main_run uninit av vm file_name the_text w :
  po_parse desc av = inr vm → wants_help av vm = false →
  vm !! txt "input" = Some (VString file_name) → file_name ≠ [] →
  files w !! file_name = Some the_text →
  Z.of_nat (length (words the_text)) ≤ int_max →
  writable matrix_file w →
  ∃ bytes,
    let w' :=
      with_file matrix_file bytes
        (with_out (dimension_line (options_of vm options_init)
                   ++ stats_report (text_stats the_text) ++ matrix_output uninit) w) in
    main uninit av w = (Ret 0, w')
    ∧ load_matrix matrix_default matrix_file w' = (Ret demo_matrix, w').
Proof.
  intros Hp Hh Hin Hn Hf Hlen Hw. exists (Encode demo_matrix).
  split; [|apply load_matrix_demo]. rewrite (main_runs uninit av vm w Hp Hh Hw).
  unfold input_errors, statistics_output, input_text.
  rewrite options_of_input, Hin, Hf.
  rewrite (bool_decide_false (file_name = [])), (decide_False (P := file_name = []))
    by done.
  rewrite decide_True by eauto.
  cbn [default]. rewrite analyse_stats_exact by done.
  by rewrite with_err_nil, app_nil_l, <- (assoc_L (++)).
Qed.

(** C25.  Without [--input], [main] does not stop: it writes
    "set --input file", tries to open the empty name, reports that on
    [std::cerr], prints the statistics of the empty text (all zero, no
    sentence lengths) and goes on with the matrix part (the four arrays in
    their whole length, the matrix, the save and the load) to return 0. *)
Theorem main_without_input uninit av vm w :
  po_parse desc av = inr vm → wants_help av vm = false →
  vm !! txt "input" = None →
  writable matrix_file w →
  ∃ bytes,
    main uninit av w
    = (Ret 0,
       with_file matrix_file bytes
         (with_err (txt "can't open input file: " ++ endl)
            (with_out (dimension_line (options_of vm options_init)
                       ++ (txt "set --input file" ++ endl)
                       ++ stats_report stats_init ++ matrix_output uninit) w))).
Proof.
  intros Hp Hh Hin Hw. exists (Encode demo_matrix).
  rewrite (main_runs uninit av vm w Hp Hh Hw).
  unfold input_errors, statistics_output, input_text.
  rewrite options_of_input, Hin. cbn [input options_init].
  rewrite (bool_decide_true (_ = _)), (decide_True (P := _ = _)) by done.
  rewrite decide_False by (by intros [? _]).
  change (stats (analyse [] state_init)) with stats_init.
  by rewrite <- !(assoc_L (++)).
Qed.

(** C29.  Started without arguments, [main] prints the option table and
    exits with status 0: no file is read, no statistics are printed, the
    matrix part does not run. *)
Theorem main_no_args uninit name w :
  main uninit [name] w = (Exit 0, with_out (po_show desc ++ endl) w).
Proof.
  apply main_exits. pose proof (parse_command_line_cases [name] options_init w) as Hc.
  by rewrite po_parse_no_args in Hc.
Qed.

(** C30.  When the command line does not parse, [main] writes "error: " and
    the parser's message to [std::cerr], nothing to [std::cout], and exits
    with status 1. *)
Theorem main_parse_error uninit av what w :
  po_parse desc av = inl (StdException what) →
  main uninit av w = (Exit 1, with_err (txt "error: " ++ what ++ endl) w).
Proof.
  intros Hp. apply main_exits.
  pose proof (parse_command_line_cases av options_init w) as Hc.
  by rewrite Hp in Hc.
Qed.

(** C26.  When "matrix.bin" cannot be opened for writing, [main] is
    terminated by the archive's exception after it has printed
    "Save matrix": it returns no status, no file is changed, and
    "Load matrix" is never printed. *)
Theorem main_unwritable uninit av vm w :
  po_parse desc av = inr vm → wants_help av vm = false →
  ¬ writable matrix_file w →
  ∃ out errs,
    main uninit av w
    = (Abort, with_err errs (with_out (out ++ txt "Save matrix" ++ endl) w)).
Proof.
  intros Hp Hh Hw. rewrite (main_denied uninit av vm w Hp Hh Hw).
  eexists (statistics_output _ w ++ demo_output uninit), _.
  by rewrite <- !(assoc_L (++)).
Qed.

(** C27.  However [main] ends, every file other than "matrix.bin" is as it
    was before: the program reads its input and writes one file. *)
Theorem main_keeps_files uninit av w name :
  name ≠ matrix_file → files (main uninit av w).2 !! name = files w !! name.
Proof. intros Hn. by apply keeps_main. Qed.

(** C28.  [--dim], [--matrix], [--print_matrix] and [--print_chains] change
    nothing but the dimension line: two command lines that parse, with the
    same [--input], lead to the same result, the same files, the same
    [std::cerr] and, after the dimension line, the same [std::cout].  The
    matrix is 10 by 10 and the file "matrix.bin" whatever they say. *)
Theorem main_ignores_dim uninit av1 av2 vm1 vm2 w :
  po_parse desc av1 = inr vm1 → wants_help av1 vm1 = false →
  po_parse desc av2 = inr vm2 → wants_help av2 vm2 = false →
  vm1 !! txt "input" = vm2 !! txt "input" →
  writable matrix_file w →
  ∃ rest w',
    main uninit av1 w
    = (Ret 0, with_out (dimension_line (options_of vm1 options_init) ++ rest) w')
    ∧ main uninit av2 w
    = (Ret 0, with_out (dimension_line (options_of vm2 options_init) ++ rest) w')
    ∧ cout w' = cout w.
Proof.
  intros Hp1 Hh1 Hp2 Hh2 Hin Hw.
  rewrite (main_runs uninit av1 vm1 w Hp1 Hh1 Hw), (main_runs uninit av2 vm2 w Hp2 Hh2 Hw).
  unfold input_errors. rewrite !statistics_output_split, !options_of_input, <- Hin.
  eexists (after_dimension _ w ++ matrix_output uninit),
    (with_file matrix_file (Encode demo_matrix) (with_err _ w)).
  rewrite <- !(assoc_L (++)). by split_and!.
Qed.
End main_results.

(** ** Witnesses of the results on the command line *)

Lemma main_run_witness :
  ∃ bytes,
    let w' :=
      with_file matrix_file bytes
        (with_out
           (dimension_line
              (options_of [(txt "input", VString (txt "f.txt"))] options_init)
            ++ stats_report (text_stats (txt "b a. b")) ++ matrix_output zero_filled)
           (world_init {[ txt "f.txt" := txt "b a. b" ]})) in
    main (H:=long_options) zero_filled [txt "prog"; txt "--input"; txt "f.txt"]
      (world_init {[ txt "f.txt" := txt "b a. b" ]})
    = (Ret 0, w')
    ∧ load_matrix matrix_default matrix_file w' = (Ret demo_matrix, w').
Proof.
  apply (main_run (H:=long_options) zero_filled _ _ (txt "f.txt")); by vm_compute.
Defined.

Lemma main_without_input_witness :
  ∃ bytes,
    main (H:=long_options) zero_filled [txt "prog"; txt "--dim"; txt "5"]
      (world_init ∅)
    = (Ret 0,
       with_file matrix_file bytes
         (with_err (txt "can't open input file: " ++ endl)
            (with_out
               (dimension_line (options_of [(txt "dim", VInt 5)] options_init)
                ++ (txt "set --input file" ++ endl)
                ++ stats_report stats_init ++ matrix_output zero_filled)
               (world_init ∅)))).
Proof.
  apply (main_without_input (H:=long_options) zero_filled); by vm_compute.
Defined.

Lemma main_parse_error_witness :
  main (H:=long_options) zero_filled [txt "prog"; txt "--colour"] (world_init ∅)
  = (Exit 1,
     with_err (txt "error: " ++ txt "unrecognised option '--colour'" ++ endl)
       (world_init ∅)).
Proof. apply (main_parse_error (H:=long_options)). by vm_compute. Defined.

Lemma main_unwritable_witness :
  ∃ out errs,
    main (H:=long_options) zero_filled [txt "prog"; txt "--dim"; txt "5"]
      (World ∅ {[ matrix_file ]} [] [])
    = (Abort, with_err errs (with_out (out ++ txt "Save matrix" ++ endl)
                               (World ∅ {[ matrix_file ]} [] []))).
Proof.
  apply (main_unwritable (H:=long_options) _ _ [(txt "dim", VInt 5)]);
    try by vm_compute.
  intros [_ Hd]. apply Hd. cbn. by apply elem_of_singleton.
Defined.

Lemma main_keeps_files_witness :
  files (main (H:=long_options) zero_filled [txt "prog"; txt "--dim"; txt "5"]
           (world_init {[ txt "f.txt" := txt "b a. b" ]})).2 !! txt "f.txt"
  = files (world_init {[ txt "f.txt" := txt "b a. b" ]}) !! txt "f.txt".
Proof. apply (main_keeps_files (H:=long_options)). by vm_compute. Defined.

Lemma main_ignores_dim_witness :
  ∃ rest w',
    main (H:=long_options) zero_filled [txt "prog"; txt "--dim"; txt "5"] (world_init ∅)
    = (Ret 0, with_out (dimension_line (options_of [(txt "dim", VInt 5)] options_init)
                        ++ rest) w')
    ∧ main (H:=long_options) zero_filled [txt "prog"; txt "--matrix=m.bin"] (world_init ∅)
    = (Ret 0, with_out (dimension_line
                          (options_of [(txt "matrix", VString (txt "m.bin"))]
                             options_init) ++ rest) w')
    ∧ cout w' = cout (world_init ∅).
Proof.
  apply (main_ignores_dim (H:=long_options)); by vm_compute.
Defined.
